(** * Analytics platform: event buffer, ingestion gateway, fan-out and
  guarded natural-language query service

  A shallow embedding of the TypeScript sources
  - [sdk/web/src/index.ts]                  (classes [Analytics] and
                                             [AutoTracker]),
  - [backend/src/routes/events.ts]          ([POST /], [POST /batch],
                                             [GET /recent]),
  - [backend/src/routes/analytics.ts]       ([GET /funnel], [GET /pages]),
  - [backend/src/routes/ai.ts]              ([POST /query]),
  - [backend/src/services/realtimeService.ts],
  - [backend/src/services/aiQueryService.ts],
  - [backend/src/middleware/auth.ts]        ([authenticateToken]),
  - [backend/src/utils/validation.ts], [backend/src/utils/helpers.ts],
  - [frontend/src/lib/api.ts]               ([getFunnelAnalysis]),
  followed by the properties established about them.

  Conventions.  A JavaScript string is a [string] of 8-bit characters,
  read as the code units U+0000 to U+00FF; texts with code units above
  U+00FF are outside the model.  [toLowerCase] and [toUpperCase] act on
  the ASCII letters and leave every other character alone.  No character
  of that range is lowered to an ASCII letter, so a lowered text is
  tested against an ASCII text as the full mapping would have it;
  [toUpperCase] is only applied to the ASCII keywords.  A JavaScript object used as a dictionary is a
  [gmap string _].  External collaborators (the language model, the
  ClickHouse store, Redis, the network) are explicit parameters whose
  answers are inputs of the model. *)

From Stdlib Require Import ZArith QArith Qcanon Qround Ascii String DecimalString List Lia.
From stdpp Require Import base option list strings gmap.

#[local] Arguments String.append !s1 s2 : simpl nomatch.

Local Open Scope string_scope.
Local Open Scope list_scope.
Local Open Scope Z_scope.

(* ===================================================================== *)
(** * JavaScript strings                                                   *)
(* ===================================================================== *)

Module JS.

(** [c.toLowerCase()] on one character. *)
Definition lower_ascii (c : ascii) : ascii :=
  let n := N_of_ascii c in
  if ((65 <=? n) && (n <=? 90))%N then ascii_of_N (n + 32) else c.

(** [c.toUpperCase()] on one character. *)
Definition upper_ascii (c : ascii) : ascii :=
  let n := N_of_ascii c in
  if ((97 <=? n) && (n <=? 122))%N then ascii_of_N (n - 32) else c.

Fixpoint map_chars (f : ascii -> ascii) (s : string) : string :=
  match s with
  | EmptyString => EmptyString
  | String c s' => String (f c) (map_chars f s')
  end.

Definition toLowerCase : string -> string := map_chars lower_ascii.
Definition toUpperCase : string -> string := map_chars upper_ascii.

(** [s.startsWith(t)]. *)
Fixpoint startsWith (s t : string) {struct t} : bool :=
  match t, s with
  | EmptyString, _ => true
  | String _ _, EmptyString => false
  | String b t', String a s' => if Ascii.eqb a b then startsWith s' t' else false
  end.

(** [s.includes(t)]: [t] occurs in [s] at some offset. *)
Fixpoint includes (s t : string) : bool :=
  startsWith s t ||
  match s with
  | EmptyString => false
  | String _ s' => includes s' t
  end.

(** [l.join(sep)]. *)
Fixpoint join (sep : string) (l : list string) : string :=
  match l with
  | [] => ""
  | [x] => x
  | x :: rest => x +:+ sep +:+ join sep rest
  end.

(** Removal of every character of a class, as a global regex
    [replace] with the empty string does. *)
Fixpoint remove_chars (bad : ascii -> bool) (s : string) : string :=
  match s with
  | EmptyString => EmptyString
  | String c s' => if bad c then remove_chars bad s' else String c (remove_chars bad s')
  end.

(** [s.split(',')]: the pieces between the separators; never empty. *)
Fixpoint split_on (sep : ascii) (s : string) : list string :=
  match s with
  | EmptyString => [""]
  | String c s' =>
      if Ascii.eqb c sep then "" :: split_on sep s'
      else match split_on sep s' with
           | [] => [String c ""]
           | piece :: rest => String c piece :: rest
           end
  end.

(** Decimal rendering of an index, as in a template literal. *)
Definition dec (n : nat) : string :=
  NilZero.string_of_uint (Nat.to_uint n).

(** [kw] occurs in [s], letter case aside: some stretch of [s] lowers to
    the same text as [kw]. *)
Definition occurs_ci (kw s : string) : Prop :=
  exists pre mid post, s = pre +:+ mid +:+ post /\ toLowerCase mid = toLowerCase kw.

End JS.

(* ===================================================================== *)
(** * Query service: [backend/src/services/aiQueryService.ts]              *)
(* ===================================================================== *)

Module AIQuery.
Import JS.

(** [interface QueryContext]; only the fields the pipeline reads.  An
    absent [limit] is [None]. *)
Record QueryContext := {
  project_id : string;
  user_id : option string;
  date_range : option string;
  limit : option Z
}.

(** [interface AIQueryResult]. *)
Record AIQueryResult (row : Type) := {
  sql : string;
  data : option (list row);
  insights : option (list string);
  visualization : option string;
  error : option string
}.
Arguments sql {row}.
Arguments data {row}.
Arguments insights {row}.
Arguments visualization {row}.
Arguments error {row}.

(** The value [validateSQL] resolves to. *)
Record Validation := {
  isValid : bool;
  errors : list string;
  warnings : list string
}.

Definition dangerousKeywords : list string :=
  ["drop"; "delete"; "update"; "insert"; "alter"; "create"].

Definition dangerous_message (keyword : string) : string :=
  "Dangerous operation detected: " +:+ toUpperCase keyword.

(** [errors.push(x)] *)
Definition push {A} (l : list A) (x : A) : list A := l ++ [x].

(** The [for (const keyword of dangerousKeywords)] loop. *)
Definition scan_keywords (lowerSQL : string) (errs : list string) : list string :=
  fold_left
    (fun errs keyword =>
       if includes lowerSQL keyword then push errs (dangerous_message keyword) else errs)
    dangerousKeywords errs.

(** The error list as it stands when the [EXPLAIN] step is reached. *)
Definition static_errors (sql : string) : list string :=
  let errs := [] in
  let errs := if negb (includes (toLowerCase sql) "select")
              then push errs "Query must be a SELECT statement" else errs in
  let errs := if negb (includes sql "project_id")
              then push errs "Query must include project_id filter for security" else errs in
  scan_keywords (toLowerCase sql) errs.

(** The two performance warnings. *)
Definition static_warnings (sql : string) : list string :=
  let lowerSQL := toLowerCase sql in
  let ws := [] in
  let ws := if negb (includes lowerSQL "limit")
            then push ws "Consider adding LIMIT clause for better performance" else ws in
  if negb (includes lowerSQL "timestamp >=") && negb (includes lowerSQL "timestamp between")
  then push ws "Consider adding timestamp filter for better performance" else ws.

(** The collaborators of the service.
    - [generateSQL question context]: the extracted query, or [inr msg]
      when the call throws;
    - [explain sql]: [None] when [EXPLAIN SYNTAX sql] succeeds, [Some msg]
      when the store rejects it;
    - [store sql]: the rows the store yields for the query text (with
      whatever bound the text itself carries), or [inr msg] when it throws;
    - [generateInsights], [suggestVisualization]: result shaping, the
      former again with [inr msg] when it throws. *)
Record Collaborators (row : Type) := {
  generateSQL : string -> QueryContext -> string + string;
  explain : string -> option string;
  store : string -> list row + string;
  generateInsights : list row -> string -> list string + string;
  suggestVisualization : list row -> string -> string
}.
Arguments generateSQL {row}.
Arguments explain {row}.
Arguments store {row}.
Arguments generateInsights {row}.
Arguments suggestVisualization {row}.

(** Modelled from the spec: the tail of [validateSQL] (the [catch] of the
    [EXPLAIN] attempt and the [return]) is not in the sources.  Up to the
    [EXPLAIN] call the definition follows the code; a failed [EXPLAIN]
    is taken to record its message as one more error, and the query is
    valid exactly when no error was recorded (section 4.4, step 5: a
    query with a recorded violation is rejected, never executed). *)
Definition validateSQL {row} (c : Collaborators row) (sql : string) : Validation :=
  let errs := static_errors sql in
  let errs :=
    match errs with
    | [] => match explain c sql with
            | None => errs
            | Some msg => push errs msg
            end
    | _ :: _ => errs
    end in
  {| isValid := bool_decide (errs = []);
     errors := errs;
     warnings := static_warnings sql |}.

(** The double-quote character. *)
Definition dquote : ascii := ascii_of_N 34.

(** [sanitizeInput] of [utils/helpers.ts]: the characters less-than,
    greater-than, single quote, double quote and ampersand are removed. *)
Definition sanitizeInput (input : string) : string :=
  remove_chars
    (fun c => bool_decide (c ∈ ["<"%char; ">"%char; "'"%char; dquote; "&"%char])) input.

(** [context.limit || 1000] *)
Definition effective_limit (context : QueryContext) : Z :=
  match limit context with
  | None => 1000
  | Some 0 => 1000
  | Some n => n
  end.

(** Modelled from the spec: [executeQuery] is called by
    [processNaturalLanguageQuery] but its body is not in the sources.
    Section 4.4, step 6: the validated query is executed with an enforced
    result cap, regardless of any limit the query itself specifies: the
    rows the store yields are cut to the first [cap]. *)
Definition executeQuery {row} (c : Collaborators row) (sql : string) (cap : Z)
  : list row + string :=
  match store c sql with
  | inl rows => inl (take (Z.to_nat cap) rows)
  | inr msg => inr msg
  end.

Definition failed {row} (q : string) (msg : string) : AIQueryResult row :=
  {| sql := q; data := None; insights := None; visualization := None;
     error := Some msg |}.

(** [processNaturalLanguageQuery]; a collaborator that throws lands in the
    [catch], which answers with an empty query and the message of the
    error. *)
Definition processNaturalLanguageQuery {row} (c : Collaborators row)
    (question : string) (context : QueryContext) : AIQueryResult row :=
  let sanitizedQuestion := sanitizeInput question in
  match generateSQL c sanitizedQuestion context with
  | inr msg => failed "" msg
  | inl q =>
      if bool_decide (q = "") then failed "" "Failed to generate SQL query"
      else
        let validation := validateSQL c q in
        if negb (isValid validation)
        then failed q ("Invalid SQL: " +:+ join ", " (errors validation))
        else
          match executeQuery c q (effective_limit context) with
          | inr msg => failed "" msg
          | inl rows =>
              match generateInsights c rows sanitizedQuestion with
              | inr msg => failed "" msg
              | inl ins =>
                  {| sql := q; data := Some rows; insights := Some ins;
                     visualization := Some (suggestVisualization c rows sanitizedQuestion);
                     error := None |}
              end
          end
  end.

(** ** Sample collaborators *)

(** The collaborators used in the concrete runs: the model answers with a
    fixed text, the store accepts it and yields [n] rows. *)
Definition canned (answer : string) (n : nat) : Collaborators nat :=
  {| generateSQL := fun _ _ => inl answer;
     explain := fun _ => None;
     store := fun _ => inl (seq 0 n);
     generateInsights := fun _ _ => inl [];
     suggestVisualization := fun _ _ => "table" |}.

Definition context_of (pid : string) (lim : option Z) : QueryContext :=
  {| project_id := pid; user_id := None; date_range := None; limit := lim |}.

End AIQuery.

(* ===================================================================== *)
(** * JSON values and plain objects                                        *)
(* ===================================================================== *)

Module Json.

(** A JSON value as the handlers hold it once the body is parsed.  A
    number is an integer.  A nested object keeps its entries as a list,
    one entry per key, in the order [Object.keys] lists them (keys that
    are array indices first, in ascending order, then the others as the
    text of the request has them); the top-level objects the handlers
    spread and extend are [gmap string jval]. *)
#[local] Unset Elimination Schemes.
Inductive jval :=
| JStr (s : string)
| JNum (n : Z)
| JBool (b : bool)
| JNull
| JObj (entries : list (string * jval))
| JArr (items : list jval).
#[local] Set Elimination Schemes.

Definition is_scalar (v : jval) : bool :=
  match v with
  | JStr _ | JNum _ | JBool _ => true
  | _ => false
  end.

End Json.

(* ===================================================================== *)
(** * Fan-out hub: [backend/src/services/realtimeService.ts]               *)
(* ===================================================================== *)

Module Realtime.
Import Json.

(** One [io.to(room).emit(name, payload)]. *)
Record Emission := {
  room : string;
  channel : string;
  payload : gmap string jval
}.

(** Room membership as socket.io keeps it: room name to socket ids. *)
Definition members (rooms : gmap string (gset string)) (r : string) : gset string :=
  default ∅ (rooms !! r).

(** [socket.join(room)] *)
Definition socket_join (sock r : string) (rooms : gmap string (gset string))
  : gmap string (gset string) :=
  <[r := {[sock]} ∪ members rooms r]> rooms.

(** The [join_project] listener. *)
Definition join_project (sock projectId : string) (rooms : gmap string (gset string))
  : gmap string (gset string) :=
  socket_join sock ("project_" +:+ projectId) rooms.

(** [broadcastEvent(projectId, event)]; [now] is what
    [new Date().toISOString()] yields at the call. *)
Definition broadcastEvent (now : string) (projectId : string) (event : gmap string jval)
  : Emission :=
  {| room := "project_" +:+ projectId;
     channel := "new_event";
     payload := <["timestamp" := JStr now]> event |}.

(** What an emission hands to the connected sockets: one message per member
    of the room. *)
Definition deliveries (rooms : gmap string (gset string)) (e : Emission)
  : list (string * string * gmap string jval) :=
  (fun sock => (sock, channel e, payload e)) <$> elements (members rooms (room e)).

End Realtime.

(* ===================================================================== *)
(** * Ingestion gateway: [backend/src/routes/events.ts]                    *)
(* ===================================================================== *)

Module Ingest.
Import JS Json.

(** A Joi failure: the label of the offending value and the complaint;
    the rendered message is the quoted label followed by the complaint. *)
Record JoiError := {
  label : string;
  complaint : string
}.

Definition quote : string := String (ascii_of_N 34) "".

Definition message (e : JoiError) : string :=
  quote +:+ label e +:+ quote +:+ " " +:+ complaint e.

(** Where the handlers read the clock. *)
Inductive clock_site :=
| AtDefault (i : nat)      (* the [timestamp] default of item [i] *)
| AtBroadcast (i : nat)    (* [broadcastEvent] of item [i] *)
| AtResponse.

(** Redis commands issued by the handlers; the pushed value is the event
    that [JSON.stringify] serialises. *)
Inductive redis_cmd :=
| LPush (key : string) (value : gmap string jval)
| LTrim (key : string) (start stop : Z)
| Expire (key : string) (seconds : Z).

(** Observable side effects, in the order they complete. *)
Inductive effect :=
| Insert (table : string) (values : list (gmap string jval))
| Redis (cmd : redis_cmd)
| RedisExec (cmds : list redis_cmd)
| Publish (e : Realtime.Emission).

(** The environment of one request: the Joi format predicates
    ([is_iso_date]: the text has the ISO 8601 form and gives a date), the
    order in which [Object.keys] lists the keys of an object (a map keeps
    none), the clock, and whether each awaited call resolves ([true]) or
    rejects. *)
Record Env := {
  is_uuid : string -> bool;
  is_iso_date : string -> bool;
  key_order : gmap string jval -> list string;
  toISOString : string -> string;
  clock : clock_site -> string;
  insert_resolves : list (gmap string jval) -> bool;
  redis_resolves : redis_cmd -> bool;
  exec_resolves : list redis_cmd -> bool
}.

(** The parts of the Express request the handlers read. *)
Record Request (B : Type) := {
  body : B;
  project : string;            (* [req.project.id], set by [authenticateApiKey] *)
  ip : string;
  user_agent : option string   (* [req.get('User-Agent')] *)
}.
Arguments body {B}.
Arguments project {B}.
Arguments ip {B}.
Arguments user_agent {B}.

Record Response := {
  status : Z;
  json : gmap string jval
}.

(** ** [utils/validation.ts] *)

Definition schema_keys : list string :=
  ["user_id"; "event_name"; "properties"; "timestamp"; "session_id"; "platform"].

(** [Joi.string().uuid()], [required] or [optional]. *)
Definition check_uuid (env : Env) (required : bool) (key : string) (raw : gmap string jval)
  : option JoiError :=
  match raw !! key with
  | None => if required then Some {| label := key; complaint := "is required" |} else None
  | Some (JStr s) =>
      if bool_decide (s = "")
      then Some {| label := key; complaint := "is not allowed to be empty" |}
      else if is_uuid env s then None
      else Some {| label := key; complaint := "must be a valid GUID" |}
  | Some _ => Some {| label := key; complaint := "must be a string" |}
  end.

(** [Joi.string().min(1).max(100).required()] *)
Definition check_event_name (raw : gmap string jval) : option JoiError :=
  let key := "event_name" in
  match raw !! key with
  | None => Some {| label := key; complaint := "is required" |}
  | Some (JStr s) =>
      if bool_decide (s = "")
      then Some {| label := key; complaint := "is not allowed to be empty" |}
      else if (100 <? String.length s)%nat
      then Some {| label := key;
                   complaint := "length must be less than or equal to 100 characters long" |}
      else None
  | Some _ => Some {| label := key; complaint := "must be a string" |}
  end.

(** What the alternatives [string | number | boolean] have against the
    value of a property.  A string must not be empty and a number must be
    a safe integer; when the only complaint that is not about the type is
    one of these, Joi reports it, and when no alternative has the type it
    lists the types. *)
Definition property_complaint (v : jval) : option string :=
  match v with
  | JStr s => if bool_decide (s = "") then Some "is not allowed to be empty" else None
  | JNum n =>
      if Z.abs n <=? 9007199254740991 then None else Some "must be a safe number"
  | JBool _ => None
  | JNull | JObj _ | JArr _ => Some "must be one of [string, number, boolean]"
  end.

(** [Joi.object().pattern(Joi.string(), string | number | boolean)]: the
    entries in the order of the object's keys, each value against the
    alternatives; a key that is the empty text does not match the key
    pattern, and is refused as an unknown key once the values have
    passed. *)
Definition check_properties (raw : gmap string jval) : option JoiError :=
  let key := "properties" in
  match raw !! key with
  | None => None
  | Some (JObj entries) =>
      match List.find (fun kv => negb (bool_decide (kv.1 = ""))
                                 && bool_decide (property_complaint kv.2 <> None))
                      entries with
      | Some kv => Some {| label := key +:+ "." +:+ kv.1;
                           complaint := default "" (property_complaint kv.2) |}
      | None =>
          if bool_decide ("" ∈ entries.*1)
          then Some {| label := key +:+ "."; complaint := "is not allowed" |}
          else None
      end
  | Some _ => Some {| label := key; complaint := "must be of type object" |}
  end.

(** A number as a regular expression reads it; from [10^21] on the text
    has an exponent. *)
Definition number_text (n : Z) : string := NilZero.string_of_int (Z.to_int n).

(** [Joi.date().iso()]: a text must be an ISO 8601 date; a number is
    tested through its text (so the number 2024 is the year 2024), and
    any other value is no date. *)
Definition check_timestamp (env : Env) (raw : gmap string jval) : option JoiError :=
  let key := "timestamp" in
  match raw !! key with
  | None => None
  | Some (JStr s) =>
      if is_iso_date env s then None
      else Some {| label := key; complaint := "must be in ISO 8601 date format" |}
  | Some (JNum n) =>
      if (Z.abs n <? 10 ^ 21) && is_iso_date env (number_text n) then None
      else Some {| label := key; complaint := "must be a valid date" |}
  | Some _ => Some {| label := key; complaint := "must be a valid date" |}
  end.

(** [Joi.string().valid('web', 'android', 'ios')] *)
Definition check_platform (raw : gmap string jval) : option JoiError :=
  let key := "platform" in
  match raw !! key with
  | None => None
  | Some (JStr s) =>
      if bool_decide (s ∈ ["web"; "android"; "ios"]) then None
      else Some {| label := key; complaint := "must be one of [web, android, ios]" |}
  | Some _ => Some {| label := key; complaint := "must be one of [web, android, ios]" |}
  end.

(** Keys outside the schema are refused; of several, the one named is the
    first in the order of the object's keys. *)
Definition check_unknown (env : Env) (raw : gmap string jval) : option JoiError :=
  let unknown :=
    List.filter (fun k => bool_decide (k ∉ schema_keys)) (elements (dom raw)) in
  match List.filter (fun k => bool_decide (k ∈ unknown)) (key_order env raw) with
  | k :: _ => Some {| label := k; complaint := "is not allowed" |}
  | [] =>
      match unknown with
      | k :: _ => Some {| label := k; complaint := "is not allowed" |}
      | [] => None
      end
  end.

(** The first complaint of a list of checks (Joi stops at the first). *)
Fixpoint first_error (checks : list (option JoiError)) : option JoiError :=
  match checks with
  | [] => None
  | Some e :: _ => Some e
  | None :: rest => first_error rest
  end.

(** [m.key ?? d], for the [default(...)] clauses. *)
Definition with_default (key : string) (d : jval) (m : gmap string jval) : gmap string jval :=
  match m !! key with
  | Some _ => m
  | None => <[key := d]> m
  end.

(** The first complaint [eventSchema] has about [raw], if any: the keys in
    the order of the schema, then the keys outside it. *)
Definition eventSchema_complaint (env : Env) (raw : gmap string jval) : option JoiError :=
  first_error [ check_uuid env true "user_id" raw;
                check_event_name raw;
                check_properties raw;
                check_timestamp env raw;
                check_uuid env false "session_id" raw;
                check_platform raw;
                check_unknown env raw ].

(** The date Joi makes of an accepted [timestamp], carried as the text it
    was read from. *)
Definition as_date (raw : gmap string jval) : gmap string jval :=
  match raw !! "timestamp" with
  | Some (JNum n) => <["timestamp" := JStr (number_text n)]> raw
  | _ => raw
  end.

(** [eventSchema.validate(raw)]: the complaint, or the value with the
    defaults filled in.  [i] only selects the clock reading of the
    [timestamp] default. *)
Definition eventSchema_validate (env : Env) (i : nat) (raw : gmap string jval)
  : JoiError + gmap string jval :=
  match eventSchema_complaint env raw with
  | Some e => inl e
  | None =>
      inr (with_default "platform" (JStr "web")
             (with_default "timestamp" (JStr (clock env (AtDefault i)))
                (with_default "properties" (JObj []) (as_date raw))))
  end.

(** The items of [batchEventsSchema], from index [i] on; a complaint about
    item [i] is labelled [events[i].field]. *)
Fixpoint validate_items (env : Env) (i : nat) (raws : list (gmap string jval))
  : JoiError + list (gmap string jval) :=
  match raws with
  | [] => inr []
  | raw :: rest =>
      match eventSchema_validate env i raw with
      | inl e => inl {| label := "events[" +:+ dec i +:+ "]." +:+ label e;
                        complaint := complaint e |}
      | inr value =>
          match validate_items env (S i) rest with
          | inl e => inl e
          | inr values => inr (value :: values)
          end
      end
  end.

(** [batchEventsSchema.validate({events})]: the items, then
    [min(1)] and [max(100)]. *)
Definition batchEventsSchema_validate (env : Env) (events : list (gmap string jval))
  : JoiError + list (gmap string jval) :=
  match validate_items env 0 events with
  | inl e => inl e
  | inr values =>
      if (length events <? 1)%nat
      then inl {| label := "events"; complaint := "must contain at least 1 items" |}
      else if (100 <? length events)%nat
      then inl {| label := "events";
                  complaint := "must contain less than or equal to 100 items" |}
      else inr values
  end.

(** ** The handlers *)

(** A computation of a handler's [try] block: the effects completed so far
    and the result, [None] once something has thrown. *)
Definition Trace (A : Type) : Type := list effect * option A.

Definition ret {A} (a : A) : Trace A := ([], Some a).

Definition bind {A B} (m : Trace A) (k : A -> Trace B) : Trace B :=
  match m with
  | (t, None) => (t, None)
  | (t, Some a) => let (t', r) := k a in (t ++ t', r)
  end.

Notation "m ;;; k" := (bind m (fun _ => k))
  (at level 60, right associativity).

(** An awaited call: it completes and is observed, or it rejects. *)
Definition await (resolves : bool) (e : effect) : Trace unit :=
  if resolves then ([e], Some tt) else ([], None).

(** A call that cannot reject. *)
Definition perform (e : effect) : Trace unit := ([e], Some tt).

(** [for each] over a list, in order. *)
Fixpoint for_each {A} (f : nat -> A -> Trace unit) (i : nat) (l : list A) : Trace unit :=
  match l with
  | [] => ret tt
  | x :: rest => f i x ;;; for_each f (S i) rest
  end.

Definition error_body (msg : string) : gmap string jval := {[ "error" := JStr msg ]}.

(** [try { ... } catch { res.status(500).json({error}) }] *)
Definition try_catch (m : Trace Response) (failure : string) : list effect * Response :=
  match m with
  | (t, Some r) => (t, r)
  | (t, None) => (t, {| status := 500; json := error_body failure |})
  end.

(** The server-side fields added to a validated event. *)
Definition enrich {B} (env : Env) (req : Request B) (value : gmap string jval)
  : gmap string jval :=
  let ts := match value !! "timestamp" with
            | Some (JStr s) => toISOString env s
            | _ => toISOString env ""
            end in
  <["timestamp" := JStr ts]>
    (<["user_agent" := JStr (default "" (user_agent req))]>
       (<["ip" := JStr (ip req)]>
          (<["project_id" := JStr (project req)]> value))).

Definition recent_key (projectId : string) : string := "recent_events:" +:+ projectId.

(** [router.post('/')] *)
Definition post_event (env : Env) (req : Request (gmap string jval))
  : list effect * Response :=
  match eventSchema_validate env 0 (body req) with
  | inl e => ([], {| status := 400; json := error_body (message e) |})
  | inr value =>
      let event := enrich env req value in
      let cacheKey := recent_key (project req) in
      try_catch
        (await (insert_resolves env [event]) (Insert "events" [event]) ;;;
         await (redis_resolves env (LPush cacheKey event)) (Redis (LPush cacheKey event)) ;;;
         await (redis_resolves env (LTrim cacheKey 0 99)) (Redis (LTrim cacheKey 0 99)) ;;;
         await (redis_resolves env (Expire cacheKey 3600)) (Redis (Expire cacheKey 3600)) ;;;
         perform (Publish (Realtime.broadcastEvent (clock env (AtBroadcast 0))
                             (project req) event)) ;;;
         ret {| status := 201;
                json := {[ "message" := JStr "Event tracked successfully";
                           "event_id" := default (JStr "generated") (event !! "id");
                           "timestamp" := default JNull (event !! "timestamp") ]} |})
        "Failed to track event"
  end.

(** [router.post('/batch')] *)
Definition post_batch (env : Env) (req : Request (list (gmap string jval)))
  : list effect * Response :=
  match batchEventsSchema_validate env (body req) with
  | inl e => ([], {| status := 400; json := error_body (message e) |})
  | inr values =>
      let projectId := project req in
      let events := enrich env req <$> values in
      let cacheKey := recent_key projectId in
      let pipeline := (LPush cacheKey <$> events)
                        ++ [LTrim cacheKey 0 99; Expire cacheKey 3600] in
      try_catch
        (await (insert_resolves env events) (Insert "events" events) ;;;
         await (exec_resolves env pipeline) (RedisExec pipeline) ;;;
         for_each (fun i event =>
                     perform (Publish (Realtime.broadcastEvent (clock env (AtBroadcast i))
                                         projectId event)))
                  0%nat events ;;;
         ret {| status := 201;
                json := {[ "message" := JStr "Batch events tracked successfully";
                           "events_count" := JNum (Z.of_nat (length events));
                           "timestamp" := JStr (clock env AtResponse) ]} |})
        "Failed to track batch events"
  end.


Definition is_insert (e : effect) : bool :=
  match e with
  | Insert _ _ => true
  | _ => false
  end.


(** ** Sample requests *)

(** An environment for the concrete runs: a 36-character [user_id] counts
    as a UUID, every timestamp as ISO, Redis answers, and the store
    accepts a write or not as [store_up] says. *)
Definition sample_env (store_up : bool) : Env :=
  {| is_uuid := fun s => (String.length s =? 36)%nat;
     is_iso_date := fun _ => true;
     key_order := fun m => elements (dom m);
     toISOString := fun s => s;
     clock := fun _ => "2024-06-01T12:00:00.000Z";
     insert_resolves := fun _ => store_up;
     redis_resolves := fun _ => true;
     exec_resolves := fun _ => true |}.

Definition sample_event (name : string) : gmap string jval :=
  {[ "user_id" := JStr "123e4567-e89b-12d3-a456-426614174000";
     "event_name" := JStr name;
     "timestamp" := JStr "2024-05-31T08:00:00.000Z" ]}.

Definition sample_request {B} (b : B) : Request B :=
  {| body := b; project := "p1"; ip := "10.0.0.1"; user_agent := Some "sdk" |}.

End Ingest.

(* ===================================================================== *)
(** * Client event buffer: [sdk/web/src/index.ts], class [Analytics]       *)
(* ===================================================================== *)

Module SDK.
Import Json.

(** [Required<AnalyticsConfig>] *)
Record AnalyticsConfig := {
  apiKey : string;
  apiUrl : string;
  debug : bool;
  batchSize : nat;
  flushInterval : Z;
  retryAttempts : nat;
  offlineEnabled : bool
}.

(** The defaults the constructor fills in. *)
Definition default_config (key : string) : AnalyticsConfig :=
  {| apiKey := key;
     apiUrl := "http://localhost:3001/api/v1";
     debug := false;
     batchSize := 20;
     flushInterval := 10000;
     retryAttempts := 3;
     offlineEnabled := true |}.

(** [interface QueuedEvent] *)
Record QueuedEvent := {
  id : string;
  user_id : string;
  event_name : string;
  properties : gmap string jval;
  timestamp : string;
  session_id : string;
  platform : string;
  retries : nat
}.

(** [event.retries++] *)
Definition bump (e : QueuedEvent) : QueuedEvent :=
  {| id := id e; user_id := user_id e; event_name := event_name e;
     properties := properties e; timestamp := timestamp e;
     session_id := session_id e; platform := platform e;
     retries := S (retries e) |}.

(** A request put on the wire, with the batch it carries. *)
Inductive Transmission :=
| Fetch (events : list QueuedEvent)     (* [fetch], awaited *)
| Beacon (events : list QueuedEvent)    (* [navigator.sendBeacon] *)
| SyncXHR (events : list QueuedEvent).  (* synchronous [XMLHttpRequest] *)

Definition carried (t : Transmission) : list QueuedEvent :=
  match t with
  | Fetch events | Beacon events | SyncXHR events => events
  end.

(** The instance, with the parts of the browser it talks to:
    [localStorage] is the item [analytics_queue], [network] the requests
    issued so far (oldest first), [inflight] the [fetch] calls that have not
    settled yet. *)
Record Analytics := {
  config : AnalyticsConfig;
  userId : option string;
  sessionId : string;
  eventQueue : list QueuedEvent;
  isOnline : bool;
  deviceInfo : gmap string jval;
  hasBeacon : bool;
  localStorage : option (list QueuedEvent);
  network : list Transmission;
  inflight : list (list QueuedEvent)
}.

Definition set_eventQueue (q : list QueuedEvent) (a : Analytics) : Analytics :=
  {| config := config a; userId := userId a; sessionId := sessionId a;
     eventQueue := q; isOnline := isOnline a; deviceInfo := deviceInfo a;
     hasBeacon := hasBeacon a; localStorage := localStorage a;
     network := network a; inflight := inflight a |}.

Definition set_isOnline (b : bool) (a : Analytics) : Analytics :=
  {| config := config a; userId := userId a; sessionId := sessionId a;
     eventQueue := eventQueue a; isOnline := b; deviceInfo := deviceInfo a;
     hasBeacon := hasBeacon a; localStorage := localStorage a;
     network := network a; inflight := inflight a |}.

Definition set_localStorage (s : option (list QueuedEvent)) (a : Analytics) : Analytics :=
  {| config := config a; userId := userId a; sessionId := sessionId a;
     eventQueue := eventQueue a; isOnline := isOnline a; deviceInfo := deviceInfo a;
     hasBeacon := hasBeacon a; localStorage := s;
     network := network a; inflight := inflight a |}.

Definition set_network (n : list Transmission) (a : Analytics) : Analytics :=
  {| config := config a; userId := userId a; sessionId := sessionId a;
     eventQueue := eventQueue a; isOnline := isOnline a; deviceInfo := deviceInfo a;
     hasBeacon := hasBeacon a; localStorage := localStorage a;
     network := n; inflight := inflight a |}.

Definition set_inflight (f : list (list QueuedEvent)) (a : Analytics) : Analytics :=
  {| config := config a; userId := userId a; sessionId := sessionId a;
     eventQueue := eventQueue a; isOnline := isOnline a; deviceInfo := deviceInfo a;
     hasBeacon := hasBeacon a; localStorage := localStorage a;
     network := network a; inflight := f |}.

(** [saveQueuedEvents] *)
Definition saveQueuedEvents (a : Analytics) : Analytics :=
  set_localStorage (Some (eventQueue a)) a.

(** [sendEvents], up to its [await]: nothing happens while offline with the
    offline mode on; otherwise the [fetch] is issued. *)
Definition sendEvents (events : list QueuedEvent) (a : Analytics) : Analytics :=
  if negb (isOnline a) && offlineEnabled (config a) then a
  else set_inflight (inflight a ++ [events])
         (set_network (network a ++ [Fetch events]) a).

(** [sendEvents] after its [await], when the response is [ok]. *)
Definition sendEvents_delivered (events : list QueuedEvent) (a : Analytics) : Analytics :=
  if offlineEnabled (config a) then saveQueuedEvents a else a.

(** [sendEvents] after its [await], in the [catch]: the [fetch] rejected or
    the response was not [ok]. *)
Definition sendEvents_failed (events : list QueuedEvent) (a : Analytics) : Analytics :=
  let retriableEvents :=
    List.filter (fun event => (retries event <? retryAttempts (config a))%nat) events in
  let retriableEvents := bump <$> retriableEvents in
  let a := set_eventQueue (retriableEvents ++ eventQueue a) a in
  if offlineEnabled (config a) then saveQueuedEvents a else a.

(** [sendEventsSync] *)
Definition sendEventsSync (events : list QueuedEvent) (a : Analytics) : Analytics :=
  if hasBeacon a
  then set_network (network a ++ [Beacon events]) a
  else set_network (network a ++ [SyncXHR events]) a.

(** [flush(synchronous)] *)
Definition flush (synchronous : bool) (a : Analytics) : Analytics :=
  match eventQueue a with
  | [] => a
  | _ :: _ =>
      let eventsToSend := eventQueue a in
      let a := set_eventQueue [] a in
      let a := sendEvents eventsToSend a in
      if synchronous then sendEventsSync eventsToSend a else a
  end.

(** [track(eventName, properties)]; [eid] and [now] are what
    [generateEventId()] and [new Date()] yield at the call. *)
Definition track (eid now : string) (eventName : string) (props : gmap string jval)
    (a : Analytics) : Analytics :=
  let event :=
    {| id := eid;
       user_id := match userId a with
                  | Some u => if bool_decide (u = "") then "anonymous_" +:+ sessionId a else u
                  | None => "anonymous_" +:+ sessionId a
                  end;
       event_name := eventName;
       properties := props ∪ deviceInfo a;
       timestamp := now;
       session_id := sessionId a;
       platform := "web";
       retries := 0 |} in
  let a := set_eventQueue (eventQueue a ++ [event]) a in
  let a := if (batchSize (config a) <=? length (eventQueue a))%nat then flush false a else a in
  if offlineEnabled (config a) then saveQueuedEvents a else a.

(** The callback of [startPeriodicFlush]. *)
Definition periodicFlush (a : Analytics) : Analytics :=
  if (0 <? length (eventQueue a))%nat then flush false a else a.

(** [handleOnline] *)
Definition handleOnline (a : Analytics) : Analytics :=
  let a := set_isOnline true a in
  if (0 <? length (eventQueue a))%nat then flush false a else a.

(** [handleOffline] *)
Definition handleOffline (a : Analytics) : Analytics :=
  set_isOnline false a.

(** The [i]-th pending [fetch] settles. *)
Definition settle (i : nat) (ok : bool) (a : Analytics) : Analytics :=
  match inflight a !! i with
  | None => a
  | Some events =>
      let a := set_inflight (delete i (inflight a)) a in
      if ok then sendEvents_delivered events a else sendEvents_failed events a
  end.

(** What can happen to an instance. *)
Inductive Action :=
| Track (eid now eventName : string) (props : gmap string jval)
| Flush (synchronous : bool)
| TimerFires
| OnlineSignal
| OfflineSignal
| Settles (i : nat) (ok : bool).

(** The window listeners are only installed when the offline mode is on. *)
Definition step (a : Analytics) (act : Action) : Analytics :=
  match act with
  | Track eid now eventName props => track eid now eventName props a
  | Flush synchronous => flush synchronous a
  | TimerFires => periodicFlush a
  | OnlineSignal => if offlineEnabled (config a) then handleOnline a else a
  | OfflineSignal => if offlineEnabled (config a) then handleOffline a else a
  | Settles i ok => settle i ok a
  end.

Definition run (acts : list Action) (a : Analytics) : Analytics :=
  fold_left step acts a.

(** An instance with nothing queued, stored or in flight. *)
Definition idle (cfg : AnalyticsConfig) (online : bool) : Analytics :=
  {| config := cfg; userId := None; sessionId := "session_0";
     eventQueue := []; isOnline := online; deviceInfo := ∅;
     hasBeacon := true; localStorage := None; network := []; inflight := [] |}.

(** The ids put on the wire so far, one entry per transmission of an event. *)
Definition sent_ids (a : Analytics) : list string :=
  n ← network a; id <$> carried n.

(** The ids the instance still holds: queued, or in a pending [fetch]. *)
Definition held_ids (a : Analytics) : list string :=
  (id <$> eventQueue a) ++ (batch ← inflight a; id <$> batch).

Definition tracks (eid : string) (act : Action) : Prop :=
  match act with
  | Track eid' _ _ _ => eid' = eid
  | _ => False
  end.

(** Events and instances for the concrete runs. *)
Definition queued (eid : string) (r : nat) : QueuedEvent :=
  {| id := eid; user_id := "anonymous_session_0"; event_name := "page_view";
     properties := ∅; timestamp := "2024-06-01T12:00:00.000Z";
     session_id := "session_0"; platform := "web"; retries := r |}.

Definition pending (batch queue : list QueuedEvent) : Analytics :=
  set_eventQueue queue (set_inflight [batch] (idle (default_config "key") true)).

End SDK.

(* ===================================================================== *)
(** * Funnel analysis: [backend/src/routes/analytics.ts], [GET /funnel]    *)
(* ===================================================================== *)

Module Funnel.
Import JS.

(** JavaScript numbers, through the operations the handler uses.  The laws
    are the cases in which IEEE-754 double arithmetic is exact: integers up
    to [2^53] are represented exactly, and a product or quotient whose exact
    value is such an integer is that integer. *)
Class JSNumber (num : Type) := {
  of_Z : Z -> num;
  fmul : num -> num -> num;
  fdiv : num -> num -> num;
  fround : num -> num;                 (* [Math.round] *)
  positive : num -> bool;              (* [x > 0] *)
  positive_of_Z : forall z, positive (of_Z z) = (0 <? z);
  fmul_exact : forall a b,
    Z.abs (a * b) <= 2 ^ 53 -> fmul (of_Z a) (of_Z b) = of_Z (a * b);
  fdiv_exact : forall a b,
    b <> 0 -> Z.abs (a * b) <= 2 ^ 53 -> fdiv (of_Z (a * b)) (of_Z b) = of_Z a;
  fround_exact : forall a, Z.abs a <= 2 ^ 53 -> fround (of_Z a) = of_Z a
}.

(** One entry of the [funnel] array of the response. *)
Record FunnelStep (num : Type) := {
  step : nat;
  event_name : string;
  users : num;
  conversion_rate : num
}.
Arguments step {num}.
Arguments event_name {num}.
Arguments users {num}.
Arguments conversion_rate {num}.

Inductive FunnelResponse (num : Type) :=
| BadRequest (msg : string)
| FunnelData (funnel : list (FunnelStep num)) (events_analyzed : list string)
| ServerError (msg : string).
Arguments BadRequest {num}.
Arguments FunnelData {num}.
Arguments ServerError {num}.

Section Handler.
Context {num : Type} `{JSNumber num}.

(** [Math.round(x * 100) / 100] *)
Definition round2 (x : num) : num :=
  fdiv (fround (fmul x (of_Z 100))) (of_Z 100).

(** The key [step_<n>_users] of the result row. *)
Definition users_key (n : nat) : string := "step_" +:+ dec n +:+ "_users".

(** The callback of [events.map] that formats one step.  [rawData] is the
    object the handler holds under that name; an absent key reads as
    [undefined]. *)
Definition funnel_step (rawData : gmap string Z) (index : nat) (event : string)
  : FunnelStep num :=
  let stepUsers : Z := default 0 (rawData !! users_key (index + 1)) in
  let previousStepUsers : option Z :=
    if (0 <? index)%nat then rawData !! users_key index else Some stepUsers in
  let conversionRate : num :=
    match previousStepUsers with
    | Some p =>
        if positive (of_Z p) then fmul (fdiv (of_Z stepUsers) (of_Z p)) (of_Z 100)
        else of_Z 0
    | None => of_Z 0
    end in
  {| step := index + 1;
     event_name := event;
     users := of_Z stepUsers;
     conversion_rate := round2 conversionRate |}.

(** The handler.  [events_param] is [req.query.events]; [rawData] is the
    object bound by [const rawData = ...] once the store has answered, and
    [None] stands for a store call that throws. *)
Definition get_funnel (events_param : option string) (rawData : option (gmap string Z))
  : FunnelResponse num :=
  let events := match events_param with
                | Some s => split_on "," s
                | None => []
                end in
  if (length events <? 2)%nat
  then BadRequest "At least 2 events required for funnel analysis"
  else match rawData with
       | None => ServerError "Failed to perform funnel analysis"
       | Some rawData => FunnelData (imap (funnel_step rawData) events) events
       end.

End Handler.

(** Exact rational arithmetic, as an instance of the interface:
    [Math.round] is the floor of [x + 1/2]. *)
Definition Qc_round (x : Qc) : Qc := Qc_of_Z (Qfloor (x + Q2Qc (1 # 2))%Qc).

Definition Qc_positive (x : Qc) : bool := bool_decide (0 < x)%Qc.

(** The [conversion_rate] column of a response, as plain fractions. *)
Definition rates (r : FunnelResponse Qc) : option (list Q) :=
  match r with
  | FunnelData funnel _ => Some ((fun s => this (conversion_rate s)) <$> funnel)
  | _ => None
  end.

End Funnel.

(* ===================================================================== *)
(** * More of JavaScript's strings and numbers                             *)
(* ===================================================================== *)

Module JSMore.
Import JS.

(** The line feed, as a one-character string. *)
Definition nl : string := String (ascii_of_N 10) "".

(** White space as [trim] and [parseInt] see it, among the characters
    modelled (the code units U+0000 to U+00FF): tab, line feed, vertical
    tab, form feed, carriage return, space and the no-break space U+00A0.
    The other white space of the language lies above U+00FF. *)
Definition is_space (c : ascii) : bool :=
  let n := N_of_ascii c in
  (((9 <=? n) && (n <=? 13)) || (n =? 32) || (n =? 160))%N.

(** [s.trimStart()] *)
Fixpoint trimStart (s : string) : string :=
  match s with
  | EmptyString => EmptyString
  | String c s' => if is_space c then trimStart s' else s
  end.

(** [s.trimEnd()] *)
Fixpoint trimEnd (s : string) : string :=
  match s with
  | EmptyString => EmptyString
  | String c s' =>
      match trimEnd s' with
      | EmptyString => if is_space c then EmptyString else String c EmptyString
      | t => String c t
      end
  end.

(** [s.trim()] *)
Definition trim (s : string) : string := trimEnd (trimStart s).

(** Removal of one semicolon at the very end of the text, as [replace]
    with the pattern "semicolon, end of input" does. *)
Fixpoint strip_semicolon (s : string) : string :=
  match s with
  | EmptyString => EmptyString
  | String c EmptyString => if Ascii.eqb c ";" then EmptyString else s
  | String c s' => String c (strip_semicolon s')
  end.

(** The first [n] characters of [s], and [s] without them. *)
Fixpoint first_chars (n : nat) (s : string) : string :=
  match n, s with
  | S n', String c s' => String c (first_chars n' s')
  | _, _ => EmptyString
  end.

Fixpoint skip_chars (n : nat) (s : string) : string :=
  match n, s with
  | S n', String _ s' => skip_chars n' s'
  | _, _ => s
  end.

(** The leftmost place where [s], seen through the character map [f],
    reads [t]: what precedes it, the stretch itself, and what follows. *)
Fixpoint find_with (f : ascii -> ascii) (t s : string) : option (string * string * string) :=
  if startsWith (map_chars f s) t
  then Some (EmptyString, first_chars (String.length t) s, skip_chars (String.length t) s)
  else match s with
       | EmptyString => None
       | String c s' =>
           match find_with f t s' with
           | Some (pre, mid, post) => Some (String c pre, mid, post)
           | None => None
           end
       end.

(** Leftmost occurrence, exact and up to letter case ([t] in lower case). *)
Definition find (t s : string) : option (string * string * string) :=
  find_with (fun c => c) t s.

Definition find_ci (t s : string) : option (string * string * string) :=
  find_with lower_ascii t s.

End JSMore.

(* ===================================================================== *)
(** * Query service: [extractSQL]                                           *)
(* ===================================================================== *)

Module Extract.
Import JS JSMore.

(** The three fragments the patterns are made of. *)
Definition fence_sql : string := "```sql" +:+ nl.
Definition fence_plain : string := "```" +:+ nl.
Definition fence_close : string := nl +:+ "```".

(** A pattern "opener, as little text as possible, line feed and closing
    fence", with the [i] flag: the text captured by its group at the
    leftmost match.  The leftmost opener either has a closing fence after
    it, and the lazy group stops at the first one, or no opener has. *)
Definition fenced (opener : string) (response : string) : option string :=
  match find_ci opener response with
  | Some (_, _, rest) =>
      match find fence_close rest with
      | Some (body, _, _) => Some body
      | None => None
      end
  | None => None
  end.

(** The third pattern: the word [select] in any letter case, then as little
    text as possible, then an optional semicolon.  The lazy part stays
    empty, so the group is the word, with the semicolon only when it
    follows at once. *)
Definition bare_select (response : string) : option string :=
  match find_ci "select" response with
  | Some (_, word, rest) =>
      match rest with
      | String c _ => if Ascii.eqb c ";" then Some (word +:+ ";") else Some word
      | EmptyString => Some word
      end
  | None => None
  end.

(** [match[1].trim().replace(...)] *)
Definition clean (s : string) : string := strip_semicolon (trim s).

(** [extractSQL] *)
Definition extractSQL (response : string) : string :=
  match fenced fence_sql response with
  | Some body => clean body
  | None =>
      match fenced fence_plain response with
      | Some body => clean body
      | None =>
          match bare_select response with
          | Some group => clean group
          | None => clean response
          end
      end
  end.

End Extract.

(* ===================================================================== *)
(** * Query route: [backend/src/routes/ai.ts], [POST /query]               *)
(* ===================================================================== *)

Module AIRoute.
Import JS AIQuery.

(** A Joi message: the quoted label of the offending value and the
    complaint. *)
Definition complain (label complaint : string) : string :=
  Ingest.message {| Ingest.label := label; Ingest.complaint := complaint |}.

(** The [context] of a request body, as far as [aiQuerySchema] looks at
    it; an absent field is [None]. *)
Record ContextBody := {
  ctx_date_range : option string;
  ctx_limit : option Z
}.

(** The request body; [body_context] is [None] when the body has no
    [context] at all. *)
Record QueryBody := {
  body_question : option string;
  body_context : option ContextBody
}.

Record QueryRequest := {
  req_body : QueryBody;
  req_project_id : option string;   (* [req.query.project_id] *)
  req_user : option string          (* [req.user?.id] *)
}.

(** The value [aiQuerySchema.validate] yields.  The defaults of
    [date_range] and [limit] are filled in inside a [context] that is
    there; for a body without one, [default({})] puts the empty object in
    its place as it is, and both fields stay [undefined]. *)
Record QueryValue := {
  question : string;
  context_date_range : option string;
  context_limit : option Z
}.

(** [aiQuerySchema.validate(req.body)]: the message of the first
    complaint, or the value. *)
Definition aiQuerySchema_validate (b : QueryBody) : string + QueryValue :=
  match body_question b with
  | None => inl (complain "question" "is required")
  | Some q =>
      if bool_decide (q = "") then inl (complain "question" "is not allowed to be empty")
      else if (String.length q <? 5)%nat
      then inl (complain "question" "length must be at least 5 characters long")
      else if (500 <? String.length q)%nat
      then inl (complain "question"
                  "length must be less than or equal to 500 characters long")
      else
        match body_context b with
        | None => inr {| question := q; context_date_range := None; context_limit := None |}
        | Some c =>
            let range := default "30d" (ctx_date_range c) in
            if negb (bool_decide (range ∈ ["1d"; "7d"; "30d"; "90d"]))
            then inl (complain "context.date_range" "must be one of [1d, 7d, 30d, 90d]")
            else
              let lim := default 100 (ctx_limit c) in
              if lim <? 1
              then inl (complain "context.limit" "must be greater than or equal to 1")
              else if 10000 <? lim
              then inl (complain "context.limit" "must be less than or equal to 10000")
              else inr {| question := q; context_date_range := Some range;
                          context_limit := Some lim |}
        end
  end.

(** The argument of [logAIQuery]. *)
Record LogEntry := {
  log_user_id : option string;
  log_project_id : string;
  natural_language_query : string;
  generated_sql : string;
  execution_time_ms : Z;
  result_count : nat;
  error_message : option string
}.

(** The answers of the route. *)
Inductive Reply (row : Type) :=
| Invalid (msg : string)                               (* 400, schema *)
| ProjectRequired                                      (* 400 *)
| ExecutionFailed (details sql : string)               (* 400 *)
| Answered (q sql : string) (data : option (list row))
           (insights : option (list string)) (visualization : option string)
           (time_ms : Z)                               (* 200 *)
| ProcessingFailed.                                    (* 500 *)
Arguments Invalid {row}.
Arguments ProjectRequired {row}.
Arguments ExecutionFailed {row}.
Arguments Answered {row}.
Arguments ProcessingFailed {row}.

(** A string as a condition: absent and empty are both false. *)
Definition truthy (s : option string) : option string :=
  match s with
  | Some m => if bool_decide (m = "") then None else Some m
  | None => None
  end.

(** The context handed to the service:
    [{...context, project_id, user_id}]. *)
Definition route_context (v : QueryValue) (projectId : string) (user : option string)
  : QueryContext :=
  {| project_id := projectId; user_id := user;
     date_range := context_date_range v; limit := context_limit v |}.

(** The handler: the records handed to [logAIQuery] and the answer.
    [elapsed] is the measured execution time, [log_resolves] whether
    [logAIQuery] resolves. *)
Definition post_query {row} (c : Collaborators row) (elapsed : Z) (log_resolves : bool)
    (req : QueryRequest) : list LogEntry * Reply row :=
  match aiQuerySchema_validate (req_body req) with
  | inl msg => ([], Invalid msg)
  | inr v =>
      match truthy (req_project_id req) with
      | None => ([], ProjectRequired)
      | Some projectId =>
          let result :=
            processNaturalLanguageQuery c (question v)
              (route_context v projectId (req_user req)) in
          let entry :=
            {| log_user_id := req_user req;
               log_project_id := projectId;
               natural_language_query := question v;
               generated_sql := sql result;
               execution_time_ms := elapsed;
               result_count := match data result with
                               | Some rows => length rows
                               | None => 0%nat
                               end;
               error_message := truthy (error result) |} in
          if log_resolves then
            match truthy (error result) with
            | Some details => ([entry], ExecutionFailed details (sql result))
            | None =>
                ([entry], Answered (question v) (sql result) (data result)
                            (insights result) (visualization result) elapsed)
            end
          else ([], ProcessingFailed)
      end
  end.

End AIRoute.

(* ===================================================================== *)
(** * [parseInt]                                                            *)
(* ===================================================================== *)

Module JSNumbers.
Import JS JSMore.

(** The value of a character as a digit, in any radix up to 36. *)
Definition digit_value (c : ascii) : option Z :=
  let n := Z.of_N (N_of_ascii c) in
  if (48 <=? n) && (n <=? 57) then Some (n - 48)
  else if (97 <=? n) && (n <=? 122) then Some (n - 87)
  else if (65 <=? n) && (n <=? 90) then Some (n - 55)
  else None.

(** The longest run of digits of the radix at the start of [s], as a
    number; [acc] is what has been read so far, [None] for nothing. *)
Fixpoint read_digits (radix : Z) (acc : option Z) (s : string) : option Z :=
  match s with
  | EmptyString => acc
  | String c s' =>
      match digit_value c with
      | Some d =>
          if d <? radix then read_digits radix (Some (default 0 acc * radix + d)) s'
          else acc
      | None => acc
      end
  end.

(** [parseInt(s)] without a radix argument; [None] is [NaN].  Leading
    white space is skipped, a sign is read, a [0x] or [0X] prefix selects
    radix 16, and what follows the digits is ignored.  The result is exact
    (the rounding of integers beyond 2^53 is not modelled). *)
Definition parseInt (s : string) : option Z :=
  let s := trimStart s in
  let '(sign, s) :=
    match s with
    | String "-" s' => (-1, s')
    | String "+" s' => (1, s')
    | _ => (1, s)
    end in
  let '(radix, s) :=
    match s with
    | String "0" (String "x" s') => (16, s')
    | String "0" (String "X" s') => (16, s')
    | _ => (10, s)
    end in
  match read_digits radix None s with
  | Some n => Some (sign * n)
  | None => None
  end.

(** [parseInt(req.query.x as string)] where the parameter may be absent:
    [undefined] reads as the text [undefined], which has no digits. *)
Definition parseInt_param (p : option string) : option Z :=
  match p with
  | Some s => parseInt s
  | None => None
  end.

(** [x || d] on a number: [NaN] and 0 give way to [d]. *)
Definition or_number (x : option Z) (d : Z) : Z :=
  match x with
  | Some 0 => d
  | Some n => n
  | None => d
  end.

End JSNumbers.

(* ===================================================================== *)
(** * Recent-events cache: the Redis list and [GET /recent]                *)
(* ===================================================================== *)

Module RecentEvents.
Import JS Json Ingest JSNumbers.

(** [LRANGE] on the elements of a list, with Redis's treatment of negative
    and out-of-range indices. *)
Definition lrange {A} (l : list A) (start stop : Z) : list A :=
  let llen := Z.of_nat (length l) in
  let start := if start <? 0 then llen + start else start in
  let stop := if stop <? 0 then llen + stop else stop in
  let start := if start <? 0 then 0 else start in
  if (stop <? start) || (llen <=? start) then []
  else
    let stop := if llen <=? stop then llen - 1 else stop in
    take (Z.to_nat (stop - start + 1)) (drop (Z.to_nat start) l).

(** The list stored under a key; a key that is not there is the empty
    list. *)
Definition cached (st : gmap string (list (gmap string jval))) (key : string)
  : list (gmap string jval) :=
  default [] (st !! key).

(** What a completed command does to the contents of the lists.  [EXPIRE]
    leaves them as they are; the times to live it sets are kept by
    [cache_apply] below. *)
Definition redis_apply (st : gmap string (list (gmap string jval))) (cmd : redis_cmd)
  : gmap string (list (gmap string jval)) :=
  match cmd with
  | LPush key value => <[key := value :: cached st key]> st
  | LTrim key start stop => <[key := lrange (cached st key) start stop]> st
  | Expire _ _ => st
  end.

Definition apply_effect (st : gmap string (list (gmap string jval))) (e : effect)
  : gmap string (list (gmap string jval)) :=
  match e with
  | Redis cmd => redis_apply st cmd
  | RedisExec cmds => fold_left redis_apply cmds st
  | Insert _ _ | Publish _ => st
  end.

Definition apply_effects (t : list effect) (st : gmap string (list (gmap string jval)))
  : gmap string (list (gmap string jval)) :=
  fold_left apply_effect t st.

(** The events a trace has written to the store, in order. *)
Definition inserted (t : list effect) : list (gmap string jval) :=
  e ← t; match e with Insert _ values => values | _ => [] end.

(** The messages a trace has handed to the hub, in order. *)
Definition published (t : list effect) : list Realtime.Emission :=
  e ← t; match e with Publish em => [em] | _ => [] end.

(** One call of the ingestion routes. *)
Inductive Call :=
| Single (req : Request (gmap string jval))
| Batch (req : Request (list (gmap string jval))).

Definition call_project (c : Call) : string :=
  match c with
  | Single req => project req
  | Batch req => project req
  end.

Definition call_result (env : Env) (c : Call) : list effect * Response :=
  match c with
  | Single req => post_event env req
  | Batch req => post_batch env req
  end.

(** The events a sequence of calls has stored, in order. *)
Definition stored_by (env : Env) (calls : list Call) : list (gmap string jval) :=
  c ← calls; inserted (call_result env c).1.

(** The answers of [GET /recent]. *)
Inductive RecentReply :=
| Recent (events : list (gmap string jval)) (source : string) (count : nat)
| RecentFailed.

(** [Math.min(parseInt(req.query.limit) || 10, 100)] *)
Definition recent_limit (param : option string) : Z :=
  Z.min (or_number (parseInt_param param) 10) 100.

(** [router.get('/recent')]: the cache first, the store when the cache has
    nothing.  [db project limit] is the answer of the store, [None] when
    the query throws; [cache_up] says whether [lrange] resolves. *)
Definition get_recent (db : string -> Z -> option (list (gmap string jval)))
    (cache_up : bool) (st : gmap string (list (gmap string jval)))
    (projectId : string) (limit_param : option string) : RecentReply :=
  let limit := recent_limit limit_param in
  if cache_up then
    let cachedEvents := lrange (cached st (recent_key projectId)) 0 (limit - 1) in
    if (0 <? length cachedEvents)%nat
    then Recent cachedEvents "cache" (length cachedEvents)
    else match db projectId limit with
         | Some events => Recent events "database" (length events)
         | None => RecentFailed
         end
  else RecentFailed.

(** ** The lists with their times to live *)

(** Redis holds, beside the lists, the time at which a key that was given
    a time to live is gone.  Times are in milliseconds. *)
Record Cache := {
  lists : gmap string (list (gmap string jval));
  deadlines : gmap string Z
}.

Definition no_cache : Cache := {| lists := ∅; deadlines := ∅ |}.

(** A key is gone at [now] when it has a deadline and the time is past
    it; at the millisecond of the deadline itself Redis still serves the
    key. *)
Definition gone (now : Z) (c : Cache) (key : string) : bool :=
  match deadlines c !! key with
  | Some d => d <? now
  | None => false
  end.

(** What is left of the cache at [now]. *)
Definition expire_at (now : Z) (c : Cache) : Cache :=
  {| lists := filter (fun kv => gone now c kv.1 = false) (lists c);
     deadlines := filter (fun kv => now <= kv.2) (deadlines c) |}.

(** A command completed at [now].  A list that [LTRIM] leaves empty is
    removed with its deadline; [EXPIRE] sets the deadline of a key that is
    there, and removes the key when the time to live is not positive. *)
Definition cache_apply (now : Z) (c : Cache) (cmd : redis_cmd) : Cache :=
  let c := expire_at now c in
  match cmd with
  | LPush _ _ => {| lists := redis_apply (lists c) cmd; deadlines := deadlines c |}
  | LTrim key _ _ =>
      let trimmed := redis_apply (lists c) cmd in
      if bool_decide (cached trimmed key = [])
      then {| lists := delete key trimmed; deadlines := delete key (deadlines c) |}
      else {| lists := trimmed; deadlines := deadlines c |}
  | Expire key seconds =>
      if bool_decide (cached (lists c) key = []) then c
      else if seconds <=? 0
      then {| lists := delete key (lists c); deadlines := delete key (deadlines c) |}
      else {| lists := lists c; deadlines := <[key := now + 1000 * seconds]> (deadlines c) |}
  end.

(** The Redis commands of a trace, in order. *)
Definition redis_commands (t : list effect) : list redis_cmd :=
  e ← t; match e with
         | Redis cmd => [cmd]
         | RedisExec cmds => cmds
         | Insert _ _ | Publish _ => []
         end.

(** A call of the ingestion routes served at the time [tc.1]; its
    commands complete within the same millisecond. *)
Definition cache_call (env : Env) (c : Cache) (tc : Z * Call) : Cache :=
  fold_left (cache_apply tc.1) (redis_commands (call_result env tc.2).1) c.

Definition cache_run (env : Env) (calls : list (Z * Call)) (c : Cache) : Cache :=
  fold_left (cache_call env) calls c.

(** [GET /recent] served at [now]. *)
Definition get_recent_at (now : Z) (db : string -> Z -> option (list (gmap string jval)))
    (cache_up : bool) (c : Cache) (projectId : string) (limit_param : option string)
  : RecentReply :=
  get_recent db cache_up (lists (expire_at now c)) projectId limit_param.

(** The time to live the handlers give the list of a project: [EXPIRE]
    with 3600 seconds. *)
Definition recent_ttl : Z := 3600000.

(** Calls in the order of their times, each served while the list the
    call before it has refreshed is still there. *)
Fixpoint refreshed_in_time (calls : list (Z * Call)) : Prop :=
  match calls with
  | tc :: (tc' :: _) as rest =>
      tc.1 <= tc'.1 <= tc.1 + recent_ttl /\ refreshed_in_time rest
  | _ => True
  end.

(** An effect that touches nothing but the project [p]: its events carry
    the project, the address and the agent of the request, its cache key
    and its room are the project's. *)
Definition stamped (p addr agent : string) (event : gmap string jval) : Prop :=
  event !! "project_id" = Some (JStr p) /\
  event !! "ip" = Some (JStr addr) /\
  event !! "user_agent" = Some (JStr agent).

Definition cmd_scoped (p addr agent : string) (cmd : redis_cmd) : Prop :=
  match cmd with
  | LPush key value => key = recent_key p /\ stamped p addr agent value
  | LTrim key _ _ => key = recent_key p
  | Expire key _ => key = recent_key p
  end.

Definition scoped (p addr agent : string) (e : effect) : Prop :=
  match e with
  | Insert table values => table = "events" /\ Forall (stamped p addr agent) values
  | Redis cmd => cmd_scoped p addr agent cmd
  | RedisExec cmds => Forall (cmd_scoped p addr agent) cmds
  | Publish em =>
      Realtime.room em = "project_" +:+ p /\
      Realtime.payload em !! "project_id" = Some (JStr p)
  end.

End RecentEvents.

(* ===================================================================== *)
(** * Client event buffer: construction, identity and reset                *)
(* ===================================================================== *)

Module SDKLife.
Import JS Json SDK.

(** What the constructor reads from the browser. *)
Record Browser := {
  userAgent : string;
  screen_width : nat;
  screen_height : nat;
  language : string;
  timeZone : string;
  href : string;
  pathname : string;
  referrer : string;
  title : string;
  onLine : bool;
  sendBeacon : bool;
  stored_queue : option (list QueuedEvent)   (* the item [analytics_queue] *)
}.

Definition set_userId (u : option string) (a : Analytics) : Analytics :=
  {| config := config a; userId := u; sessionId := sessionId a;
     eventQueue := eventQueue a; isOnline := isOnline a; deviceInfo := deviceInfo a;
     hasBeacon := hasBeacon a; localStorage := localStorage a;
     network := network a; inflight := inflight a |}.

Definition set_sessionId (s : string) (a : Analytics) : Analytics :=
  {| config := config a; userId := userId a; sessionId := s;
     eventQueue := eventQueue a; isOnline := isOnline a; deviceInfo := deviceInfo a;
     hasBeacon := hasBeacon a; localStorage := localStorage a;
     network := network a; inflight := inflight a |}.

Definition set_deviceInfo (d : gmap string jval) (a : Analytics) : Analytics :=
  {| config := config a; userId := userId a; sessionId := sessionId a;
     eventQueue := eventQueue a; isOnline := isOnline a; deviceInfo := d;
     hasBeacon := hasBeacon a; localStorage := localStorage a;
     network := network a; inflight := inflight a |}.

(** [collectDeviceInfo] *)
Definition collectDeviceInfo (b : Browser) (a : Analytics) : Analytics :=
  set_deviceInfo
    {[ "user_agent" := JStr (userAgent b);
       "screen_resolution" := JStr (dec (screen_width b) +:+ "x" +:+ dec (screen_height b));
       "language" := JStr (language b);
       "platform" := JStr "web";
       "timezone" := JStr (timeZone b);
       "url" := JStr (href b);
       "referrer" := JStr (referrer b) ]} a.

(** [page(pageName, properties)] *)
Definition page (b : Browser) (eid now : string) (pageName : option string)
    (props : gmap string jval) (a : Analytics) : Analytics :=
  let name := match pageName with
              | Some n => if bool_decide (n = "") then pathname b else n
              | None => pathname b
              end in
  track eid now "page_view"
    (props ∪ {[ "page" := JStr name; "title" := JStr (title b); "url" := JStr (href b) ]}) a.

(** [loadQueuedEvents]: a snapshot, when there is one, becomes the queue. *)
Definition loadQueuedEvents (a : Analytics) : Analytics :=
  match localStorage a with
  | Some saved => set_eventQueue saved a
  | None => a
  end.

(** [new Analytics(config)]: the field initialisers, the constructor body
    and [initialize], in the order of the source: device information, the
    first page view, the stored queue.  [user] is [config.userId]; [sid],
    [eid] and [now] are the session id, the event id and the time
    generated on the way. *)
Definition construct (cfg : AnalyticsConfig) (user : option string) (b : Browser)
    (sid eid now : string) : Analytics :=
  let a := {| config := cfg;
              userId := match user with
                        | Some u => if bool_decide (u = "") then None else Some u
                        | None => None
                        end;
              sessionId := sid;
              eventQueue := [];
              isOnline := onLine b;
              deviceInfo := ∅;
              hasBeacon := sendBeacon b;
              localStorage := stored_queue b;
              network := [];
              inflight := [] |} in
  let a := collectDeviceInfo b a in
  let a := page b eid now None ∅ a in
  loadQueuedEvents a.

(** [identify(userId, properties)]: the id is assigned first, the event
    reads it afterwards. *)
Definition identify (eid now : string) (uid : string) (props : gmap string jval)
    (a : Analytics) : Analytics :=
  let a := set_userId (Some uid) a in
  let previous := default "" (userId a) in
  track eid now "user_identify" (<["previous_user_id" := JStr previous]> props) a.

(** [reset()]; [sid] is the new session id. *)
Definition reset (sid : string) (a : Analytics) : Analytics :=
  let a := set_userId None a in
  let a := set_sessionId sid a in
  let a := set_eventQueue [] a in
  if offlineEnabled (config a) then set_localStorage None a else a.

(** The ids a snapshot lists. *)
Definition snapshot_ids (a : Analytics) : list string :=
  id <$> default [] (localStorage a).

(** The ids put on the wire by [fetch], one entry per transmission. *)
Definition fetched_ids (a : Analytics) : list string :=
  n ← network a; match n with Fetch events => id <$> events | _ => [] end.

(** How often [x] occurs in a list of ids. *)
Definition occurrences (x : string) (l : list string) : nat :=
  length (filter (fun y => y = x) l).

(** The ids of the [track] actions of a run, in order. *)
Definition tracked_ids (acts : list Action) : list string :=
  act ← acts; match act with Track eid _ _ _ => [eid] | _ => [] end.

(** A browser for the concrete runs. *)
Definition sample_browser (saved : option (list QueuedEvent)) : Browser :=
  {| userAgent := "agent"; screen_width := 800; screen_height := 600;
     language := "en"; timeZone := "UTC"; href := "https://site/pricing";
     pathname := "/pricing"; referrer := ""; title := "Pricing";
     onLine := true; sendBeacon := true; stored_queue := saved |}.

End SDKLife.

(* ===================================================================== *)
(** * Client event buffer: how often an event is posted                    *)
(* ===================================================================== *)

Module Retries.
Import Json SDK SDKLife.

(** The ids of a queue and of the pending requests, as [held_ids] lists
    them. *)
Definition ids_held (queue : list QueuedEvent) (pending : list (list QueuedEvent))
    : list string :=
  (id <$> queue) ++ (batch ← pending; id <$> batch).

(** What [sendEvents] and its [catch] maintain between them, for retry
    ceiling [R], a queue, the pending requests and the ids [posted] by
    [fetch] so far: the ids held are distinct; a queued event has been
    posted no more often than its [retries] count, an event of a pending
    [fetch] at most once more; no id has been posted more than [R + 1]
    times; every id seen is listed in [used]. *)
Definition bounded (R : nat) (used : list string) (queue : list QueuedEvent)
    (pending : list (list QueuedEvent)) (posted : list string) : Prop :=
  NoDup (ids_held queue pending) /\
  (forall e, e ∈ queue -> (occurrences (id e) posted <= retries e <= R)%nat) /\
  (forall b e, b ∈ pending -> e ∈ b ->
               (occurrences (id e) posted <= S (retries e) /\ retries e <= R)%nat) /\
  (forall x, (occurrences x posted <= S R)%nat) /\
  (forall x, x ∈ ids_held queue pending \/ (0 < occurrences x posted)%nat -> x ∈ used).

Definition retry_invariant (used : list string) (a : Analytics) : Prop :=
  bounded (retryAttempts (config a)) used (eventQueue a) (inflight a) (fetched_ids a).

End Retries.

(* ===================================================================== *)
(** * Automatic tracking: [class AutoTracker] of [sdk/web/src/index.ts]    *)
(* ===================================================================== *)

Module AutoTracker.

(** What [Math.round((scrollTop / docHeight) * 100)] can be: an integer,
    an infinity (something over a height of 0) or [NaN] (0 over 0). *)
Inductive Percent :=
| Finite (z : Z)
| PosInfinity
| NegInfinity
| NaN.

(** [x > y] *)
Definition exceeds (x y : Percent) : bool :=
  match x, y with
  | Finite a, Finite b => b <? a
  | Finite _, NegInfinity => true
  | PosInfinity, Finite _ => true
  | PosInfinity, NegInfinity => true
  | _, _ => false
  end.

(** [x >= point] for a tracking point. *)
Definition reaches (x : Percent) (point : Z) : bool :=
  match x with
  | Finite a => point <=? a
  | PosInfinity => true
  | NegInfinity | NaN => false
  end.

(** The closure of [trackScrollDepth]: [maxScrollDepth] and
    [trackedPoints], a [Set] read in insertion order. *)
Record ScrollState := {
  maxScrollDepth : Percent;
  trackedPoints : list Z
}.

(** The arguments of one [analytics.track('scroll_depth', ...)]. *)
Record Milestone := {
  depth_percent : Z;
  max_scroll : Percent
}.

Definition trackingPoints : list Z := [25; 50; 75; 100].

(** The body of the [forEach] for one tracking point. *)
Definition mark (depth : Percent) (acc : list Z * list Milestone) (point : Z)
    : list Z * list Milestone :=
  if reaches depth point && negb (bool_decide (point ∈ acc.1))
  then (acc.1 ++ [point], acc.2 ++ [{| depth_percent := point; max_scroll := depth |}])
  else acc.

(** [trackScroll], given the [scrollPercent] it computes: the state it
    leaves and the [track] calls it makes. *)
Definition trackScroll (scrollPercent : Percent) (st : ScrollState)
    : ScrollState * list Milestone :=
  if exceeds scrollPercent (maxScrollDepth st) then
    let '(tracked, calls) :=
      fold_left (mark scrollPercent) trackingPoints (trackedPoints st, []) in
    ({| maxScrollDepth := scrollPercent; trackedPoints := tracked |}, calls)
  else (st, []).

Definition scroll_start : ScrollState :=
  {| maxScrollDepth := Finite 0; trackedPoints := [] |}.

(** [trackScroll] at each of a series of readings, oldest first. *)
Definition scroll_run (readings : list Percent) (acc : ScrollState * list Milestone)
    : ScrollState * list Milestone :=
  fold_left (fun acc reading =>
               let '(st, calls) := trackScroll reading acc.1 in (st, acc.2 ++ calls))
            readings acc.

(** The closure of [trackTimeOnPage]; times are [Date.now()], in
    milliseconds. *)
Record PageTimer := {
  isActive : bool;
  totalActiveTime : Z;
  lastActiveTime : Z
}.

Definition timer_start (startTime : Z) : PageTimer :=
  {| isActive := true; totalActiveTime := 0; lastActiveTime := startTime |}.

(** [trackVisibility], with [document.hidden] and the time at the call. *)
Definition trackVisibility (hidden : bool) (now : Z) (t : PageTimer) : PageTimer :=
  if hidden then
    if isActive t
    then {| isActive := false;
            totalActiveTime := totalActiveTime t + (now - lastActiveTime t);
            lastActiveTime := lastActiveTime t |}
    else t
  else
    if negb (isActive t)
    then {| isActive := true; totalActiveTime := totalActiveTime t; lastActiveTime := now |}
    else t.

(** [Math.round(ms / 1000)]: the nearest integer, a half going up. *)
Definition round_seconds (ms : Z) : Z := (ms + 500) / 1000.

(** The arguments of [analytics.track('time_on_page', ...)]. *)
Record TimeOnPage := {
  time_seconds : Z;
  active_time_seconds : Z
}.

(** The [beforeunload] listener: it adds the running stretch to
    [totalActiveTime], which keeps the sum, and makes the call when the
    total rounds to more than 5 seconds.  The state it leaves and the
    call, if any. *)
Definition on_unload (now : Z) (t : PageTimer) : PageTimer * option TimeOnPage :=
  let t :=
    if isActive t
    then {| isActive := true;
            totalActiveTime := totalActiveTime t + (now - lastActiveTime t);
            lastActiveTime := lastActiveTime t |}
    else t in
  let totalTime := round_seconds (totalActiveTime t) in
  (t, if 5 <? totalTime
      then Some {| time_seconds := totalTime;
                   active_time_seconds := round_seconds (totalActiveTime t) |}
      else None).

(** The [visibilitychange] events of a visit, oldest first, each with
    [document.hidden] and the time. *)
Definition timer_run (changes : list (bool * Z)) (t : PageTimer) : PageTimer :=
  fold_left (fun t change => trackVisibility change.1 change.2 t) changes t.

(** A clock that does not run backwards: each time of the list is at or
    after the one before it, the first at or after [from]. *)
Fixpoint chronological (from : Z) (times : list Z) : Prop :=
  match times with
  | [] => True
  | t :: rest => from <= t /\ chronological t rest
  end.

End AutoTracker.

(* ===================================================================== *)
(** * Fan-out hub: the socket listeners and the other broadcasts           *)
(* ===================================================================== *)

Module Hub.
Import JS Json Realtime.

(** What a connected socket can ask for; the filters of
    [subscribe_events] are given as [JSON.stringify] writes them. *)
Inductive Message :=
| JoinProject (projectId : string)
| JoinDashboard (dashboardId : string)
| SubscribeEvents (filters : string).

(** The room each listener joins. *)
Definition room_of (m : Message) : string :=
  match m with
  | JoinProject projectId => "project_" +:+ projectId
  | JoinDashboard dashboardId => "dashboard_" +:+ dashboardId
  | SubscribeEvents filters => "events_" +:+ filters
  end.

(** The listeners of [setupEventHandlers], on a message of socket [sock]. *)
Definition on_message (rooms : gmap string (gset string)) (m : string * Message)
  : gmap string (gset string) :=
  match m.2 with
  | JoinProject projectId => join_project m.1 projectId rooms
  | JoinDashboard dashboardId => socket_join m.1 ("dashboard_" +:+ dashboardId) rooms
  | SubscribeEvents filters => socket_join m.1 ("events_" +:+ filters) rooms
  end.

Definition hub_run (msgs : list (string * Message)) (rooms : gmap string (gset string))
  : gmap string (gset string) :=
  fold_left on_message msgs rooms.

(** [broadcastMetricUpdate(projectId, metric, value)] *)
Definition broadcastMetricUpdate (now : string) (projectId metric : string) (value : jval)
  : Emission :=
  {| room := "project_" +:+ projectId;
     channel := "metric_update";
     payload := {[ "metric" := JStr metric; "value" := value; "timestamp" := JStr now ]} |}.

(** [broadcastDashboardUpdate(dashboardId, data)] *)
Definition broadcastDashboardUpdate (now : string) (dashboardId : string)
    (data : gmap string jval) : Emission :=
  {| room := "dashboard_" +:+ dashboardId;
     channel := "dashboard_update";
     payload := <["timestamp" := JStr now]> data |}.

(** [getClientsByProject(projectId)] *)
Definition getClientsByProject (rooms : gmap string (gset string)) (projectId : string)
  : nat :=
  size (members rooms ("project_" +:+ projectId)).

(** The broadcasts the service offers. *)
Inductive Broadcast :=
| NewEvent (projectId : string) (event : gmap string jval)
| MetricUpdate (projectId metric : string) (value : jval)
| DashboardUpdate (dashboardId : string) (data : gmap string jval).

Definition emission (now : string) (b : Broadcast) : Emission :=
  match b with
  | NewEvent projectId event => broadcastEvent now projectId event
  | MetricUpdate projectId metric value => broadcastMetricUpdate now projectId metric value
  | DashboardUpdate dashboardId data => broadcastDashboardUpdate now dashboardId data
  end.

(** The request a socket must have made to be in the room of a
    broadcast. *)
Definition subscription (b : Broadcast) : Message :=
  match b with
  | NewEvent projectId _ | MetricUpdate projectId _ _ => JoinProject projectId
  | DashboardUpdate dashboardId _ => JoinDashboard dashboardId
  end.

End Hub.

(* ===================================================================== *)
(** * Pagination: [paginate] of [utils/helpers.ts] and [GET /pages]         *)
(* ===================================================================== *)

Module Pages.
Import JSNumbers.

(** [paginate(page = 1, limit = 20)].  An argument is [None] when it is
    [undefined], the only case in which a default parameter applies; a
    number is an integer or [NaN] ([None]), and arithmetic on [NaN] gives
    [NaN]. *)
Definition paginate (page limit : option (option Z)) : option Z * option Z :=
  let page := default (Some 1) page in
  let limit := default (Some 20) limit in
  let offset :=
    match page, limit with
    | Some p, Some l => Some ((p - 1) * l)
    | _, _ => None
    end in
  (limit, offset).

(** The call of [GET /pages]:
    [paginate(parseInt(req.query.page), parseInt(req.query.limit))]. *)
Definition pages_pagination (page_param limit_param : option string)
  : option Z * option Z :=
  paginate (Some (parseInt_param page_param)) (Some (parseInt_param limit_param)).

(** [data.length === limit] *)
Definition has_more (n : nat) (limit : option Z) : bool :=
  match limit with
  | Some l => Z.of_nat n =? l
  | None => false
  end.

End Pages.

(* ===================================================================== *)
(** * From the client buffer to the gateway                                *)
(* ===================================================================== *)

Module Wire.
Import JS Json Ingest SDK.

(** [({ id, retries, ...event }) => event] as [JSON.stringify] writes it:
    the queued event without its id and its retry count. *)
Definition wire_event (e : QueuedEvent) : gmap string jval :=
  {[ "user_id" := JStr (user_id e);
     "event_name" := JStr (event_name e);
     "properties" := JObj (map_to_list (properties e));
     "timestamp" := JStr (timestamp e);
     "session_id" := JStr (session_id e);
     "platform" := JStr (platform e) ]}.

(** The request [POST /batch] sees for a batch of the client, once
    [authenticateApiKey] has found the project of its key. *)
Definition batch_request (projectId addr : string) (agent : option string)
    (events : list QueuedEvent) : Request (list (gmap string jval)) :=
  {| body := wire_event <$> events; project := projectId; ip := addr;
     user_agent := agent |}.

(** The [X-API-Key] header of a transmission: [fetch] and the synchronous
    request set it, [sendBeacon] cannot. *)
Definition api_key_header (cfg : AnalyticsConfig) (t : Transmission) : option string :=
  match t with
  | Fetch _ | SyncXHR _ => Some (apiKey cfg)
  | Beacon _ => None
  end.

(** The key table as [authenticateApiKey] queries it: the project of the
    first active, unexpired row whose [key_hash] equals the text given
    ([Some None] when there is no such row, [None] when the query throws),
    and whether the update of [last_used_at] resolves. *)
Record KeyStore := {
  find_project : string -> option (option string);
  touch_resolves : string -> bool
}.

(** What a middleware does with a request: it answers, or it calls
    [next()] with the project set. *)
Inductive Verdict :=
| Denied (status : Z) (error : string)
| Granted (projectId : string).

(** [authenticateApiKey] of [middleware/auth.ts] *)
Definition authenticateApiKey (keys : KeyStore) (header : option string) : Verdict :=
  match header with
  | None => Denied 401 "API key required"
  | Some key =>
      if bool_decide (key = "") then Denied 401 "API key required"
      else match find_project keys key with
           | None => Denied 500 "Authentication failed"
           | Some None => Denied 401 "Invalid or expired API key"
           | Some (Some projectId) =>
               if touch_resolves keys key then Granted projectId
               else Denied 500 "Authentication failed"
           end
  end.

(** The answer of the gateway to a batch: one of the middlewares stops
    the request, or the handler answers it. *)
Inductive GatewayAnswer :=
| Stopped (status : Z) (error : string)
| Handled (result : list effect * Response).

(** [POST /batch] behind [router.use(authenticateApiKey)] and
    [router.use(eventRateLimit)], for a request that reaches the router of
    [routes/events.ts] (the application's own middlewares come before it);
    [over_limit] says whether the limiter of the router has no request
    left for the key in this minute. *)
Definition events_batch_route (env : Env) (keys : KeyStore) (over_limit : bool)
    (addr : string) (agent : option string) (cfg : AnalyticsConfig) (t : Transmission)
  : GatewayAnswer :=
  match authenticateApiKey keys (api_key_header cfg t) with
  | Denied status error => Stopped status error
  | Granted projectId =>
      if over_limit then Stopped 429 "Too many events, please slow down."
      else Handled (post_batch env (batch_request projectId addr agent (carried t)))
  end.

Definition answer_status (a : GatewayAnswer) : Z :=
  match a with
  | Stopped status _ => status
  | Handled result => status result.2
  end.

Definition answer_effects (a : GatewayAnswer) : list effect :=
  match a with
  | Stopped _ _ => []
  | Handled result => result.1
  end.

(** A key table for the concrete runs: the key [key] is project [p1]'s. *)
Definition sample_keys : KeyStore :=
  {| find_project := fun k => Some (if bool_decide (k = "key") then Some "p1" else None);
     touch_resolves := fun _ => true |}.

(** An event that carries a session id of the client's making:
    [generateSessionId] returns the text [session_] followed by the time
    and a random suffix. *)
Definition client_session (e : QueuedEvent) : Prop :=
  startsWith (session_id e) "session_" = true.

(** An instance all of whose events, queued, pending or sent, carry such
    a session id, as does the instance itself. *)
Definition all_client_session (a : Analytics) : Prop :=
  startsWith (sessionId a) "session_" = true /\
  Forall client_session (eventQueue a) /\
  Forall (Forall client_session) (inflight a) /\
  Forall (fun t => Forall client_session (carried t)) (network a).

(** The characters of a GUID as Joi reads one: hexadecimal digits,
    separators and the wrapping brackets. *)
Definition guid_char (c : ascii) : bool :=
  let n := Z.of_N (N_of_ascii c) in
  ((48 <=? n) && (n <=? 57)) || ((97 <=? n) && (n <=? 102)) || ((65 <=? n) && (n <=? 70))
  || bool_decide (c ∈ ["-"; ":"; "{"; "}"; "["; "]"; "("; ")"])%char.

Fixpoint all_chars (p : ascii -> bool) (s : string) : bool :=
  match s with
  | EmptyString => true
  | String c s' => p c && all_chars p s'
  end.

(** An environment for the concrete runs whose GUID test looks at the
    characters. *)
Definition guid_env : Env :=
  {| is_uuid := fun s => (String.length s =? 36)%nat && all_chars guid_char s;
     is_iso_date := fun _ => true;
     key_order := fun m => elements (dom m);
     toISOString := fun s => s;
     clock := fun _ => "2024-06-01T12:00:00.000Z";
     insert_resolves := fun _ => true;
     redis_resolves := fun _ => true;
     exec_resolves := fun _ => true |}.

End Wire.

(* ===================================================================== *)
(** * Funnel analysis: from the dashboard's request to the rows read       *)
(* ===================================================================== *)

Module FunnelRoute.
Import JS Funnel.

(** [s] has the character [c] somewhere. *)
Fixpoint has_char (c : ascii) (s : string) : bool :=
  match s with
  | EmptyString => false
  | String a s' => Ascii.eqb a c || has_char c s'
  end.

(** [getFunnelAnalysis] of the dashboard's [ApiClient]: the text it puts
    after [events=] in the URL, as it is, without encoding. *)
Definition eventsParam (events : list string) : string := join "," events.

(** The characters that neither the URL nor the parser of the query string
    touches: letters, digits, hyphen, underscore, full stop and tilde. *)
Definition plain_char (c : ascii) : bool :=
  let n := Z.of_N (N_of_ascii c) in
  ((48 <=? n) && (n <=? 57)) || ((97 <=? n) && (n <=? 122)) || ((65 <=? n) && (n <=? 90))
  || bool_decide (c ∈ ["-"; "_"; "."; "~"])%char.

(** A text of such characters and commas. *)
Definition plain_list (s : string) : bool :=
  Wire.all_chars (fun c => plain_char c || Ascii.eqb c ",") s.

(** What [result.json()] hands back: the rows themselves, or a promise of
    them (the client library's [json()] is asynchronous, and every other
    handler awaits it). *)
Inductive JsonResult :=
| Rows (rows : list (gmap string Z))
| Promise (rows : list (gmap string Z)).

(** [x[0]]: the first element of an array, [undefined] when it has none;
    a promise has no property [0]. *)
Definition first_of (x : JsonResult) : option (gmap string Z) :=
  match x with
  | Rows (row :: _) => Some row
  | Rows [] => None
  | Promise _ => None
  end.

(** [await result.json()[0] || {}].  The member access binds tighter than
    [await]; awaiting a value that is not a promise gives the value; and
    [undefined] gives way to the empty object. *)
Definition rawData_of (x : JsonResult) : gmap string Z :=
  default ∅ (first_of x).

Section Route.
Context {num : Type} `{JSNumber num}.

(** [GET /funnel] with the answer of the store: [None] when the query
    throws. *)
Definition funnel_route (events_param : option string) (store : option JsonResult)
  : FunnelResponse num :=
  get_funnel events_param (rawData_of <$> store).

End Route.

End FunnelRoute.

(* ===================================================================== *)
(** * Bearer tokens: [authenticateToken] of [middleware/auth.ts]           *)
(* ===================================================================== *)

Module Auth.
Import JS FunnelRoute.

(** [req.user] *)
Record User := {
  user_id : string;
  email : string;
  role : option string
}.

(** What the middleware does with the request. *)
Inductive Outcome :=
| Reject (status : Z) (error : string)
| Next (user : User).

(** The collaborators: [jwt.verify], giving [decoded.userId] or throwing
    ([None]); and the lookup of the active user, giving the first row, no
    row, or throwing ([None]). *)
Record Verifier := {
  verify : string -> option string;
  find_active_user : string -> option (option User)
}.

(** [authHeader && authHeader.split(' ')[1]]; [None] is a falsy result
    ([undefined] or the empty text). *)
Definition token_of (authHeader : option string) : option string :=
  match authHeader with
  | None => None
  | Some "" => None
  | Some h =>
      match split_on " " h with
      | _ :: token :: _ => if bool_decide (token = "") then None else Some token
      | _ => None
      end
  end.

(** [authenticateToken] *)
Definition authenticateToken (v : Verifier) (authHeader : option string) : Outcome :=
  match token_of authHeader with
  | None => Reject 401 "Access token required"
  | Some token =>
      match verify v token with
      | None => Reject 403 "Invalid token"
      | Some userId =>
          match find_active_user v userId with
          | None => Reject 403 "Invalid token"
          | Some None => Reject 401 "User not found or inactive"
          | Some (Some user) => Next user
          end
      end
  end.

(** A verifier for the concrete runs: the token [t1] is alice's. *)
Definition sample_verifier : Verifier :=
  {| verify := fun t => if bool_decide (t = "t1") then Some "u1" else None;
     find_active_user := fun u =>
       Some (if bool_decide (u = "u1")
             then Some {| user_id := "u1"; email := "alice@example.com"; role := None |}
             else None) |}.

End Auth.

(* ===================================================================== *)
(** * Properties                                                           *)
(* ===================================================================== *)

(** ** Strings *)

Module JSFacts.
Import JS.

Lemma includes_unfold s t :
  includes s t =
  startsWith s t || match s with EmptyString => false | String _ s' => includes s' t end.
Proof. destruct s; reflexivity. Qed.

Lemma startsWith_app t s : startsWith (t +:+ s) t = true.
Proof.
  induction t as [|c t IH]; simpl; [done|].
  by rewrite Ascii.eqb_refl.
Qed.

Lemma startsWith_inv s t : startsWith s t = true -> exists post, s = t +:+ post.
Proof.
  revert s; induction t as [|c t IH]; intros s Hs.
  - by exists s.
  - destruct s as [|a s]; simpl in Hs; [done|].
    destruct (Ascii.eqb a c) eqn:E; [|done].
    apply Ascii.eqb_eq in E as ->.
    destruct (IH _ Hs) as [post ->]. by exists post.
Qed.

Lemma includes_app pre t post : includes (pre +:+ t +:+ post) t = true.
Proof.
  induction pre as [|c pre IH]; simpl.
  - rewrite includes_unfold, startsWith_app. done.
  - rewrite IH. apply orb_true_r.
Qed.

Lemma includes_inv s t :
  includes s t = true -> exists pre post, s = pre +:+ t +:+ post.
Proof.
  induction s as [|c s IH]; rewrite includes_unfold; intros Hs.
  - apply orb_true_iff in Hs as [Hs|Hs]; [|done].
    destruct (startsWith_inv _ _ Hs) as [post ->]. by exists "", post.
  - apply orb_true_iff in Hs as [Hs|Hs].
    + destruct (startsWith_inv _ _ Hs) as [post ->]. by exists "", post.
    + destruct (IH Hs) as (pre & post & ->). by exists (String c pre), post.
Qed.

Lemma map_chars_app f a b :
  map_chars f (a +:+ b) = map_chars f a +:+ map_chars f b.
Proof. induction a as [|c a IH]; simpl; [done|]. by rewrite IH. Qed.

Lemma map_chars_app_inv f s a b :
  map_chars f s = a +:+ b ->
  exists s1 s2, s = s1 +:+ s2 /\ map_chars f s1 = a /\ map_chars f s2 = b.
Proof.
  revert s; induction a as [|c a IH]; intros s Hs.
  - by exists "", s.
  - destruct s as [|d s]; simpl in Hs; [done|].
    injection Hs as Hd Hs.
    destruct (IH _ Hs) as (s1 & s2 & -> & H1 & H2).
    exists (String d s1), s2. simpl. by rewrite Hd, H1.
Qed.

(** [includes] on the lowered text decides occurrence up to letter case. *)
Lemma includes_lower_iff kw s :
  includes (toLowerCase s) (toLowerCase kw) = true <-> occurs_ci kw s.
Proof.
  unfold toLowerCase. split.
  - intros Hs. apply includes_inv in Hs as (pre & post & Hs).
    apply map_chars_app_inv in Hs as (s1 & s23 & -> & H1 & Hs).
    apply map_chars_app_inv in Hs as (s2 & s3 & -> & H2 & H3).
    by exists s1, s2, s3.
  - intros (pre & mid & post & -> & Hmid).
    rewrite !map_chars_app. unfold toLowerCase in Hmid. rewrite Hmid.
    apply includes_app.
Qed.

End JSFacts.

(** ** Query service *)

Module AIQueryFacts.
Import JS JSFacts AIQuery.

Lemma scan_keywords_keeps kws lowerSQL errs x :
  x ∈ errs ->
  x ∈ fold_left
        (fun errs keyword =>
           if includes lowerSQL keyword then push errs (dangerous_message keyword) else errs)
        kws errs.
Proof.
  revert errs; induction kws as [|k kws IH]; intros errs Hx; simpl; [done|].
  apply IH. destruct (includes lowerSQL k); [|done].
  unfold push. apply elem_of_app. by left.
Qed.

Lemma scan_keywords_records kws lowerSQL errs kw :
  kw ∈ kws -> includes lowerSQL kw = true ->
  dangerous_message kw ∈
    fold_left
      (fun errs keyword =>
         if includes lowerSQL keyword then push errs (dangerous_message keyword) else errs)
      kws errs.
Proof.
  revert errs; induction kws as [|k kws IH]; intros errs Hkw Hinc; simpl.
  - by apply elem_of_nil in Hkw.
  - apply elem_of_cons in Hkw as [->|Hkw].
    + rewrite Hinc. apply scan_keywords_keeps. unfold push.
      apply elem_of_app. right. by apply list_elem_of_singleton.
    + by apply IH.
Qed.

Lemma dangerousKeywords_lower kw :
  kw ∈ dangerousKeywords -> toLowerCase kw = kw.
Proof.
  unfold dangerousKeywords. rewrite !elem_of_cons, elem_of_nil.
  intros H. repeat destruct H as [->|H]; done.
Qed.

(** Once the static checks have recorded an error, the [EXPLAIN] step is
    skipped and the verdict is "invalid" with that error list. *)
Lemma validateSQL_static_error {row} (c : Collaborators row) sql x :
  x ∈ static_errors sql ->
  x ∈ errors (validateSQL c sql) /\ isValid (validateSQL c sql) = false.
Proof.
  intros Hx. unfold validateSQL.
  destruct (static_errors sql) as [|e errs] eqn:E.
  - by apply elem_of_nil in Hx.
  - simpl. split; done.
Qed.

(** C1, on the code: the tenant check of [validateSQL] only looks for the
    text [project_id].  A query that names the column but filters on no
    tenant records no error, is valid as soon as [EXPLAIN] accepts it, and
    [processNaturalLanguageQuery] executes it. *)
Theorem validateSQL_accepts_unfiltered_query :
  forall (row : Type) (c : Collaborators row) (question : string) (ctx : QueryContext),
    let q := "SELECT project_id, count() FROM events GROUP BY project_id" in
    explain c q = None ->
    generateSQL c (sanitizeInput question) ctx = inl q ->
    errors (validateSQL c q) = [] /\
    isValid (validateSQL c q) = true /\
    (forall rows ins,
        store c q = inl rows ->
        generateInsights c (take (Z.to_nat (effective_limit ctx)) rows)
          (sanitizeInput question) = inl ins ->
        error (processNaturalLanguageQuery c question ctx) = None /\
        data (processNaturalLanguageQuery c question ctx)
          = Some (take (Z.to_nat (effective_limit ctx)) rows)).
Proof.
  intros row c question ctx q Hex Hgen.
  assert (Hv : validateSQL c q =
               {| isValid := true; errors := []; warnings := static_warnings q |}).
  { unfold validateSQL.
    replace (static_errors q) with (@nil string) by (vm_compute; reflexivity).
    by rewrite Hex. }
  rewrite Hv. simpl. split; [done|]. split; [done|].
  intros rows ins Hrows Hins.
  unfold processNaturalLanguageQuery. rewrite Hgen.
  rewrite bool_decide_eq_false_2 by (subst q; discriminate).
  rewrite Hv. simpl. unfold executeQuery. rewrite Hrows. simpl.
  by rewrite Hins.
Qed.

Lemma validateSQL_accepts_unfiltered_query_witness :
  let q := "SELECT project_id, count() FROM events GROUP BY project_id" in
  isValid (validateSQL (canned q 3) q) = true /\
  data (processNaturalLanguageQuery (canned q 3) "events per project" (context_of "p1" None))
    = Some [0; 1; 2]%nat.
Proof.
  intros q.
  destruct (validateSQL_accepts_unfiltered_query nat (canned q 3) "events per project"
              (context_of "p1" None) eq_refl eq_refl) as (_ & Hvalid & Hrun).
  split; [exact Hvalid|].
  destruct (Hrun (seq 0 3) [] eq_refl eq_refl) as [_ Hdata].
  exact Hdata.
Defined.

(** C2.  A query in which one of the keywords insert, update, delete, drop,
    alter, create occurs anywhere, in any letter case (so also inside a
    string literal or a comment), gets the error for that keyword and is
    invalid; a query in which [select] occurs nowhere gets the
    "must be a SELECT statement" error and is invalid. *)
Theorem validateSQL_rejects_mutations :
  forall (row : Type) (c : Collaborators row) (sql : string),
    (forall kw, kw ∈ ["insert"; "update"; "delete"; "drop"; "alter"; "create"] ->
                occurs_ci kw sql ->
                dangerous_message kw ∈ errors (validateSQL c sql) /\
                isValid (validateSQL c sql) = false) /\
    (~ occurs_ci "select" sql ->
     "Query must be a SELECT statement" ∈ errors (validateSQL c sql) /\
     isValid (validateSQL c sql) = false).
Proof.
  intros row c sql. split.
  - intros kw Hkw Hocc. apply validateSQL_static_error.
    assert (Hkw' : kw ∈ dangerousKeywords).
    { unfold dangerousKeywords. rewrite !elem_of_cons, elem_of_nil in *. tauto. }
    apply includes_lower_iff in Hocc.
    rewrite (dangerousKeywords_lower kw Hkw') in Hocc.
    unfold static_errors, scan_keywords.
    by apply scan_keywords_records.
  - intros Hno. apply validateSQL_static_error.
    assert (Hinc : includes (toLowerCase sql) "select" = false).
    { destruct (includes (toLowerCase sql) "select") eqn:E; [|done].
      exfalso. apply Hno. by apply (includes_lower_iff "select"). }
    unfold static_errors, scan_keywords. rewrite Hinc.
    apply scan_keywords_keeps.
    destruct (includes sql "project_id"); cbn [negb]; unfold push;
      rewrite ?elem_of_app, !elem_of_cons; tauto.
Qed.

Lemma validateSQL_rejects_mutations_witness :
  let sql := "SELECT name FROM events WHERE project_id = 'p' AND name = 'Drop' -- x" in
  let bare := "TRUNCATE events" in
  (dangerous_message "drop" ∈ errors (validateSQL (canned sql 0) sql) /\
   isValid (validateSQL (canned sql 0) sql) = false) /\
  ("Query must be a SELECT statement" ∈ errors (validateSQL (canned bare 0) bare) /\
   isValid (validateSQL (canned bare 0) bare) = false).
Proof.
  intros sql bare. split.
  - apply (proj1 (validateSQL_rejects_mutations nat (canned sql 0) sql) "drop").
    + rewrite !elem_of_cons. tauto.
    + exists "SELECT name FROM events WHERE project_id = 'p' AND name = '", "Drop", "' -- x".
      split; reflexivity.
  - apply (proj2 (validateSQL_rejects_mutations nat (canned bare 0) bare)).
    intros Hocc. apply includes_lower_iff in Hocc. vm_compute in Hocc. discriminate.
Defined.

End AIQueryFacts.

(** ** Fan-out hub *)

Module RealtimeFacts.
Import Json Realtime.

(** C10.  The payload [broadcastEvent] emits carries the broadcast time
    under [timestamp], whatever the event had there, and every other field
    of the event unchanged; it goes to the room of the project, and each
    member of that room is handed exactly this payload on [new_event]. *)
Theorem broadcastEvent_overwrites_timestamp :
  forall (now projectId : string) (event : gmap string jval)
         (rooms : gmap string (gset string)),
    let e := broadcastEvent now projectId event in
    payload e !! "timestamp" = Some (JStr now) /\
    (forall k, k <> "timestamp" -> payload e !! k = event !! k) /\
    room e = "project_" +:+ projectId /\
    (forall sock ch p,
        (sock, ch, p) ∈ deliveries rooms e <->
        sock ∈ members rooms ("project_" +:+ projectId) /\
        ch = "new_event" /\
        p = <["timestamp" := JStr now]> event).
Proof.
  intros now projectId event rooms e. subst e. unfold broadcastEvent. simpl.
  split; [apply lookup_insert_eq|].
  split; [intros k Hk; by apply lookup_insert_ne|].
  split; [done|].
  intros sock ch p. unfold deliveries. simpl.
  rewrite list_elem_of_fmap. split.
  - intros (s & Heq & Hs). injection Heq as -> -> ->.
    by apply elem_of_elements in Hs.
  - intros (Hs & -> & ->). exists sock. split; [done|].
    by apply elem_of_elements.
Qed.

Lemma broadcastEvent_overwrites_timestamp_witness :
  let event : gmap string jval :=
    {[ "event_name" := JStr "page_view"; "timestamp" := JStr "2024-01-01T00:00:00.000Z" ]} in
  let e := broadcastEvent "2024-06-01T12:00:00.000Z" "p1" event in
  payload e !! "timestamp" = Some (JStr "2024-06-01T12:00:00.000Z") /\
  payload e !! "event_name" = Some (JStr "page_view") /\
  ("s1", "new_event", payload e) ∈ deliveries (join_project "s1" "p1" ∅) e.
Proof.
  intros event e.
  destruct (broadcastEvent_overwrites_timestamp "2024-06-01T12:00:00.000Z" "p1" event
              (join_project "s1" "p1" ∅)) as (Hts & Hother & _ & Hdel).
  fold e in Hts, Hother, Hdel.
  split; [exact Hts|]. split.
  - rewrite (Hother "event_name") by discriminate. reflexivity.
  - apply Hdel. split; [|split; reflexivity].
    unfold join_project, socket_join, members.
    rewrite lookup_insert_eq. simpl. set_solver.
Defined.

End RealtimeFacts.

(** ** Ingestion gateway *)

Module IngestFacts.
Import JS Json Ingest.



(** A loop of calls that cannot reject runs to its end. *)
Lemma for_each_perform {A} (f : nat -> A -> effect) i (l : list A) :
  for_each (fun k x => perform (f k x)) i l = (imap (fun k x => f (i + k)%nat x) l, Some tt).
Proof.
  revert i; induction l as [|x l IH]; intros i; [done|].
  cbn [for_each imap]. rewrite IH. unfold bind, perform. simpl.
  rewrite Nat.add_0_r. do 2 f_equal.
  apply imap_ext. intros k y _. simpl. f_equal. lia.
Qed.

(** The item loop stops at the first item the schema complains about, and
    labels the complaint with that item's index. *)
Lemma validate_items_invalid env raws :
  forall i raw e,
    raw ∈ raws -> eventSchema_complaint env raw = Some e ->
    exists j raw' e',
      raws !! j = Some raw' /\
      eventSchema_complaint env raw' = Some e' /\
      (forall k r, (k < j)%nat -> raws !! k = Some r -> eventSchema_complaint env r = None) /\
      validate_items env i raws
        = inl {| label := "events[" +:+ dec (i + j) +:+ "]." +:+ label e';
                 complaint := complaint e' |}.
Proof.
  induction raws as [|raw0 rest IH]; intros i raw e Hin He.
  - by apply elem_of_nil in Hin.
  - destruct (eventSchema_complaint env raw0) as [e0|] eqn:E0.
    + exists 0%nat, raw0, e0. split; [done|]. split; [done|]. split; [intros; lia|].
      cbn [validate_items]. unfold eventSchema_validate. rewrite E0.
      by rewrite Nat.add_0_r.
    + apply elem_of_cons in Hin as [->|Hin]; [congruence|].
      destruct (IH (S i) raw e Hin He) as (j & raw' & e' & Hj & He' & Hbefore & Hv).
      exists (S j), raw', e'. split; [done|]. split; [done|]. split.
      * intros k r Hk Hr. destruct k as [|k]; simpl in Hr.
        -- by injection Hr as <-.
        -- apply (Hbefore k r); [lia|done].
      * cbn [validate_items]. unfold eventSchema_validate at 1. rewrite E0, Hv.
        by rewrite Nat.add_succ_r.
Qed.

(** C4.  When some event of a batch fails [eventSchema], the request is
    answered 400 with the Joi message of the first offending item, which
    names that item and its field as [events[j].field], and the handler
    performs no effect at all: nothing is inserted, cached or published. *)
Theorem batch_with_invalid_event_rejected :
  forall (env : Env) (req : Request (list (gmap string jval)))
         (raw : gmap string jval) (e : JoiError),
    raw ∈ body req ->
    eventSchema_complaint env raw = Some e ->
    exists j raw' e',
      body req !! j = Some raw' /\
      eventSchema_complaint env raw' = Some e' /\
      (forall k r, (k < j)%nat -> body req !! k = Some r -> eventSchema_complaint env r = None) /\
      post_batch env req =
        ([], {| status := 400;
                json := {[ "error" :=
                             JStr (message {| label := "events[" +:+ dec j +:+ "]." +:+ label e';
                                              complaint := complaint e' |}) ]} |}).
Proof.
  intros env req raw e Hin He.
  destruct (validate_items_invalid env (body req) 0%nat raw e Hin He)
    as (j & raw' & e' & Hj & He' & Hbefore & Hv).
  exists j, raw', e'. split; [done|]. split; [done|]. split; [done|].
  unfold post_batch, batchEventsSchema_validate. rewrite Hv. reflexivity.
Qed.

(** An empty text is no value for a property: the first item is the
    offending one, before the second, which lacks its name. *)
Example batch_empty_property_refused :
  let first : gmap string jval :=
    <["properties" := JObj [("a", JStr "")]]> (sample_event "click") in
  let second : gmap string jval :=
    {[ "user_id" := JStr "123e4567-e89b-12d3-a456-426614174000" ]} in
  post_batch (sample_env true) (sample_request [first; second])
  = ([], {| status := 400;
            json := {[ "error" :=
                         JStr (message {| label := "events[0].properties.a";
                                          complaint := "is not allowed to be empty" |}) ]} |}).
Proof. vm_compute. reflexivity. Qed.

Lemma batch_with_invalid_event_rejected_witness :
  let bad : gmap string jval :=
    {[ "user_id" := JStr "123e4567-e89b-12d3-a456-426614174000" ]} in
  let req := sample_request [sample_event "page_view"; sample_event "click"; bad] in
  let env := sample_env true in
  exists j raw' e',
    body req !! j = Some raw' /\
    eventSchema_complaint env raw' = Some e' /\
    (forall k r, (k < j)%nat -> body req !! k = Some r -> eventSchema_complaint env r = None) /\
    post_batch env req =
      ([], {| status := 400;
              json := {[ "error" :=
                           JStr (message {| label := "events[" +:+ dec j +:+ "]." +:+ label e';
                                            complaint := complaint e' |}) ]} |}).
Proof.
  intros bad req env.
  apply (batch_with_invalid_event_rejected env req bad
           {| label := "event_name"; complaint := "is required" |}).
  - subst req. simpl. rewrite !elem_of_cons. tauto.
  - vm_compute. reflexivity.
Defined.

(** The batch of the witness, evaluated: two valid events and one without
    [event_name]. *)
Example batch_valid_valid_invalid :
  let bad : gmap string jval :=
    {[ "user_id" := JStr "123e4567-e89b-12d3-a456-426614174000" ]} in
  post_batch (sample_env true)
    (sample_request [sample_event "page_view"; sample_event "click"; bad]) =
    ([], {| status := 400;
            json := {[ "error" := JStr (quote +:+ "events[2].event_name" +:+ quote
                                          +:+ " is required") ]} |}).
Proof. vm_compute. reflexivity. Qed.





(** A batch of two on a healthy system: the insert, then the pipeline, then
    one publish per event. *)
Example batch_of_two_trace :
  is_insert <$> (post_batch (sample_env true)
                   (sample_request [sample_event "page_view"; sample_event "click"])).1
  = [true; false; false; false].
Proof. vm_compute. reflexivity. Qed.

End IngestFacts.

(** ** Client event buffer *)

Module SDKFacts.
Import Json SDK.

(** *** What each operation does to the queue and to the pending requests *)

Lemma flush_queue synchronous a : eventQueue (flush synchronous a) = [].
Proof.
  unfold flush. destruct (eventQueue a) as [|e q] eqn:E; [done|].
  unfold sendEvents, sendEventsSync. simpl.
  destruct (negb (isOnline a) && offlineEnabled (config a)), synchronous; simpl;
    try destruct (hasBeacon a); reflexivity.
Qed.

Lemma flush_inflight synchronous a :
  inflight (flush synchronous a) = inflight a \/
  inflight (flush synchronous a) = inflight a ++ [eventQueue a].
Proof.
  unfold flush. destruct (eventQueue a) as [|e q] eqn:E; [by left|].
  unfold sendEvents, sendEventsSync. simpl.
  destruct (negb (isOnline a) && offlineEnabled (config a)), synchronous; simpl;
    try destruct (hasBeacon a); simpl; auto.
Qed.

Lemma flush_config synchronous a : config (flush synchronous a) = config a.
Proof.
  unfold flush. destruct (eventQueue a) as [|e q] eqn:E; [done|].
  unfold sendEvents, sendEventsSync. simpl.
  destruct (negb (isOnline a) && offlineEnabled (config a)), synchronous; simpl;
    try destruct (hasBeacon a); reflexivity.
Qed.

Lemma held_ids_spec a x :
  x ∈ held_ids a <->
  (exists e, e ∈ eventQueue a /\ id e = x) \/
  (exists b e, b ∈ inflight a /\ e ∈ b /\ id e = x).
Proof.
  unfold held_ids. rewrite elem_of_app, list_elem_of_fmap, list_elem_of_bind.
  split.
  - intros [(e & -> & He)|(b & Hx & Hb)]; [left; eauto|].
    apply list_elem_of_fmap in Hx as (e & -> & He). right; eauto.
  - intros [(e & He & <-)|(b & e & Hb & He & <-)]; [left; eauto|].
    right. exists b. split; [|done]. apply list_elem_of_fmap. eauto.
Qed.

(** An instance never comes to hold an id it did not hold before, except
    the id of the event being tracked. *)
Lemma flush_held synchronous a x :
  x ∈ held_ids (flush synchronous a) -> x ∈ held_ids a.
Proof.
  rewrite !held_ids_spec, flush_queue.
  intros [(e & He & _)|(b & e & Hb & He & Hx)]; [by apply elem_of_nil in He|].
  destruct (flush_inflight synchronous a) as [Hf|Hf]; rewrite Hf in Hb.
  - right; eauto.
  - apply elem_of_app in Hb as [Hb|Hb]; [right; eauto|].
    apply list_elem_of_singleton in Hb as ->. left; eauto.
Qed.

Lemma saveQueuedEvents_held a : held_ids (saveQueuedEvents a) = held_ids a.
Proof. reflexivity. Qed.

Lemma track_held eid now name props a x :
  x ∈ held_ids (track eid now name props a) -> x ∈ held_ids a \/ x = eid.
Proof.
  unfold track.
  set (event := {| id := eid; retries := 0%nat |}).
  set (a1 := set_eventQueue (eventQueue a ++ [event]) a).
  assert (H1 : forall y, y ∈ held_ids a1 -> y ∈ held_ids a \/ y = eid).
  { intros y. rewrite !held_ids_spec. subst a1. simpl.
    intros [(e & He & Hy)|Hy]; [|by left; right].
    apply elem_of_app in He as [He|He]; [left; left; eauto|].
    apply list_elem_of_singleton in He as ->. by right. }
  assert (Hcfg : config a1 = config a) by reflexivity.
  destruct (batchSize (config a1) <=? length (eventQueue a1))%nat.
  - rewrite flush_config, Hcfg.
    destruct (offlineEnabled (config a)); rewrite ?saveQueuedEvents_held;
      intros Hx; apply H1; by apply flush_held in Hx.
  - rewrite Hcfg.
    destruct (offlineEnabled (config a)); rewrite ?saveQueuedEvents_held; apply H1.
Qed.

Lemma sendEvents_failed_queue events a :
  eventQueue (sendEvents_failed events a) =
  (bump <$> List.filter (fun e => (retries e <? retryAttempts (config a))%nat) events)
    ++ eventQueue a.
Proof.
  unfold sendEvents_failed. simpl.
  destruct (offlineEnabled (config a)); reflexivity.
Qed.

Lemma sendEvents_failed_inflight events a :
  inflight (sendEvents_failed events a) = inflight a.
Proof.
  unfold sendEvents_failed. simpl.
  destruct (offlineEnabled (config a)); reflexivity.
Qed.

Lemma settle_held i ok a x : x ∈ held_ids (settle i ok a) -> x ∈ held_ids a.
Proof.
  unfold settle. destruct (inflight a !! i) as [events|] eqn:Ei; [|done].
  assert (Hev : events ∈ inflight a) by (by eapply list_elem_of_lookup_2).
  set (a1 := set_inflight (delete i (inflight a)) a).
  assert (H1 : forall y, y ∈ held_ids a1 -> y ∈ held_ids a).
  { intros y. rewrite !held_ids_spec. subst a1. simpl.
    intros [Hy|(b & e & Hb & He & Hy)]; [by left|].
    right. exists b, e. split; [|done]. by eapply list_elem_of_delete_inv. }
  destruct ok.
  - unfold sendEvents_delivered.
    destruct (offlineEnabled (config a1)); rewrite ?saveQueuedEvents_held; apply H1.
  - intros Hx. apply held_ids_spec in Hx.
    rewrite sendEvents_failed_queue, sendEvents_failed_inflight in Hx.
    destruct Hx as [(e & He & Hx)|Hx].
    + apply elem_of_app in He as [He|He].
      * apply list_elem_of_fmap in He as (e0 & -> & He0).
        apply list_elem_of_In, filter_In in He0 as [He0 _].
        apply list_elem_of_In in He0.
        apply held_ids_spec. right. exists events, e0. done.
      * apply H1, held_ids_spec. left; eauto.
    + apply H1, held_ids_spec. by right.
Qed.

Lemma step_held a act x :
  x ∈ held_ids (step a act) -> x ∈ held_ids a \/ tracks x act.
Proof.
  destruct act as [eid now name props|synchronous| | | |i ok]; simpl.
  - intros Hx. apply track_held in Hx as [Hx| ->]; auto.
  - intros Hx. left. by apply flush_held in Hx.
  - unfold periodicFlush. destruct (0 <? length (eventQueue a))%nat; [|by left].
    intros Hx. left. by apply flush_held in Hx.
  - destruct (offlineEnabled (config a)); [|by left]. unfold handleOnline.
    destruct (0 <? length (eventQueue (set_isOnline true a)))%nat; [|by left].
    intros Hx. left. by apply flush_held in Hx.
  - destruct (offlineEnabled (config a)); by left.
  - intros Hx. left. by apply settle_held in Hx.
Qed.

Lemma run_not_held acts : forall a x,
  x ∉ held_ids a -> Forall (fun act => ~ tracks x act) acts ->
  x ∉ held_ids (run acts a).
Proof.
  induction acts as [|act acts IH]; intros a x Hx Hacts; [done|].
  apply Forall_cons in Hacts as [Hact Hacts].
  unfold run. simpl. apply IH; [|done].
  intros Hin. apply step_held in Hin as [Hin|Hin]; done.
Qed.

(** *** Requeue after a failed delivery *)

Lemma held_ids_split a i events :
  inflight a !! i = Some events ->
  held_ids a ≡ₚ (id <$> events) ++ held_ids (set_inflight (delete i (inflight a)) a).
Proof.
  intros Hi. unfold held_ids. simpl.
  rewrite delete_take_drop.
  rewrite <- (take_drop_middle (inflight a) i events Hi) at 1.
  rewrite !bind_app, bind_cons.
  set (q := id <$> eventQueue a).
  set (b1 := take i (inflight a) ≫= fmap id).
  set (b2 := drop (S i) (inflight a) ≫= fmap id).
  set (ev := id <$> events).
  clearbody q b1 b2 ev. solve_Permutation.
Qed.

Lemma NoDup_fmap_eq {A B} (f : A -> B) (l : list A) x y :
  NoDup (f <$> l) -> x ∈ l -> y ∈ l -> f x = f y -> x = y.
Proof.
  induction l as [|z l IH]; intros Hnd Hx Hy Hf.
  - by apply elem_of_nil in Hx.
  - rewrite fmap_cons in Hnd. apply NoDup_cons in Hnd as [Hz Hnd].
    apply elem_of_cons in Hx as [->|Hx]; apply elem_of_cons in Hy as [->|Hy].
    + done.
    + exfalso. apply Hz. rewrite Hf. by apply list_elem_of_fmap_2.
    + exfalso. apply Hz. rewrite <- Hf. by apply list_elem_of_fmap_2.
    + by apply IH.
Qed.

(** C6.  When the [i]-th pending delivery fails, the queue becomes the
    events of its batch whose retry count is below the ceiling, in their
    order in the batch and each with its count raised by one, followed by
    the queue as it stood.  An event of the batch at or above the ceiling
    is gone: provided ids are unique among the events the instance holds
    and no later [track] reuses its id, no event with that id is in the
    queue after any further sequence of actions. *)
Theorem failed_delivery_requeues_below_ceiling :
  forall (a : Analytics) (i : nat) (events : list QueuedEvent),
    inflight a !! i = Some events ->
    let ceiling := retryAttempts (config a) in
    let a' := settle i false a in
    eventQueue a' =
      (bump <$> List.filter (fun e => (retries e <? ceiling)%nat) events) ++ eventQueue a /\
    (forall e, e ∈ events -> (retries e < ceiling)%nat -> bump e ∈ eventQueue a') /\
    (forall e, e ∈ events -> (ceiling <= retries e)%nat ->
               NoDup (held_ids a) ->
               forall acts, Forall (fun act => ~ tracks (id e) act) acts ->
                            id e ∉ (id <$> eventQueue (run acts a'))).
Proof.
  intros a i events Hi ceiling a'.
  assert (Hq : eventQueue a' =
               (bump <$> List.filter (fun e => (retries e <? ceiling)%nat) events)
                 ++ eventQueue a).
  { subst a'. unfold settle. rewrite Hi. by rewrite sendEvents_failed_queue. }
  split; [exact Hq|]. split.
  - intros e He Hlt. rewrite Hq. apply elem_of_app. left.
    apply list_elem_of_fmap_2, list_elem_of_In, filter_In.
    split; [by apply list_elem_of_In|]. by apply Nat.ltb_lt.
  - intros e He Hge Hnd acts Hacts Hin.
    assert (Hnot : id e ∉ held_ids a').
    { set (a0 := set_inflight (delete i (inflight a)) a).
      rewrite (held_ids_split a i events Hi) in Hnd.
      apply NoDup_app in Hnd as (Hev & Hdisj & _).
      assert (Hrest : id e ∉ held_ids a0).
      { apply Hdisj. by apply list_elem_of_fmap_2. }
      intros Hheld. apply held_ids_spec in Hheld.
      rewrite Hq in Hheld. subst a'. unfold settle in Hheld. rewrite Hi in Hheld.
      rewrite sendEvents_failed_inflight in Hheld.
      destruct Hheld as [(e1 & He1 & Hid)|Hheld].
      - apply elem_of_app in He1 as [He1|He1].
        + apply list_elem_of_fmap in He1 as (e0 & -> & He0).
          apply list_elem_of_In, filter_In in He0 as [He0 Hlt].
          apply list_elem_of_In in He0. apply Nat.ltb_lt in Hlt.
          assert (e0 = e) as -> by (by apply (NoDup_fmap_eq id events)).
          subst ceiling. simpl in Hlt. lia.
        + apply Hrest, held_ids_spec. left; eauto.
      - apply Hrest, held_ids_spec. by right. }
    apply (run_not_held acts a' (id e) Hnot Hacts).
    unfold held_ids. apply elem_of_app. by left.
Qed.

Lemma failed_delivery_requeues_below_ceiling_witness :
  let a := pending [queued "a" 0; queued "b" 3; queued "c" 2] [queued "d" 0] in
  eventQueue (settle 0 false a) = [queued "a" 1; queued "c" 3; queued "d" 0] /\
  "b" ∉ (id <$> eventQueue
                  (run [TimerFires; Settles 0 false; Track "e" "t" "click" ∅]
                       (settle 0 false a))).
Proof.
  intros a.
  destruct (failed_delivery_requeues_below_ceiling a 0
              [queued "a" 0; queued "b" 3; queued "c" 2] eq_refl)
    as (Hq & _ & Hdrop).
  split; [exact Hq|].
  apply (Hdrop (queued "b" 3)).
  - rewrite !elem_of_cons. tauto.
  - simpl. lia.
  - compute_done.
  - repeat constructor; simpl; try tauto. discriminate.
Defined.

(** Four failures in a row use up the default budget of an event. *)
Example four_failures_drop_the_event :
  let a := run [Track "e1" "2024-06-01T12:00:00.000Z" "page_view" ∅;
                Flush false; Settles 0 false;
                Flush false; Settles 0 false; Flush false; Settles 0 false]
               (idle (default_config "key") true) in
  eventQueue a = [queued "e1" 3] /\
  eventQueue (run [Flush false; Settles 0 false] a) = [] /\
  sent_ids (run [Flush false; Settles 0 false] a) = ["e1"; "e1"; "e1"; "e1"].
Proof.
  vm_compute. repeat split.
Qed.

(** *** Flushing while offline *)

(** C7, on the code: with the offline mode on and the browser offline, a
    timer-driven flush of a non-empty queue empties the queue and sends
    nothing ([sendEvents] returns before the request and does not put the
    batch back); the reconnect signal that follows finds the queue empty and
    sends nothing either. *)
Theorem offline_flush_discards_queue :
  forall (a : Analytics),
    offlineEnabled (config a) = true ->
    isOnline a = false ->
    eventQueue a <> [] ->
    let a1 := step a TimerFires in
    let a2 := step a1 OnlineSignal in
    eventQueue a1 = [] /\ network a1 = network a /\ inflight a1 = inflight a /\
    eventQueue a2 = [] /\ network a2 = network a /\ inflight a2 = inflight a.
Proof.
  intros a Hoff Hon Hq a1 a2.
  assert (H1 : a1 = set_eventQueue [] a).
  { subst a1. simpl. unfold periodicFlush, flush, sendEvents.
    destruct (eventQueue a) as [|e q]; [done|]. simpl.
    by rewrite Hon, Hoff. }
  assert (H2 : a2 = set_isOnline true (set_eventQueue [] a)).
  { subst a2. rewrite H1. simpl. by rewrite Hoff. }
  rewrite H1, H2. simpl. done.
Qed.

Lemma offline_flush_discards_queue_witness :
  let a := run [OfflineSignal; Track "e1" "t1" "click" ∅; Track "e2" "t2" "click" ∅]
               (idle (default_config "key") true) in
  (id <$> eventQueue a) = ["e1"; "e2"] /\
  eventQueue (step (step a TimerFires) OnlineSignal) = [] /\
  network (step (step a TimerFires) OnlineSignal) = [].
Proof.
  intros a.
  destruct (offline_flush_discards_queue a) as (_ & _ & _ & Hq & Hn & _).
  - reflexivity.
  - reflexivity.
  - vm_compute. discriminate.
  - split; [vm_compute; reflexivity|]. split; [exact Hq|exact Hn].
Defined.

(** The same two events, once with and once without a timer tick before
    the reconnect: delivered once each, or never sent. *)
Example offline_replay_without_timer :
  sent_ids (run [OfflineSignal; Track "e1" "t1" "click" ∅; Track "e2" "t2" "click" ∅;
                 OnlineSignal; Settles 0 true]
                (idle (default_config "key") true)) = ["e1"; "e2"].
Proof. vm_compute. reflexivity. Qed.

Example offline_replay_with_timer :
  let a := run [OfflineSignal; Track "e1" "t1" "click" ∅; Track "e2" "t2" "click" ∅;
                TimerFires; OnlineSignal]
               (idle (default_config "key") true) in
  sent_ids a = [] /\ eventQueue a = [] /\ inflight a = [] /\
  option_map (List.map id) (localStorage a) = Some ["e1"; "e2"].
Proof. vm_compute. repeat split. Qed.

(** The batch-size trigger does the same while offline, and the snapshot
    written right after it is the emptied queue. *)
Example offline_batch_trigger_discards :
  let cfg := {| apiKey := "key"; apiUrl := "http://localhost:3001/api/v1";
                debug := false; batchSize := 2; flushInterval := 10000;
                retryAttempts := 3; offlineEnabled := true |} in
  let a := run [OfflineSignal; Track "e1" "t1" "click" ∅; Track "e2" "t2" "click" ∅;
                OnlineSignal]
               (idle cfg true) in
  sent_ids a = [] /\ eventQueue a = [] /\ localStorage a = Some [].
Proof. vm_compute. repeat split. Qed.

(** *** Synchronous flush *)

(** C8, on the code: [flush(true)] calls [sendEvents] before it looks at
    [synchronous], so whenever [sendEvents] does send (online, or offline
    mode off) the batch goes out twice: by [fetch] and then by the
    fire-and-forget primitive. *)
Theorem synchronous_flush_sends_batch_twice :
  forall (a : Analytics),
    eventQueue a <> [] ->
    isOnline a = true \/ offlineEnabled (config a) = false ->
    let a' := flush true a in
    eventQueue a' = [] /\
    network a' =
      network a ++ [Fetch (eventQueue a);
                    if hasBeacon a then Beacon (eventQueue a) else SyncXHR (eventQueue a)].
Proof.
  intros a Hq Hsend a'. split; [apply flush_queue|].
  subst a'. unfold flush, sendEvents, sendEventsSync.
  destruct (eventQueue a) as [|e q] eqn:E; [done|]. simpl.
  assert (Hgo : negb (isOnline a) && offlineEnabled (config a) = false).
  { destruct Hsend as [->| ->]; [done|]. apply andb_false_r. }
  rewrite Hgo. simpl. destruct (hasBeacon a); simpl; by rewrite <- app_assoc.
Qed.

Lemma synchronous_flush_sends_batch_twice_witness :
  let a := run [Track "e1" "t1" "click" ∅] (idle (default_config "key") true) in
  sent_ids (flush true a) = ["e1"; "e1"].
Proof.
  intros a.
  destruct (synchronous_flush_sends_batch_twice a) as [_ Hn].
  - vm_compute. discriminate.
  - left. reflexivity.
  - unfold sent_ids. rewrite Hn. vm_compute. reflexivity.
Defined.

End SDKFacts.

(** ** Funnel analysis *)

Module FunnelFacts.
Import JS Funnel.

Lemma Qc_positive_of_Z z : Qc_positive (Qc_of_Z z) = (0 <? z).
Proof.
  unfold Qc_positive. rewrite <- Z2Qc_inj_0.
  destruct (0 <? z) eqn:E.
  - apply bool_decide_eq_true_2. apply (proj1 (Z2Qc_inj_lt 0 z)). by apply Z.ltb_lt.
  - apply bool_decide_eq_false_2. intros Hlt. apply (proj2 (Z2Qc_inj_lt 0 z)) in Hlt.
    apply Z.ltb_ge in E. lia.
Qed.

Lemma Qc_mul_exact a b :
  Z.abs (a * b) <= 2 ^ 53 -> (Qc_of_Z a * Qc_of_Z b)%Qc = Qc_of_Z (a * b).
Proof. intros _. by rewrite Z2Qc_inj_mul. Qed.

Lemma Qc_div_exact a b :
  b <> 0 -> Z.abs (a * b) <= 2 ^ 53 -> (Qc_of_Z (a * b) / Qc_of_Z b)%Qc = Qc_of_Z a.
Proof.
  intros Hb _. rewrite Z2Qc_inj_mul. apply Qcdiv_mult_l.
  rewrite <- Z2Qc_inj_0. intros Heq. by apply Z2Qc_inj in Heq.
Qed.

Lemma Qc_round_exact a : Z.abs a <= 2 ^ 53 -> Qc_round (Qc_of_Z a) = Qc_of_Z a.
Proof.
  intros _. unfold Qc_round. f_equal.
  change (Qfloor (Qred (inject_Z a + Qred (1 # 2))) = a).
  rewrite Qred_correct. change (Qred (1 # 2)) with (1 # 2)%Q.
  unfold Qfloor, Qplus, inject_Z. simpl.
  symmetry. apply Z.div_unique with (r := 1); lia.
Qed.

(** Exact fractions satisfy the laws.  They agree with double arithmetic
    wherever a law applies; where a quotient is not exact the two can
    differ in the last decimal kept (23 of 160 is 14.375, which rounds to
    14.38 here and to 14.37 in doubles), so the theorems use the laws
    only, and the concrete runs stay with exact quotients. *)
#[export] Instance Qc_JSNumber : JSNumber Qc :=
  {| of_Z := Qc_of_Z;
     fmul := Qcmult;
     fdiv := Qcdiv;
     fround := Qc_round;
     positive := Qc_positive;
     positive_of_Z := Qc_positive_of_Z;
     fmul_exact := Qc_mul_exact;
     fdiv_exact := Qc_div_exact;
     fround_exact := Qc_round_exact |}.

(** The spec's example: counts 1000, 300 and 45 give 100, 30 and 15. *)
Example funnel_1000_300_45 :
  rates (get_funnel (Some "page_view,add_to_cart,purchase")
           (Some {[ "step_1_users" := 1000; "step_2_users" := 300;
                    "step_3_users" := 45 ]}))
  = Some [100 # 1; 30 # 1; 15 # 1]%Q.
Proof. vm_compute. reflexivity. Qed.

(** Rounding to two decimals: 1 of 3 is 33.33. *)
Example funnel_one_third :
  rates (get_funnel (Some "a,b") (Some {[ "step_1_users" := 3; "step_2_users" := 1 ]}))
  = Some [100 # 1; 3333 # 100]%Q.
Proof. vm_compute. reflexivity. Qed.

(** C9 as stated fails on the first step: with no user at the first step
    its rate is 0, not 100. *)
Lemma first_step_rate_not_always_100 :
  rates (get_funnel (Some "signup,purchase")
           (Some {[ "step_1_users" := 0; "step_2_users" := 0 ]}))
  = Some [0 # 1; 0 # 1]%Q /\
  ~ (0 # 1 == 100 # 1)%Q.
Proof. split; [vm_compute; reflexivity|]. intros Heq. discriminate Heq. Qed.

Section Rates.
Context {num : Type} `{JSNumber num}.

Lemma round2_0 : round2 (of_Z 0) = of_Z 0.
Proof.
  unfold round2.
  rewrite (fmul_exact 0 100) by (vm_compute; discriminate).
  rewrite (fround_exact (0 * 100)) by (vm_compute; discriminate).
  apply (fdiv_exact 0 100); [lia|vm_compute; discriminate].
Qed.

Lemma round2_100 : round2 (of_Z 100) = of_Z 100.
Proof.
  unfold round2.
  rewrite (fmul_exact 100 100) by (vm_compute; discriminate).
  rewrite (fround_exact (100 * 100)) by (vm_compute; discriminate).
  apply (fdiv_exact 100 100); [lia|vm_compute; discriminate].
Qed.

Lemma whole_ratio c : 0 < c <= 2 ^ 53 -> fmul (fdiv (of_Z c) (of_Z c)) (of_Z 100) = of_Z 100.
Proof.
  intros Hc.
  replace (of_Z c) with (of_Z (1 * c)) at 1 by (f_equal; lia).
  rewrite (fdiv_exact 1 c) by lia.
  apply (fmul_exact 1 100). vm_compute. discriminate.
Qed.

(** C9, amended.  A request with fewer than two steps is answered 400.
    Otherwise the response has one entry per step, computed from the counts
    the handler reads: the first step's rate is 100 when its count is
    positive and 0 when its count is 0; for a later step the rate is the
    count of the step divided by the count of the previous step, times 100,
    rounded to two decimals, when the previous count is positive, and 0 when
    the previous count is 0 or absent. *)
Theorem funnel_rates_from_counts :
  forall (events_param : option string) (rawData : gmap string Z),
    let events := match events_param with
                  | Some s => split_on "," s
                  | None => []
                  end in
    let count := fun n => default 0 (rawData !! users_key n) in
    ((length events < 2)%nat ->
     forall raw,
       get_funnel events_param raw
         = BadRequest "At least 2 events required for funnel analysis") /\
    ((2 <= length events)%nat ->
     exists funnel,
       get_funnel events_param (Some rawData) = FunnelData funnel events /\
       length funnel = length events /\
       forall i s,
         funnel !! i = Some s ->
         users s = of_Z (count (S i)) /\
         (i = 0%nat ->
          (0 < count 1%nat <= 2 ^ 53 -> conversion_rate s = of_Z 100) /\
          (count 1%nat <= 0 -> conversion_rate s = of_Z 0)) /\
         ((0 < i)%nat ->
          (forall p, rawData !! users_key i = Some p -> 0 < p ->
                     conversion_rate s
                       = round2 (fmul (fdiv (of_Z (count (S i))) (of_Z p)) (of_Z 100))) /\
          (forall p, rawData !! users_key i = Some p -> p <= 0 ->
                     conversion_rate s = of_Z 0) /\
          (rawData !! users_key i = None -> conversion_rate s = of_Z 0))).
Proof.
  intros events_param rawData events count. split.
  - intros Hlen raw. unfold get_funnel. fold events.
    apply Nat.ltb_lt in Hlen. by rewrite Hlen.
  - intros Hlen. exists (imap (funnel_step rawData) events).
    split; [|split].
    + unfold get_funnel. fold events.
      apply Nat.ltb_ge in Hlen. by rewrite Hlen.
    + apply length_imap.
    + intros i s Hs. rewrite list_lookup_imap in Hs.
      destruct (events !! i) as [ev|]; [|done]. simpl in Hs. injection Hs as <-.
      unfold funnel_step. cbn [users conversion_rate]. rewrite Nat.add_1_r.
      fold (count (S i)). split; [done|]. split.
      * intros ->. cbn [Nat.ltb Nat.leb]. rewrite positive_of_Z. split.
        -- intros Hc. replace (0 <? count 1%nat) with true by (symmetry; apply Z.ltb_lt; lia).
           rewrite whole_ratio by done. apply round2_100.
        -- intros Hc. replace (0 <? count 1%nat) with false by (symmetry; apply Z.ltb_ge; lia).
           apply round2_0.
      * intros Hi. replace (0 <? i)%nat with true by (symmetry; by apply Nat.ltb_lt).
        split; [|split].
        -- intros p Hp Hpos. rewrite Hp, positive_of_Z.
           by replace (0 <? p) with true by (symmetry; by apply Z.ltb_lt).
        -- intros p Hp Hneg. rewrite Hp, positive_of_Z.
           replace (0 <? p) with false by (symmetry; by apply Z.ltb_ge).
           apply round2_0.
        -- intros Hp. rewrite Hp. apply round2_0.
Qed.

End Rates.

Lemma funnel_rates_from_counts_witness :
  let rawData : gmap string Z :=
    {[ "step_1_users" := 1000; "step_2_users" := 300; "step_3_users" := 45 ]} in
  let events := ["page_view"; "add_to_cart"; "purchase"] in
  exists funnel : list (FunnelStep Qc),
    get_funnel (Some "page_view,add_to_cart,purchase") (Some rawData)
      = FunnelData funnel events /\
    length funnel = 3%nat /\
    (forall s, funnel !! 0%nat = Some s -> conversion_rate s = Qc_of_Z 100).
Proof.
  intros rawData events.
  destruct (funnel_rates_from_counts (num := Qc)
              (Some "page_view,add_to_cart,purchase") rawData) as [_ Hok].
  destruct Hok as (funnel & Hresp & Hlen & Hsteps).
  - vm_compute. lia.
  - exists funnel. split; [exact Hresp|]. split; [exact Hlen|].
    intros s Hs. destruct (Hsteps 0%nat s Hs) as (_ & Hfirst & _).
    apply (Hfirst eq_refl). vm_compute. split; [reflexivity|discriminate].
Defined.

End FunnelFacts.

(** ** More on strings *)

Module JSMoreFacts.
Import JS JSFacts JSMore.

Lemma sapp_assoc a b c : (a +:+ b) +:+ c = a +:+ (b +:+ c).
Proof. induction a as [|x a IH]; simpl; [done|]. by rewrite IH. Qed.

Lemma sapp_nil_r a : a +:+ "" = a.
Proof. induction a as [|x a IH]; simpl; [done|]. by rewrite IH. Qed.

Lemma slength_app a b :
  String.length (a +:+ b) = (String.length a + String.length b)%nat.
Proof. induction a as [|x a IH]; simpl; [done|]. by rewrite IH. Qed.

Lemma slength_map f s : String.length (map_chars f s) = String.length s.
Proof. induction s as [|x s IH]; simpl; [done|]. by rewrite IH. Qed.

Lemma first_chars_app a b : first_chars (String.length a) (a +:+ b) = a.
Proof. induction a as [|x a IH]; simpl; [by destruct b|]. by rewrite IH. Qed.

Lemma skip_chars_app a b : skip_chars (String.length a) (a +:+ b) = b.
Proof. induction a as [|x a IH]; simpl; [by destruct b|]. done. Qed.

Lemma find_with_unfold f t s :
  find_with f t s =
  if startsWith (map_chars f s) t
  then Some (EmptyString, first_chars (String.length t) s, skip_chars (String.length t) s)
  else match s with
       | EmptyString => None
       | String c s' =>
           match find_with f t s' with
           | Some (pre, mid, post) => Some (String c pre, mid, post)
           | None => None
           end
       end.
Proof. destruct s; reflexivity. Qed.

(** Where the mapped text starts with [t], the first [length t] characters
    are a stretch that maps to [t]. *)
Lemma startsWith_split f t s :
  startsWith (map_chars f s) t = true ->
  s = first_chars (String.length t) s +:+ skip_chars (String.length t) s /\
  map_chars f (first_chars (String.length t) s) = t.
Proof.
  intros Hs. apply startsWith_inv in Hs as [r Hs].
  apply map_chars_app_inv in Hs as (s1 & s2 & -> & H1 & H2).
  rewrite <- H1, slength_map, first_chars_app, skip_chars_app. done.
Qed.

Lemma find_with_some f t s : forall pre mid post,
  find_with f t s = Some (pre, mid, post) ->
  s = pre +:+ mid +:+ post /\ map_chars f mid = t.
Proof.
  induction s as [|c s IH]; intros pre mid post; rewrite find_with_unfold.
  - destruct (startsWith (map_chars f "") t) eqn:E; [|done].
    intros [= <- <- <-]. by apply startsWith_split.
  - destruct (startsWith (map_chars f (String c s)) t) eqn:E.
    + intros [= <- <- <-]. by apply startsWith_split.
    + destruct (find_with f t s) as [[[p m] q]|] eqn:F; [|done].
      intros [= <- <- <-]. destruct (IH p m q eq_refl) as [-> Hm]. done.
Qed.

Lemma find_with_none f t s :
  find_with f t s = None -> includes (map_chars f s) t = false.
Proof.
  induction s as [|c s IH]; rewrite find_with_unfold, includes_unfold.
  - by destruct (startsWith (map_chars f "") t).
  - destruct (startsWith (map_chars f (String c s)) t); [done|].
    destruct (find_with f t s) as [[[p m] q]|]; [done|].
    intros _. simpl. by apply IH.
Qed.

Lemma map_chars_id s : map_chars (fun c => c) s = s.
Proof. induction s as [|c s IH]; simpl; [done|]. by rewrite IH. Qed.

(** A character is its lower-case form, or the upper-case form of it. *)
Lemma lower_ascii_cases c :
  c = lower_ascii c \/ c = upper_ascii (lower_ascii c).
Proof. destruct c as [[] [] [] [] [] [] [] []]; vm_compute; auto. Qed.

Lemma lower_ascii_space c : is_space (lower_ascii c) = is_space c.
Proof. destruct c as [[] [] [] [] [] [] [] []]; reflexivity. Qed.

(** Containment, in terms of a decomposition of the text. *)
Lemma includes_within s t a b :
  includes s t = true -> includes (a +:+ s +:+ b) t = true.
Proof.
  intros Hs. apply includes_inv in Hs as (pre & post & ->).
  rewrite !sapp_assoc, <- (sapp_assoc a pre). apply includes_app.
Qed.

Lemma includes_length s t :
  includes s t = true -> (String.length t <= String.length s)%nat.
Proof.
  intros Hs. apply includes_inv in Hs as (pre & post & ->).
  rewrite !slength_app. lia.
Qed.

(** [trim] and [strip_semicolon] return a stretch of their argument. *)
Lemma trimStart_within s : exists a, s = a +:+ trimStart s.
Proof.
  induction s as [|c s [a IH]]; simpl; [by exists ""|].
  destruct (is_space c).
  - exists (String c a). simpl. by rewrite <- IH.
  - by exists "".
Qed.

Lemma trimEnd_within s : exists b, s = trimEnd s +:+ b.
Proof.
  induction s as [|c s [b IH]]; simpl; [by exists ""|].
  destruct (trimEnd s) as [|d t] eqn:E.
  - destruct (is_space c).
    + exists (String c s). done.
    + exists b. simpl. by rewrite IH at 1.
  - exists b. simpl. by rewrite IH at 1.
Qed.

Lemma strip_semicolon_within s : exists b, s = strip_semicolon s +:+ b.
Proof.
  induction s as [|c s [b IH]]; [by exists ""|].
  destruct s as [|d s].
  - simpl. destruct (Ascii.eqb c ";"); [by exists (String c "")|by exists ""].
  - exists b. change (strip_semicolon (String c (String d s)))
      with (String c (strip_semicolon (String d s))).
    simpl. by rewrite IH at 1.
Qed.

End JSMoreFacts.

(** ** Query service: extraction of the query from the model's answer *)

Module ExtractFacts.
Import JS JSFacts JSMore JSMoreFacts Extract AIQuery AIQueryFacts.

Lemma clean_within s : exists a b, s = a +:+ clean s +:+ b.
Proof.
  unfold clean, trim.
  destruct (trimStart_within s) as [a Ha].
  destruct (trimEnd_within (trimStart s)) as [b1 Hb1].
  destruct (strip_semicolon_within (trimEnd (trimStart s))) as [b2 Hb2].
  exists a, (b2 +:+ b1).
  rewrite <- (sapp_assoc _ b2 b1), <- Hb2, <- Hb1. exact Ha.
Qed.

Lemma clean_length s : (String.length (clean s) <= String.length s)%nat.
Proof.
  destruct (clean_within s) as (a & b & Hs).
  rewrite Hs at 2. rewrite !slength_app. lia.
Qed.

Lemma lower_backtick c : lower_ascii c = "`"%char -> c = "`"%char.
Proof.
  intros Hc. destruct (lower_ascii_cases c) as [H|H]; rewrite Hc in H; exact H.
Qed.

(** A text without three backticks in a row matches neither fence pattern. *)
Lemma no_fence_not_fenced opener response w :
  opener = "```" +:+ w ->
  includes response "```" = false ->
  fenced opener response = None.
Proof.
  intros -> Hno. unfold fenced, find_ci.
  destruct (find_with lower_ascii ("```" +:+ w) response) as [[[pre mid] post]|] eqn:F;
    [|done].
  exfalso. apply find_with_some in F as [-> Hmid].
  destruct mid as [|c1 [|c2 [|c3 mid]]]; simpl in Hmid; try discriminate.
  injection Hmid as H1 H2 H3 _.
  apply lower_backtick in H1, H2, H3. subst c1 c2 c3.
  change (String "`" (String "`" (String "`" mid))) with ("```" +:+ mid) in Hno.
  rewrite sapp_assoc, includes_app in Hno. discriminate.
Qed.

Lemma static_errors_project_id sql :
  includes sql "project_id" = false ->
  "Query must include project_id filter for security" ∈ static_errors sql.
Proof.
  intros Hno. unfold static_errors, scan_keywords. rewrite Hno.
  apply scan_keywords_keeps.
  destruct (includes (toLowerCase sql) "select"); cbn [negb]; unfold push;
    rewrite ?elem_of_app, !elem_of_cons; tauto.
Qed.

Lemma static_errors_select sql :
  includes (toLowerCase sql) "select" = false ->
  "Query must be a SELECT statement" ∈ static_errors sql.
Proof.
  intros Hno. unfold static_errors, scan_keywords. rewrite Hno.
  apply scan_keywords_keeps.
  destruct (includes sql "project_id"); cbn [negb]; unfold push;
    rewrite ?elem_of_app, !elem_of_cons; tauto.
Qed.

(** The group of the bare-select pattern is the word, or the word and a
    semicolon. *)
Lemma bare_select_group response group :
  bare_select response = Some group ->
  exists word, toLowerCase word = "select" /\ (group = word \/ group = word +:+ ";").
Proof.
  unfold bare_select, find_ci.
  destruct (find_with lower_ascii "select" response) as [[[pre word] rest]|] eqn:F;
    [|done].
  apply find_with_some in F as [_ Hword]. intros Hg. exists word. split; [done|].
  destruct rest as [|c rest]; [injection Hg as <-; by left|].
  destruct (Ascii.eqb c ";"); injection Hg as <-; auto.
Qed.

Lemma bare_select_none response :
  bare_select response = None -> includes (toLowerCase response) "select" = false.
Proof.
  unfold bare_select, find_ci.
  destruct (find_with lower_ascii "select" response) as [[[pre word] rest]|] eqn:F.
  - destruct rest as [|c rest]; [done|]. by destruct (Ascii.eqb c ";").
  - intros _. by apply find_with_none.
Qed.

(** Without a fence, a text in which [select] occurs is reduced to that
    word: the lazy part of the third pattern matches nothing. *)
Theorem unfenced_answer_reduced_to_keyword :
  forall (response : string),
    includes response "```" = false ->
    occurs_ci "select" response ->
    toLowerCase (extractSQL response) = "select".
Proof.
  intros response Hno Hocc. unfold extractSQL.
  rewrite (no_fence_not_fenced fence_sql response ("sql" +:+ nl)) by done.
  rewrite (no_fence_not_fenced fence_plain response nl) by done.
  destruct (bare_select response) as [group|] eqn:B.
  - apply bare_select_group in B as (word & Hword & Hgroup).
    destruct word as [|c1 [|c2 [|c3 [|c4 [|c5 [|c6 [|c7 word]]]]]]];
      simpl in Hword; try discriminate.
    injection Hword as H1 H2 H3 H4 H5 H6.
    destruct (lower_ascii_cases c1) as [E1|E1]; rewrite H1 in E1;
    destruct (lower_ascii_cases c2) as [E2|E2]; rewrite H2 in E2;
    destruct (lower_ascii_cases c3) as [E3|E3]; rewrite H3 in E3;
    destruct (lower_ascii_cases c4) as [E4|E4]; rewrite H4 in E4;
    destruct (lower_ascii_cases c5) as [E5|E5]; rewrite H5 in E5;
    destruct (lower_ascii_cases c6) as [E6|E6]; rewrite H6 in E6;
    subst c1 c2 c3 c4 c5 c6;
    destruct Hgroup as [-> | ->]; vm_compute; reflexivity.
  - apply bare_select_none in B.
    apply (includes_lower_iff "select") in Hocc.
    change (toLowerCase "select") with "select" in Hocc. congruence.
Qed.

Lemma unfenced_answer_reduced_to_keyword_witness :
  toLowerCase
    (extractSQL "Sure: Select count() FROM events WHERE project_id = 'p1' LIMIT 10;")
  = "select".
Proof.
  apply unfenced_answer_reduced_to_keyword.
  - vm_compute. reflexivity.
  - exists "Sure: ", "Select", " count() FROM events WHERE project_id = 'p1' LIMIT 10;".
    split; reflexivity.
Defined.

(** An answer without a fenced block never passes validation, whatever it
    says; [processNaturalLanguageQuery] answers it with an error and no
    data. *)
Theorem unfenced_answer_rejected :
  forall (row : Type) (c : Collaborators row) (response question : string)
         (ctx : QueryContext),
    includes response "```" = false ->
    isValid (validateSQL c (extractSQL response)) = false /\
    (generateSQL c (sanitizeInput question) ctx = inl (extractSQL response) ->
     data (processNaturalLanguageQuery c question ctx) = None /\
     is_Some (error (processNaturalLanguageQuery c question ctx))).
Proof.
  intros row c response question ctx Hno.
  assert (Hinvalid : isValid (validateSQL c (extractSQL response)) = false).
  { unfold extractSQL.
    rewrite (no_fence_not_fenced fence_sql response ("sql" +:+ nl)) by done.
    rewrite (no_fence_not_fenced fence_plain response nl) by done.
    destruct (bare_select response) as [group|] eqn:B.
    - apply bare_select_group in B as (word & Hword & Hgroup).
      eapply validateSQL_static_error, static_errors_project_id.
      destruct (includes (clean group) "project_id") eqn:E; [|done].
      apply includes_length in E. pose proof (clean_length group) as Hlen.
      assert (String.length word = 6%nat) as Hw.
      { rewrite <- (slength_map lower_ascii). unfold toLowerCase in Hword. by rewrite Hword. }
      destruct Hgroup as [-> | ->]; rewrite ?slength_app, Hw in Hlen; simpl in *; lia.
    - apply bare_select_none in B.
      eapply validateSQL_static_error, static_errors_select.
      destruct (includes (toLowerCase (clean response)) "select") eqn:E; [|done].
      destruct (clean_within response) as (a & b & Hresp).
      rewrite Hresp in B. unfold toLowerCase in *.
      rewrite !map_chars_app in B. rewrite (includes_within _ _ _ _ E) in B. done. }
  split; [exact Hinvalid|].
  intros Hgen. unfold processNaturalLanguageQuery. rewrite Hgen.
  case_bool_decide; [by split|].
  rewrite Hinvalid. by split.
Qed.

Lemma unfenced_answer_rejected_witness :
  let response := "SELECT count() FROM events WHERE project_id = 'p1' LIMIT 10" in
  isValid (validateSQL (canned (extractSQL response) 3) (extractSQL response)) = false /\
  data (processNaturalLanguageQuery (canned (extractSQL response) 3) "how many events"
          (context_of "p1" None)) = None.
Proof.
  intros response.
  destruct (unfenced_answer_rejected nat (canned (extractSQL response) 3) response
              "how many events" (context_of "p1" None)) as [Hv Hrun].
  - vm_compute. reflexivity.
  - split; [exact Hv|]. apply Hrun. reflexivity.
Defined.

Lemma no_backtick_cons c s :
  includes (String c s) "`" = false -> c <> "`"%char /\ includes s "`" = false.
Proof.
  rewrite includes_unfold. simpl.
  destruct (Ascii.eqb c "`") eqn:E; [done|].
  apply Ascii.eqb_neq in E. by destruct s.
Qed.

Lemma find_fence_sql pre rest :
  includes pre "`" = false ->
  find_ci fence_sql (pre +:+ fence_sql +:+ rest) = Some (pre, fence_sql, rest).
Proof.
  unfold find_ci. induction pre as [|c pre IH]; intros Hpre.
  - change ("" +:+ fence_sql +:+ rest) with (fence_sql +:+ rest).
    rewrite find_with_unfold, map_chars_app.
    change (map_chars lower_ascii fence_sql) with fence_sql.
    by rewrite startsWith_app, first_chars_app, skip_chars_app.
  - apply no_backtick_cons in Hpre as [Hc Hpre].
    change (String c pre +:+ fence_sql +:+ rest)
      with (String c (pre +:+ fence_sql +:+ rest)).
    rewrite find_with_unfold.
    replace (startsWith (map_chars lower_ascii (String c (pre +:+ fence_sql +:+ rest)))
               fence_sql) with false.
    + cbv beta iota. by rewrite IH.
    + simpl. destruct (Ascii.eqb (lower_ascii c) "`") eqn:E; [|done].
      apply Ascii.eqb_eq, lower_backtick in E. done.
Qed.

Lemma find_fence_close body post :
  includes body "`" = false ->
  find fence_close (body +:+ fence_close +:+ post) = Some (body, fence_close, post).
Proof.
  unfold find. induction body as [|c body IH]; intros Hbody.
  - change ("" +:+ fence_close +:+ post) with (fence_close +:+ post).
    rewrite find_with_unfold, map_chars_id.
    by rewrite startsWith_app, first_chars_app, skip_chars_app.
  - apply no_backtick_cons in Hbody as [Hc Hbody].
    change (String c body +:+ fence_close +:+ post)
      with (String c (body +:+ fence_close +:+ post)).
    rewrite find_with_unfold, map_chars_id.
    replace (startsWith (String c (body +:+ fence_close +:+ post)) fence_close) with false.
    + cbv beta iota. by rewrite IH.
    + simpl. destruct (Ascii.eqb c (ascii_of_pos 10)); [|done].
      destruct body as [|d body]; [done|].
      apply no_backtick_cons in Hbody as [Hd _]. simpl.
      apply Ascii.eqb_neq in Hd. by rewrite Hd.
Qed.

(** A block fenced with the [sql] tag is returned trimmed and without one
    final semicolon, whatever surrounds it, as long as neither the text
    before it nor the block itself contains a backtick. *)
Theorem fenced_sql_block_extracted :
  forall (pre body post : string),
    includes pre "`" = false ->
    includes body "`" = false ->
    extractSQL (pre +:+ "```sql" +:+ nl +:+ body +:+ nl +:+ "```" +:+ post)
      = strip_semicolon (trim body).
Proof.
  intros pre body post Hpre Hbody. unfold extractSQL, fenced.
  change (pre +:+ "```sql" +:+ nl +:+ body +:+ nl +:+ "```" +:+ post)
    with (pre +:+ fence_sql +:+ (body +:+ fence_close +:+ post)).
  rewrite find_fence_sql by done.
  by rewrite find_fence_close.
Qed.

(** The no-break space is white space to [trim]. *)
Example fenced_block_no_break_space :
  let nbsp := String (ascii_of_N 160) "" in
  extractSQL ("```sql" +:+ nl +:+ nbsp +:+ "SELECT 1" +:+ nbsp +:+ nl +:+ "```") = "SELECT 1".
Proof. vm_compute. reflexivity. Qed.

Lemma fenced_sql_block_extracted_witness :
  extractSQL (("Here is the query:" +:+ nl) +:+ "```sql" +:+ nl
              +:+ "  SELECT count() FROM events WHERE project_id = 'p1';  "
              +:+ nl +:+ "```" +:+ " Hope it helps.")
  = "SELECT count() FROM events WHERE project_id = 'p1'".
Proof.
  rewrite (fenced_sql_block_extracted ("Here is the query:" +:+ nl)
             "  SELECT count() FROM events WHERE project_id = 'p1';  "
             " Hope it helps.").
  - vm_compute. reflexivity.
  - vm_compute. reflexivity.
  - vm_compute. reflexivity.
Defined.

End ExtractFacts.

(** ** Query route *)

Module AIRouteFacts.
Import JS AIQuery AIRoute.

Lemma aiQuerySchema_limit b v :
  aiQuerySchema_validate b = inr v ->
  match body_context b with
  | None => context_limit v = None
  | Some c => context_limit v = Some (default 100 (ctx_limit c)) /\
              1 <= default 100 (ctx_limit c) <= 10000
  end.
Proof.
  unfold aiQuerySchema_validate. intros Hv.
  destruct (body_question b) as [q|]; [|done].
  destruct (body_context b) as [c|].
  - repeat (case_match; try done). injection Hv as <-. simpl. split; [done|lia].
  - repeat (case_match; try done). by injection Hv as <-.
Qed.

(** Through the route the bound handed to [executeQuery] depends on
    whether the body has a [context].  Without one it is the fallback 1000
    of [context.limit || 1000]; with one it is the limit given there, or
    the schema's default 100.  In every case it lies between 1 and 10000. *)
Theorem route_limit_by_context :
  forall (b : QueryBody) (v : QueryValue) (projectId : string) (user : option string),
    aiQuerySchema_validate b = inr v ->
    effective_limit (route_context v projectId user)
    = match body_context b with
      | None => 1000
      | Some c => default 100 (ctx_limit c)
      end /\
    1 <= effective_limit (route_context v projectId user) <= 10000.
Proof.
  intros b v projectId user Hv.
  pose proof (aiQuerySchema_limit b v Hv) as Hl.
  unfold effective_limit, route_context. simpl.
  destruct (body_context b) as [c|].
  - destruct Hl as [-> Hrange]. destruct (default 100 (ctx_limit c)) eqn:E; lia.
  - rewrite Hl. lia.
Qed.

Lemma route_limit_by_context_witness :
  effective_limit
    (route_context {| question := "top pages this week"; context_date_range := None;
                      context_limit := None |} "p1" None) = 1000 /\
  effective_limit
    (route_context {| question := "top pages this week"; context_date_range := Some "30d";
                      context_limit := Some 100 |} "p1" None) = 100.
Proof.
  split.
  - exact (proj1 (route_limit_by_context
                    {| body_question := Some "top pages this week"; body_context := None |}
                    {| question := "top pages this week"; context_date_range := None;
                       context_limit := None |} "p1" None eq_refl)).
  - exact (proj1 (route_limit_by_context
                    {| body_question := Some "top pages this week";
                       body_context := Some {| ctx_date_range := None; ctx_limit := None |} |}
                    {| question := "top pages this week"; context_date_range := Some "30d";
                       context_limit := Some 100 |} "p1" None eq_refl)).
Defined.

(** A generated query that fails validation is never run: the answer of
    the route and the record it logs do not depend on the store or on the
    insight generator; the answer is the 400 carrying the query, and the
    record counts no rows. *)
Theorem rejected_query_not_executed :
  forall (row : Type) (c1 c2 : Collaborators row) (elapsed : Z) (log_resolves : bool)
         (req : QueryRequest) (v : QueryValue) (projectId q : string),
    aiQuerySchema_validate (req_body req) = inr v ->
    truthy (req_project_id req) = Some projectId ->
    generateSQL c1 (sanitizeInput (question v)) (route_context v projectId (req_user req))
      = inl q ->
    generateSQL c2 (sanitizeInput (question v)) (route_context v projectId (req_user req))
      = inl q ->
    explain c1 q = explain c2 q ->
    q <> "" ->
    isValid (validateSQL c1 q) = false ->
    post_query c1 elapsed log_resolves req = post_query c2 elapsed log_resolves req /\
    (log_resolves = true ->
     exists details entry,
       post_query c1 elapsed log_resolves req = ([entry], ExecutionFailed details q) /\
       generated_sql entry = q /\ result_count entry = 0%nat).
Proof.
  intros row c1 c2 elapsed log_resolves req v projectId q Hv Hp Hg1 Hg2 Hex Hq Hinv.
  assert (Hsame : validateSQL c2 q = validateSQL c1 q).
  { unfold validateSQL. by rewrite Hex. }
  assert (Hr : forall c : Collaborators row,
             generateSQL c (sanitizeInput (question v))
               (route_context v projectId (req_user req)) = inl q ->
             validateSQL c q = validateSQL c1 q ->
             processNaturalLanguageQuery c (question v)
               (route_context v projectId (req_user req))
             = failed q ("Invalid SQL: " +:+ join ", " (errors (validateSQL c1 q)))).
  { intros c Hg Hval. unfold processNaturalLanguageQuery. rewrite Hg.
    rewrite bool_decide_eq_false_2 by done. rewrite Hval, Hinv. reflexivity. }
  unfold post_query. rewrite Hv, Hp, (Hr c1 Hg1 eq_refl), (Hr c2 Hg2 Hsame).
  split; [done|]. intros ->. simpl. by eexists _, _.
Qed.

Lemma rejected_query_not_executed_witness :
  let q := "DROP TABLE events" in
  let req := {| req_body := {| body_question := Some "delete everything";
                               body_context := None |};
                req_project_id := Some "p1"; req_user := Some "u1" |} in
  post_query (canned q 0) 12 true req = post_query (canned q 500) 12 true req.
Proof.
  intros q req.
  apply (rejected_query_not_executed nat (canned q 0) (canned q 500) 12 true req
           {| question := "delete everything"; context_date_range := None;
              context_limit := None |} "p1" q); try reflexivity.
  discriminate.
Defined.

(** Question lengths 4 and 5, and limit 10001: the bounds of the schema. *)
Example query_schema_bounds :
  aiQuerySchema_validate {| body_question := Some "abcd"; body_context := None |}
    = inl (complain "question" "length must be at least 5 characters long") /\
  aiQuerySchema_validate
    {| body_question := Some "abcde";
       body_context := Some {| ctx_date_range := None; ctx_limit := Some 10000 |} |}
    = inr {| question := "abcde"; context_date_range := Some "30d";
             context_limit := Some 10000 |} /\
  aiQuerySchema_validate
    {| body_question := Some "abcde";
       body_context := Some {| ctx_date_range := None; ctx_limit := Some 10001 |} |}
    = inl (complain "context.limit" "must be less than or equal to 10000").
Proof. repeat split. Qed.

End AIRouteFacts.

(** ** Recent-events cache *)

Module RecentEventsFacts.
Import JS Json Ingest IngestFacts JSNumbers RecentEvents.

Lemma lrange_first {A} (l : list A) n :
  1 <= n -> lrange l 0 (n - 1) = take (Z.to_nat n) l.
Proof.
  intros Hn. unfold lrange.
  repeat (change (0 <? 0) with false; cbv iota).
  assert (Hneg : (n - 1 <? 0) = false) by (apply Z.ltb_ge; lia).
  rewrite Hneg. cbv iota. rewrite Hneg, orb_false_l.
  destruct (Z.of_nat (length l) <=? 0) eqn:E0.
  - apply Z.leb_le in E0. destruct l; [|simpl in E0; lia].
    by rewrite take_nil.
  - apply Z.leb_gt in E0.
    destruct (Z.of_nat (length l) <=? n - 1) eqn:E1.
    + apply Z.leb_le in E1.
      replace (Z.to_nat (Z.of_nat (length l) - 1 - 0 + 1)) with (length l) by lia.
      change (Z.to_nat 0) with 0%nat.
      rewrite drop_0, !take_ge by lia. done.
    + change (Z.to_nat 0) with 0%nat. rewrite drop_0. f_equal. lia.
Qed.

Lemma take_app_take {A} n (l k : list A) :
  take n (l ++ take n k) = take n (l ++ k).
Proof.
  rewrite !take_app. f_equal. rewrite take_take. f_equal. lia.
Qed.

Lemma cached_insert_eq st key l : cached (<[key := l]> st) key = l.
Proof. unfold cached. by rewrite lookup_insert_eq. Qed.

(** A pipeline of pushes, then the trim and the expiry. *)
Lemma pushes_cache key events : forall st,
  cached (fold_left redis_apply (LPush key <$> events) st) key
    = reverse events ++ cached st key /\
  (forall k, k <> key ->
             fold_left redis_apply (LPush key <$> events) st !! k = st !! k).
Proof.
  induction events as [|ev events IH]; intros st; [done|].
  rewrite fmap_cons. cbn [fold_left].
  destruct (IH (redis_apply st (LPush key ev))) as [Hc Ho]. split.
  - rewrite Hc. cbn [redis_apply]. rewrite cached_insert_eq.
    by rewrite reverse_cons, <- app_assoc.
  - intros k Hk. rewrite (Ho k Hk). cbn [redis_apply]. by rewrite lookup_insert_ne.
Qed.

Lemma pipeline_cache key events st :
  let st' := fold_left redis_apply
               ((LPush key <$> events) ++ [LTrim key 0 99; Expire key 3600]) st in
  cached st' key = take 100 (reverse events ++ cached st key) /\
  (forall k, k <> key -> st' !! k = st !! k).
Proof.
  intros st'. subst st'. rewrite fold_left_app.
  destruct (pushes_cache key events st) as [Hc Ho].
  set (st1 := fold_left redis_apply (LPush key <$> events) st) in *.
  cbn [fold_left redis_apply]. split.
  - rewrite cached_insert_eq, Hc.
    by rewrite (lrange_first _ 100).
  - intros k Hk. rewrite lookup_insert_ne by done. by apply Ho.
Qed.

Lemma apply_effects_publish (es : list Realtime.Emission) st :
  apply_effects (Publish <$> es) st = st.
Proof. unfold apply_effects. induction es as [|e es IH]; [done|]. exact IH. Qed.

Lemma inserted_cons e t :
  inserted (e :: t) = match e with Insert _ values => values | _ => [] end ++ inserted t.
Proof. unfold inserted. by rewrite bind_cons. Qed.

Lemma inserted_publish (es : list Realtime.Emission) : inserted (Publish <$> es) = [].
Proof. induction es as [|e es IH]; [done|]. rewrite fmap_cons, inserted_cons. exact IH. Qed.

(** The trace of an accepted call. *)
Lemma post_event_created env req :
  status (post_event env req).2 = 201 ->
  exists value,
    eventSchema_validate env 0 (body req) = inr value /\
    (post_event env req).1 =
      let event := enrich env req value in
      let key := recent_key (project req) in
      [Insert "events" [event]; Redis (LPush key event); Redis (LTrim key 0 99);
       Redis (Expire key 3600);
       Publish (Realtime.broadcastEvent (clock env (AtBroadcast 0)) (project req) event)].
Proof.
  unfold post_event.
  destruct (eventSchema_validate env 0 (body req)) as [e|value]; [done|].
  unfold await, perform, ret, bind, try_catch.
  destruct (insert_resolves env _); [|done].
  destruct (redis_resolves env (LPush _ _)); [|done].
  destruct (redis_resolves env (LTrim _ _ _)); [|done].
  destruct (redis_resolves env (Expire _ _)); [|done].
  intros _. by exists value.
Qed.

Lemma post_batch_created env req :
  status (post_batch env req).2 = 201 ->
  exists values,
    batchEventsSchema_validate env (body req) = inr values /\
    (post_batch env req).1 =
      let events := enrich env req <$> values in
      let key := recent_key (project req) in
      Insert "events" events
        :: RedisExec ((LPush key <$> events) ++ [LTrim key 0 99; Expire key 3600])
        :: (Publish <$> imap (fun i event =>
                                Realtime.broadcastEvent (clock env (AtBroadcast i))
                                  (project req) event) events).
Proof.
  unfold post_batch.
  destruct (batchEventsSchema_validate env (body req)) as [e|values]; [done|].
  rewrite for_each_perform.
  unfold await, ret, bind, try_catch.
  destruct (insert_resolves env _); [|done].
  destruct (exec_resolves env _); [|done].
  intros _. exists values. split; [done|]. simpl.
  do 2 f_equal. rewrite app_nil_r. by rewrite fmap_imap.
Qed.

Lemma call_cache env (c : Call) (st : gmap string (list (gmap string jval))) :
  status (call_result env c).2 = 201 ->
  cached (apply_effects (call_result env c).1 st) (recent_key (call_project c))
  = take 100 (reverse (inserted (call_result env c).1)
              ++ cached st (recent_key (call_project c))) /\
  inserted (call_result env c).1 <> [] /\
  (forall k, k <> recent_key (call_project c) ->
             apply_effects (call_result env c).1 st !! k = st !! k).
Proof.
  intros Hok.
  { destruct c as [req|req]; simpl in *.
    - apply post_event_created in Hok as (value & _ & ->). cbv zeta.
      set (event := enrich env req value). set (key := recent_key (project req)).
      unfold apply_effects, inserted. cbn [fold_left apply_effect].
      destruct (pipeline_cache key [event] st) as [Hc Ho]. split; [exact Hc|].
      split; [done|exact Ho].
    - apply post_batch_created in Hok as (values & Hv & ->). cbv zeta.
      set (events := enrich env req <$> values). set (key := recent_key (project req)).
      unfold apply_effects. cbn [fold_left apply_effect].
      fold (apply_effects (Publish <$> imap (fun i event =>
              Realtime.broadcastEvent (clock env (AtBroadcast i)) (project req) event)
              events)
              (fold_left redis_apply
                 ((LPush key <$> events) ++ [LTrim key 0 99; Expire key 3600]) st)).
      rewrite apply_effects_publish.
      assert (Hins : inserted
                (Insert "events" events
                   :: RedisExec ((LPush key <$> events) ++ [LTrim key 0 99; Expire key 3600])
                   :: (Publish <$> imap (fun i event =>
                         Realtime.broadcastEvent (clock env (AtBroadcast i))
                           (project req) event) events)) = events).
      { rewrite !inserted_cons, inserted_publish. simpl. apply app_nil_r. }
      rewrite Hins.
      destruct (pipeline_cache key events st) as [Hc Ho]. split; [exact Hc|].
      split; [|exact Ho].
      unfold batchEventsSchema_validate in Hv.
      destruct (validate_items env 0 (body req)) as [e|vs] eqn:Evs; [done|].
      destruct (length (body req) <? 1)%nat eqn:E1; [done|].
      destruct (100 <? length (body req))%nat; [done|].
      injection Hv as <-. apply Nat.ltb_ge in E1.
      destruct (body req) as [|raw raws]; [simpl in E1; lia|].
      simpl in Evs. destruct (eventSchema_validate env 0 raw); [done|].
      destruct (validate_items env 1 raws); [done|].
      injection Evs as <-. done. }
Qed.

(** After an accepted call the list of the project holds the events just
    stored, newest first, in front of what it held, cut to 100 entries; the
    lists of other keys are as they were. *)
Theorem accepted_call_updates_cache :
  forall (env : Env) (c : Call) (st : gmap string (list (gmap string jval))),
    status (call_result env c).2 = 201 ->
    let t := (call_result env c).1 in
    let key := recent_key (call_project c) in
    cached (apply_effects t st) key = take 100 (reverse (inserted t) ++ cached st key) /\
    (length (cached (apply_effects t st) key) <= 100)%nat /\
    inserted t <> [] /\
    (forall k, k <> key -> apply_effects t st !! k = st !! k).
Proof.
  intros env c st Hok t key.
  destruct (call_cache env c st Hok) as (Hc & Hne & Ho). subst t key.
  split; [exact Hc|]. split; [|by split].
  rewrite Hc, length_take. lia.
Qed.

Lemma accepted_call_updates_cache_witness :
  let c := Batch (sample_request [sample_event "page_view"; sample_event "click"]) in
  let t := (call_result (sample_env true) c).1 in
  (fun ev => ev !! "event_name") <$> cached (apply_effects t ∅) (recent_key "p1")
  = [Some (JStr "click"); Some (JStr "page_view")].
Proof.
  intros c t.
  destruct (accepted_call_updates_cache (sample_env true) c ∅) as (Hc & _).
  - vm_compute. reflexivity.
  - fold t in Hc. change (call_project c) with "p1" in Hc. rewrite Hc.
    vm_compute. reflexivity.
Defined.

Lemma stored_by_cons env c calls :
  stored_by env (c :: calls) = inserted (call_result env c).1 ++ stored_by env calls.
Proof. unfold stored_by. by rewrite bind_cons. Qed.

Lemma recent_limit_le param : recent_limit param <= 100.
Proof. unfold recent_limit. lia. Qed.

(** *** Times to live *)

(** A key that is not gone at [now] is seen as it is. *)
Lemma expire_at_alive now c key :
  gone now c key = false ->
  cached (lists (expire_at now c)) key = cached (lists c) key /\
  deadlines (expire_at now c) !! key = deadlines c !! key /\
  gone now (expire_at now c) key = false.
Proof.
  intros Hg.
  assert (Hd : deadlines (expire_at now c) !! key = deadlines c !! key).
  { unfold expire_at. simpl. unfold gone in Hg.
    destruct (deadlines c !! key) as [d|] eqn:Ed.
    - apply map_lookup_filter_Some. split; [done|]. simpl. apply Z.ltb_ge in Hg. lia.
    - apply map_lookup_filter_None. by left. }
  split; [|split; [exact Hd|]].
  - unfold cached, expire_at. simpl.
    destruct (lists c !! key) as [l|] eqn:El.
    + replace (filter (fun kv => gone now c kv.1 = false) (lists c) !! key) with (Some l); [done|].
      symmetry. apply map_lookup_filter_Some. done.
    + replace (filter (fun kv => gone now c kv.1 = false) (lists c) !! key)
        with (@None (list (gmap string jval))); [done|].
      symmetry. apply map_lookup_filter_None. by left.
  - unfold gone in *. by rewrite Hd.
Qed.

(** A key that is gone at [now] is not seen. *)
Lemma expire_at_gone now c key :
  gone now c key = true -> cached (lists (expire_at now c)) key = [].
Proof.
  intros Hg. unfold cached, expire_at. simpl.
  replace (filter (fun kv => gone now c kv.1 = false) (lists c) !! key)
    with (@None (list (gmap string jval))); [done|].
  symmetry. apply map_lookup_filter_None. right. intros l _. simpl. by rewrite Hg.
Qed.

Lemma cache_apply_push now c key x :
  gone now c key = false ->
  cached (lists (cache_apply now c (LPush key x))) key = x :: cached (lists c) key /\
  deadlines (cache_apply now c (LPush key x)) !! key = deadlines c !! key /\
  gone now (cache_apply now c (LPush key x)) key = false.
Proof.
  intros Hg. destruct (expire_at_alive now c key Hg) as (Hl & Hd & Hg').
  unfold cache_apply. cbn [lists deadlines redis_apply].
  rewrite cached_insert_eq, Hl. split; [done|]. split; [done|].
  unfold gone in *. cbn [deadlines]. exact Hg'.
Qed.

Lemma cache_apply_pushes now key events : forall c,
  gone now c key = false ->
  let c' := fold_left (cache_apply now) (LPush key <$> events) c in
  cached (lists c') key = reverse events ++ cached (lists c) key /\
  deadlines c' !! key = deadlines c !! key /\
  gone now c' key = false.
Proof.
  induction events as [|x events IH]; intros c Hg c'; subst c'; [done|].
  rewrite fmap_cons. cbn [fold_left].
  destruct (cache_apply_push now c key x Hg) as (Hl & Hd & Hg').
  destruct (IH (cache_apply now c (LPush key x)) Hg') as (Hl' & Hd' & Hg'').
  rewrite Hl', Hl, Hd', Hd, reverse_cons, <- app_assoc. done.
Qed.

Lemma cache_apply_trim now c key :
  gone now c key = false -> cached (lists c) key <> [] ->
  cached (lists (cache_apply now c (LTrim key 0 99))) key = take 100 (cached (lists c) key) /\
  deadlines (cache_apply now c (LTrim key 0 99)) !! key = deadlines c !! key /\
  gone now (cache_apply now c (LTrim key 0 99)) key = false.
Proof.
  intros Hg Hne. destruct (expire_at_alive now c key Hg) as (Hl & Hd & Hg').
  unfold cache_apply. cbn [redis_apply].
  rewrite cached_insert_eq, Hl, (lrange_first _ 100) by done.
  change (Z.to_nat 100) with 100%nat.
  rewrite bool_decide_eq_false_2.
  - cbn [lists deadlines]. rewrite cached_insert_eq. split; [done|]. split; [done|].
    unfold gone in *. cbn [deadlines]. exact Hg'.
  - destruct (cached (lists c) key); done.
Qed.

Lemma cache_apply_expire now c key :
  gone now c key = false -> cached (lists c) key <> [] ->
  cached (lists (cache_apply now c (Expire key 3600))) key = cached (lists c) key /\
  deadlines (cache_apply now c (Expire key 3600)) !! key = Some (now + recent_ttl).
Proof.
  intros Hg Hne. destruct (expire_at_alive now c key Hg) as (Hl & Hd & Hg').
  unfold cache_apply. rewrite Hl, bool_decide_eq_false_2 by done.
  change (3600 <=? 0) with false. cbv iota. cbn [lists deadlines].
  split; [exact Hl|]. by rewrite lookup_insert_eq.
Qed.

(** An accepted call served while the list of its project is still there:
    the list takes the events of the call in front, cut to 100, and lives
    for an hour from the call. *)
Lemma cache_call_view env c now call :
  status (call_result env call).2 = 201 ->
  gone now c (recent_key (call_project call)) = false ->
  let key := recent_key (call_project call) in
  let c' := cache_call env c (now, call) in
  cached (lists c') key
  = take 100 (reverse (inserted (call_result env call).1) ++ cached (lists c) key) /\
  deadlines c' !! key = Some (now + recent_ttl) /\
  inserted (call_result env call).1 <> [].
Proof.
  intros Hok Hg key c'. subst c'. unfold cache_call. cbn [fst snd].
  assert (Hshape : exists events,
            events <> [] /\ inserted (call_result env call).1 = events /\
            redis_commands (call_result env call).1
            = (LPush key <$> events) ++ [LTrim key 0 99; Expire key 3600]).
  { subst key. destruct (call_cache env call ∅ Hok) as (_ & Hne & _).
    exists (inserted (call_result env call).1). split; [done|]. split; [done|].
    destruct call as [req|req]; simpl in *.
    - apply post_event_created in Hok as (value & _ & ->). reflexivity.
    - apply post_batch_created in Hok as (values & _ & ->). cbv zeta.
      unfold redis_commands, inserted. rewrite !bind_cons.
      fold (redis_commands (Publish <$> imap (fun i event =>
              Realtime.broadcastEvent (clock env (AtBroadcast i)) (project req) event)
              (enrich env req <$> values))).
      fold (inserted (Publish <$> imap (fun i event =>
              Realtime.broadcastEvent (clock env (AtBroadcast i)) (project req) event)
              (enrich env req <$> values))).
      rewrite inserted_publish.
      assert (Hp : forall es : list Realtime.Emission, redis_commands (Publish <$> es) = []).
      { induction es as [|e es IH]; [done|].
        rewrite fmap_cons. unfold redis_commands. rewrite bind_cons. exact IH. }
      rewrite Hp. simpl. by rewrite !app_nil_r. }
  destruct Hshape as (events & Hne & -> & ->).
  rewrite fold_left_app.
  destruct (cache_apply_pushes now key events c Hg) as (Hl & Hd & Hg1).
  set (c1 := fold_left (cache_apply now) (LPush key <$> events) c) in *.
  assert (Hne1 : cached (lists c1) key <> []).
  { rewrite Hl. destruct (reverse events) eqn:E; [|done].
    apply (f_equal reverse) in E. rewrite reverse_involutive in E. done. }
  cbn [fold_left].
  destruct (cache_apply_trim now c1 key Hg1 Hne1) as (Hl2 & Hd2 & Hg2).
  set (c2 := cache_apply now c1 (LTrim key 0 99)) in *.
  assert (Hne2 : cached (lists c2) key <> []).
  { rewrite Hl2. destruct (cached (lists c1) key); done. }
  destruct (cache_apply_expire now c2 key Hg2 Hne2) as (Hl3 & Hd3).
  rewrite Hl3, Hl2, Hl. done.
Qed.

Lemma cache_run_view env p : forall (calls : list (Z * Call)) (c : Cache),
  calls <> [] ->
  Forall (fun tc => call_project tc.2 = p /\ status (call_result env tc.2).2 = 201) calls ->
  refreshed_in_time calls ->
  gone (List.hd 0 (fst <$> calls)) c (recent_key p) = false ->
  cached (lists (cache_run env calls c)) (recent_key p)
  = take 100 (reverse (stored_by env (snd <$> calls)) ++ cached (lists c) (recent_key p)) /\
  deadlines (cache_run env calls c) !! recent_key p
  = Some (List.last (fst <$> calls) 0 + recent_ttl) /\
  stored_by env (snd <$> calls) <> [].
Proof.
  induction calls as [|[now call] calls IH]; intros c Hne Hall Hchain Hg; [done|].
  apply Forall_cons in Hall as [[Hp Hok] Hall]. cbn [fst snd] in Hp, Hok.
  rewrite fmap_cons in Hg. cbn [List.hd fst] in Hg. rewrite <- Hp in Hg.
  destruct (cache_call_view env c now call Hok Hg) as (Hl & Hd & Hins).
  rewrite Hp in Hl, Hd.
  change (cache_run env ((now, call) :: calls) c)
    with (cache_run env calls (cache_call env c (now, call))).
  rewrite (fmap_cons snd), stored_by_cons. cbn [snd].
  destruct calls as [|[now' call'] calls].
  - cbn [cache_run fold_left]. rewrite Hl, Hd.
    change (stored_by env (snd <$> [])) with (@nil (gmap string jval)).
    rewrite app_nil_r. split; [done|]. split; [done|]. done.
  - destruct Hchain as [Hgap Hchain]. cbn [fst] in Hgap.
    destruct (IH (cache_call env c (now, call))) as (Hl' & Hd' & _); [done|done|done| |].
    + rewrite fmap_cons. cbn [List.hd fst]. unfold gone. rewrite Hd. apply Z.ltb_ge. lia.
    + rewrite Hl', Hl, take_app_take, reverse_app, <- app_assoc.
      split; [done|]. split.
      * rewrite Hd'. by rewrite !fmap_cons.
      * intros Hnil. apply app_eq_nil in Hnil as [Hnil _]. done.
Qed.

(** Recent events, within the hour.  After accepted calls for one project,
    each served while the list refreshed by the call before it was still
    there, on a cache that was empty, the commands of a call completing
    within one millisecond: a [GET /recent] with a limit of at least 1,
    served after the last call and no more than an hour after it, answers
    from the cache with the events stored most recently, newest first, as
    many as the limit asks for and the list of 100 holds; served more than
    an hour after the last call, it finds the list gone and answers with
    what the store returns. *)
Theorem recent_within_time_to_live :
  forall (env : Env) (db : string -> Z -> option (list (gmap string jval)))
         (calls : list (Z * Call)) (p : string) (limit_param : option string) (now : Z),
    calls <> [] ->
    Forall (fun tc => call_project tc.2 = p /\ status (call_result env tc.2).2 = 201) calls ->
    refreshed_in_time calls ->
    1 <= recent_limit limit_param ->
    let served := List.last (fst <$> calls) 0 in
    let newest :=
      take (Z.to_nat (recent_limit limit_param))
           (reverse (stored_by env (snd <$> calls))) in
    let reply := get_recent_at now db true (cache_run env calls no_cache) p limit_param in
    (served <= now <= served + recent_ttl ->
     reply = Recent newest "cache" (length newest) /\ (0 < length newest <= 100)%nat) /\
    (served + recent_ttl < now ->
     reply = match db p (recent_limit limit_param) with
             | Some events => Recent events "database" (length events)
             | None => RecentFailed
             end).
Proof.
  intros env db calls p limit_param now Hne Hall Hchain Hlim served newest reply.
  destruct (cache_run_view env p calls no_cache Hne Hall Hchain) as (Hl & Hd & Hstored);
    [done|].
  change (cached (lists no_cache) (recent_key p)) with (@nil (gmap string jval)) in Hl.
  rewrite app_nil_r in Hl. fold served in Hd.
  set (c := cache_run env calls no_cache) in *.
  pose proof (recent_limit_le limit_param) as Hle.
  subst reply. unfold get_recent_at, get_recent. split.
  - intros Hnow.
    assert (Hg : gone now c (recent_key p) = false).
    { unfold gone. rewrite Hd. apply Z.ltb_ge. lia. }
    destruct (expire_at_alive now c (recent_key p) Hg) as (Hl' & _).
    rewrite Hl', Hl, lrange_first, take_take by done.
    replace (Z.to_nat (recent_limit limit_param) `min` 100)%nat
      with (Z.to_nat (recent_limit limit_param)) by lia.
    fold newest.
    assert (Hlen : (0 < length newest <= 100)%nat).
    { subst newest. rewrite length_take, length_reverse.
      destruct (stored_by env (snd <$> calls)); [done|]. simpl. lia. }
    replace (0 <? length newest)%nat with true by (symmetry; apply Nat.ltb_lt; lia).
    done.
  - intros Hnow.
    assert (Hg : gone now c (recent_key p) = true).
    { unfold gone. rewrite Hd. apply Z.ltb_lt. lia. }
    rewrite (expire_at_gone now c (recent_key p) Hg).
    replace (lrange [] 0 (recent_limit limit_param - 1)) with (@nil (gmap string jval)).
    + done.
    + unfold lrange. cbn [length]. change (Z.of_nat 0 <=? 0) with true.
      by rewrite orb_true_r.
Qed.

Lemma recent_within_time_to_live_witness :
  let calls := [(1000, Single (sample_request (sample_event "signup")));
                (5000, Batch (sample_request [sample_event "page_view";
                                               sample_event "click"]))] in
  let c := cache_run (sample_env true) calls no_cache in
  (exists events,
     get_recent_at 60000 (fun _ _ => None) true c "p1" (Some "2") = Recent events "cache" 2 /\
     (fun ev => ev !! "event_name") <$> events
     = [Some (JStr "click"); Some (JStr "page_view")]) /\
  get_recent_at 3605001 (fun _ _ => Some []) true c "p1" (Some "2") = Recent [] "database" 0.
Proof.
  intros calls c.
  assert (Hall : Forall (fun tc => call_project tc.2 = "p1" /\
                                   status (call_result (sample_env true) tc.2).2 = 201) calls).
  { repeat constructor. }
  assert (Hchain : refreshed_in_time calls).
  { simpl. unfold recent_ttl. lia. }
  split.
  - destruct (recent_within_time_to_live (sample_env true) (fun _ _ => None) calls "p1"
                (Some "2") 60000) as [Hin _]; [discriminate|exact Hall|exact Hchain| |].
    + vm_compute. discriminate.
    + destruct Hin as [Hget _]; [split; vm_compute; discriminate|].
      eexists. split; [exact Hget|]. vm_compute. reflexivity.
  - destruct (recent_within_time_to_live (sample_env true) (fun _ _ => Some []) calls "p1"
                (Some "2") 3605001) as [_ Hout]; [discriminate|exact Hall|exact Hchain| |].
    + vm_compute. discriminate.
    + apply Hout. unfold recent_ttl. simpl. lia.
Defined.

(** The limit of [GET /recent]: 10 when the parameter is absent, is not a
    number or is 0; never more than 100. *)
Example recent_limit_values :
  recent_limit None = 10 /\ recent_limit (Some "abc") = 10 /\
  recent_limit (Some "0") = 10 /\ recent_limit (Some "25") = 25 /\
  recent_limit (Some " 250 rows") = 100 /\ recent_limit (Some "0x10") = 16 /\
  recent_limit (Some "-3") = -3.
Proof. repeat split. Qed.

(** *** What a request can touch *)

Lemma enrich_stamped {B} env (req : Request B) value :
  stamped (project req) (ip req) (default "" (user_agent req)) (enrich env req value).
Proof.
  unfold stamped, enrich. repeat split.
  - rewrite !lookup_insert_ne by done. apply lookup_insert_eq.
  - rewrite !lookup_insert_ne by done. apply lookup_insert_eq.
  - rewrite lookup_insert_ne by done. apply lookup_insert_eq.
Qed.

Lemma broadcast_scoped now p event addr agent :
  stamped p addr agent event ->
  scoped p addr agent (Publish (Realtime.broadcastEvent now p event)).
Proof.
  intros (Hp & _). split; [done|]. simpl. by rewrite lookup_insert_ne.
Qed.

(** Every effect of an ingestion request is confined to the project the
    API key resolved to: each event written to the store, pushed to the
    cache or published carries that project (and the address and agent the
    server observed), the cache key is the project's list and the room is
    the project's room, whatever the body of the request says. *)
Theorem ingestion_effects_scoped :
  forall (env : Env),
    (forall req : Request (gmap string jval),
        Forall (scoped (project req) (ip req) (default "" (user_agent req)))
               (post_event env req).1) /\
    (forall req : Request (list (gmap string jval)),
        Forall (scoped (project req) (ip req) (default "" (user_agent req)))
               (post_batch env req).1).
Proof.
  intros env. split; intros req.
  - unfold post_event.
    destruct (eventSchema_validate env 0 (body req)) as [e|value]; [constructor|].
    pose proof (enrich_stamped env req value) as Hst.
    set (event := enrich env req value) in *.
    set (p := project req) in *. set (key := recent_key p).
    set (addr := ip req) in *. set (agent := default "" (user_agent req)) in *.
    assert (H0 : scoped p addr agent (Insert "events" [event])).
    { split; [reflexivity|]. constructor; [exact Hst|constructor]. }
    assert (H1 : scoped p addr agent (Redis (LPush key event))).
    { split; [reflexivity|exact Hst]. }
    assert (H2 : scoped p addr agent (Redis (LTrim key 0 99))) by reflexivity.
    assert (H3 : scoped p addr agent (Redis (Expire key 3600))) by reflexivity.
    assert (H4 : scoped p addr agent
                   (Publish (Realtime.broadcastEvent (clock env (AtBroadcast 0)) p event))).
    { by apply broadcast_scoped. }
    clearbody event p key addr agent.
    unfold await, perform, ret, bind, try_catch.
    destruct (insert_resolves env _); [|constructor].
    destruct (redis_resolves env (LPush _ _));
      [destruct (redis_resolves env (LTrim _ _ _));
        [destruct (redis_resolves env (Expire _ _))|]|];
      cbn [fst app];
      repeat (constructor; [assumption|]); constructor.
  - unfold post_batch.
    destruct (batchEventsSchema_validate env (body req)) as [e|values]; [constructor|].
    rewrite for_each_perform.
    assert (Hall : Forall (stamped (project req) (ip req) (default "" (user_agent req)))
                          (enrich env req <$> values)).
    { apply Forall_fmap, Forall_forall. intros v _. apply enrich_stamped. }
    unfold await, ret, bind, try_catch.
    destruct (insert_resolves env _); [|constructor].
    assert (Hins : scoped (project req) (ip req) (default "" (user_agent req))
                     (Insert "events" (enrich env req <$> values))) by done.
    destruct (exec_resolves env _); simpl; [|by repeat constructor].
    constructor; [exact Hins|]. constructor.
    + simpl. apply Forall_app. split.
      * apply Forall_fmap. eapply Forall_impl; [exact Hall|]. by intros v Hv.
      * by repeat constructor.
    + rewrite app_nil_r. apply Forall_lookup. intros i e He.
      rewrite list_lookup_imap in He.
      destruct ((enrich env req <$> values) !! i) as [ev|] eqn:Ei; [|done].
      injection He as <-. apply broadcast_scoped.
      eapply Forall_lookup_1 in Hall; [exact Hall|exact Ei].
Qed.

(** *** The size of a batch *)

Lemma validate_items_length env raws : forall i values,
  validate_items env i raws = inr values -> length values = length raws.
Proof.
  induction raws as [|raw raws IH]; intros i values Hv; simpl in Hv.
  - by injection Hv as <-.
  - destruct (eventSchema_validate env i raw); [done|].
    destruct (validate_items env (S i) raws) as [|vs] eqn:E; [done|].
    injection Hv as <-. simpl. f_equal. by eapply IH.
Qed.

Lemma published_publish (es : list Realtime.Emission) : published (Publish <$> es) = es.
Proof.
  unfold published. induction es as [|e es IH]; [done|].
  rewrite fmap_cons, bind_cons. simpl. by rewrite IH.
Qed.

(** A batch of no event or of more than 100 events is answered 400 without
    any effect.  An accepted batch has between 1 and 100 events, and the
    number the response announces is the number of events submitted,
    stored and published. *)
Theorem batch_size_bounds :
  forall (env : Env) (req : Request (list (gmap string jval))),
    let n := length (body req) in
    ((n = 0 \/ 100 < n)%nat ->
     status (post_batch env req).2 = 400 /\ (post_batch env req).1 = []) /\
    (status (post_batch env req).2 = 201 ->
     (1 <= n <= 100)%nat /\
     json (post_batch env req).2 !! "events_count" = Some (JNum (Z.of_nat n)) /\
     length (inserted (post_batch env req).1) = n /\
     length (published (post_batch env req).1) = n).
Proof.
  intros env req n. split.
  - intros Hn. unfold post_batch, batchEventsSchema_validate.
    destruct (validate_items env 0 (body req)) as [e|values]; [done|].
    fold n. destruct (n <? 1)%nat eqn:E1; [done|].
    destruct (100 <? n)%nat eqn:E2; [done|].
    apply Nat.ltb_ge in E1, E2. lia.
  - intros Hok.
    destruct (post_batch_created env req Hok) as (values & Hv & Ht).
    assert (Hlen : length values = n /\ (1 <= n <= 100)%nat).
    { unfold batchEventsSchema_validate in Hv.
      destruct (validate_items env 0 (body req)) as [e|vs] eqn:Evs; [done|].
      fold n in Hv. destruct (n <? 1)%nat eqn:E1; [done|].
      destruct (100 <? n)%nat eqn:E2; [done|].
      injection Hv as <-. apply Nat.ltb_ge in E1, E2.
      split; [by eapply validate_items_length|lia]. }
    destruct Hlen as [Hlen Hrange]. split; [exact Hrange|]. split.
    + revert Hok. unfold post_batch. rewrite Hv, for_each_perform.
      unfold await, ret, bind, try_catch.
      destruct (insert_resolves env _); [|done].
      destruct (exec_resolves env _); [|done].
      intros _. simpl. rewrite lookup_insert_ne by done.
      rewrite lookup_insert_eq. by rewrite length_fmap, Hlen.
    + rewrite Ht. cbv zeta. split.
      * rewrite !inserted_cons, inserted_publish. simpl.
        by rewrite app_nil_r, length_fmap.
      * unfold published. rewrite !bind_cons. simpl.
        fold (published (Publish <$> imap (fun i event =>
                Realtime.broadcastEvent (clock env (AtBroadcast i)) (project req) event)
                (enrich env req <$> values))).
        by rewrite published_publish, length_imap, length_fmap.
Qed.

Lemma batch_size_bounds_witness :
  status (post_batch (sample_env true) (sample_request [])).2 = 400 /\
  length (published (post_batch (sample_env true)
                       (sample_request [sample_event "a"; sample_event "b"])).1) = 2%nat.
Proof.
  split.
  - apply (proj1 (batch_size_bounds (sample_env true) (sample_request []))). by left.
  - apply (proj2 (batch_size_bounds (sample_env true)
                    (sample_request [sample_event "a"; sample_event "b"]))).
    vm_compute. reflexivity.
Defined.

End RecentEventsFacts.

(** ** Client event buffer: construction, identity and reset *)

Module SDKLifeFacts.
Import JS Json SDK SDKFacts SDKLife.

(** With the offline mode on, nothing of the queue an earlier instance left
    in local storage survives the constructor: the first page view is
    tracked, and its snapshot written over the stored one, before the
    stored queue is read.  Afterwards the queue, the snapshot, the pending
    requests and the wire hold no event but that page view. *)
Theorem constructor_overwrites_snapshot :
  forall (cfg : AnalyticsConfig) (user : option string) (b : Browser)
         (sid eid now : string),
    offlineEnabled cfg = true ->
    let a := construct cfg user b sid eid now in
    localStorage a = Some (eventQueue a) /\
    (forall x, x ∈ held_ids a \/ x ∈ snapshot_ids a \/ x ∈ sent_ids a -> x = eid).
Proof.
  intros cfg user b sid eid now Hoff a. subst a.
  destruct cfg as [key url dbg size interval attempts offline]. simpl in Hoff. subst offline.
  unfold construct, page, track, loadQueuedEvents, collectDeviceInfo.
  cbn [config set_deviceInfo set_eventQueue eventQueue app length batchSize].
  destruct (size <=? 1)%nat.
  - unfold flush, sendEvents. cbn.
    destruct (onLine b); cbn; (split; [reflexivity|]);
      unfold held_ids, snapshot_ids, sent_ids; cbn;
      intros x; rewrite ?elem_of_cons, ?elem_of_nil; tauto.
  - cbn. split; [reflexivity|].
    unfold held_ids, snapshot_ids, sent_ids; cbn.
    intros x; rewrite ?elem_of_cons, ?elem_of_nil; tauto.
Qed.

Lemma constructor_overwrites_snapshot_witness :
  let a := construct (default_config "key") None
             (sample_browser (Some [queued "old1" 0; queued "old2" 1]))
             "session_1" "e1" "t1" in
  id <$> eventQueue a = ["e1"] /\ snapshot_ids a = ["e1"].
Proof.
  intros a.
  destruct (constructor_overwrites_snapshot (default_config "key") None
              (sample_browser (Some [queued "old1" 0; queued "old2" 1]))
              "session_1" "e1" "t1" eq_refl) as [Hsnap _].
  fold a in Hsnap. unfold snapshot_ids. rewrite Hsnap. simpl.
  split; vm_compute; reflexivity.
Defined.

(** With the offline mode off, a stored queue replaces the queue the
    constructor has just filled: unless the batch size is 1, the first page
    view is neither kept nor sent. *)
Theorem constructor_loads_over_page_view :
  forall (cfg : AnalyticsConfig) (user : option string) (b : Browser)
         (sid eid now : string) (saved : list QueuedEvent),
    offlineEnabled cfg = false ->
    stored_queue b = Some saved ->
    (1 < batchSize cfg)%nat ->
    let a := construct cfg user b sid eid now in
    eventQueue a = saved /\ network a = [] /\ inflight a = [].
Proof.
  intros cfg user b sid eid now saved Hoff Hsaved Hbatch a. subst a.
  destruct cfg as [key url dbg size interval attempts offline].
  simpl in Hoff, Hbatch. subst offline.
  unfold construct, page, track, loadQueuedEvents, collectDeviceInfo.
  cbn [config set_deviceInfo set_eventQueue eventQueue app length batchSize].
  replace (size <=? 1)%nat with false by (symmetry; apply Nat.leb_gt; lia).
  cbn. by rewrite Hsaved.
Qed.

Lemma constructor_loads_over_page_view_witness :
  let cfg := {| apiKey := "key"; apiUrl := "http://localhost:3001/api/v1";
                debug := false; batchSize := 20; flushInterval := 10000;
                retryAttempts := 3; offlineEnabled := false |} in
  eventQueue (construct cfg None (sample_browser (Some [queued "old1" 0]))
                "session_1" "e1" "t1") = [queued "old1" 0].
Proof.
  intros cfg.
  apply (constructor_loads_over_page_view cfg None
           (sample_browser (Some [queued "old1" 0])) "session_1" "e1" "t1"
           [queued "old1" 0] eq_refl eq_refl).
  simpl. lia.
Defined.

(** [identify] records the new id as the previous one: the event it tracks
    carries [previous_user_id] equal to the id just set, whatever the id
    was before. *)
Theorem identify_loses_previous_id :
  forall (a : Analytics) (eid now uid : string) (props : gmap string jval),
    (length (eventQueue a) + 1 < batchSize (config a))%nat ->
    let a' := identify eid now uid props a in
    userId a' = Some uid /\
    exists ev,
      eventQueue a' = eventQueue a ++ [ev] /\
      id ev = eid /\ event_name ev = "user_identify" /\
      properties ev !! "previous_user_id" = Some (JStr uid).
Proof.
  intros [cfg u s q on dinfo hb ls nw infl] eid now uid props.
  destruct cfg as [key url dbg size interval attempts offline].
  cbn [eventQueue config batchSize]. intros Hroom. cbv zeta.
  unfold identify, track.
  cbn [config set_userId set_eventQueue eventQueue userId sessionId deviceInfo
       batchSize offlineEnabled].
  rewrite length_app. cbn [length].
  replace (size <=? length q + 1)%nat with false
    by (symmetry; apply Nat.leb_gt; lia).
  destruct offline; cbn; (split; [reflexivity|]);
    eexists; (split; [reflexivity|]); cbn; repeat split;
    apply lookup_union_Some_l, lookup_insert_eq.
Qed.

Lemma identify_loses_previous_id_witness :
  let a := SDKLife.set_userId (Some "alice") (idle (default_config "key") true) in
  exists ev,
    eventQueue (identify "e1" "t1" "bob" ∅ a) = [ev] /\
    properties ev !! "previous_user_id" = Some (JStr "bob").
Proof.
  intros a.
  destruct (identify_loses_previous_id a "e1" "t1" "bob" ∅) as [_ (ev & Hq & _ & _ & Hp)].
  - simpl. lia.
  - exists ev. split; [exact Hq|exact Hp].
Defined.

(** [reset] empties the queue and, with the offline mode on, removes the
    snapshot, but leaves the pending requests alone: when one of them fails
    afterwards, its events (tracked before the reset, under the old
    identity) are queued again. *)
Theorem reset_keeps_pending_requests :
  forall (a : Analytics) (sid : string) (i : nat) (events : list QueuedEvent),
    inflight a !! i = Some events ->
    let r := reset sid a in
    eventQueue r = [] /\ userId r = None /\ sessionId r = sid /\
    (offlineEnabled (config a) = true -> localStorage r = None) /\
    inflight r = inflight a /\
    eventQueue (settle i false r)
      = bump <$> List.filter (fun e => (retries e <? retryAttempts (config a))%nat) events.
Proof.
  intros a sid i events Hi r. subst r. unfold reset.
  cbn [config set_userId set_sessionId set_eventQueue].
  destruct (offlineEnabled (config a)) eqn:Hoff; cbn;
    (repeat split; try done);
    unfold settle; cbn; rewrite Hi; rewrite sendEvents_failed_queue; cbn;
    by rewrite app_nil_r.
Qed.

Lemma reset_keeps_pending_requests_witness :
  let a := pending [queued "a" 0; queued "b" 3] [queued "c" 0] in
  eventQueue (reset "session_2" a) = [] /\
  eventQueue (settle 0 false (reset "session_2" a)) = [queued "a" 1].
Proof.
  intros a.
  destruct (reset_keeps_pending_requests a "session_2" 0 [queued "a" 0; queued "b" 3]
              eq_refl) as (Hq & _ & _ & _ & _ & Hback).
  split; [exact Hq|exact Hback].
Defined.

(** While the instance is offline (offline mode on), no request is put on
    the wire by [track], by the timer, by an asynchronous [flush] or by the
    settling of earlier requests. *)
Theorem offline_sends_nothing :
  forall (acts : list Action) (a : Analytics),
    offlineEnabled (config a) = true ->
    isOnline a = false ->
    Forall (fun act => act <> OnlineSignal /\ act <> Flush true) acts ->
    network (run acts a) = network a /\ isOnline (run acts a) = false.
Proof.
  induction acts as [|act acts IH]; intros a Hoff Hon Hacts; [done|].
  apply Forall_cons in Hacts as [[Hact1 Hact2] Hacts].
  assert (Hflush : forall s, offlineEnabled (config s) = true -> isOnline s = false ->
            network (flush false s) = network s /\
            isOnline (flush false s) = false /\ config (flush false s) = config s).
  { intros s Hc Ho. unfold flush, sendEvents.
    destruct (eventQueue s); [done|]. cbn. by rewrite Ho, Hc. }
  assert (Hstep : network (step a act) = network a /\ isOnline (step a act) = false /\
                  config (step a act) = config a).
  { destruct act as [eid now name props|synchronous| | | |i ok]; simpl.
    - unfold track.
      set (a1 := set_eventQueue _ a).
      destruct (batchSize (config a1) <=? length (eventQueue a1))%nat.
      + destruct (Hflush a1 Hoff Hon) as (Hn & Ho & Hc).
        rewrite Hc. change (config a1) with (config a). rewrite Hoff. cbn.
        rewrite Hn, Ho, Hc. done.
      + change (config a1) with (config a). rewrite Hoff. done.
    - destruct synchronous; [done|]. by apply Hflush.
    - unfold periodicFlush. destruct (0 <? length (eventQueue a))%nat; [|done].
      by apply Hflush.
    - done.
    - rewrite Hoff. done.
    - unfold settle. destruct (inflight a !! i) as [events|]; [|done].
      destruct ok.
      + unfold sendEvents_delivered. cbn. by rewrite Hoff.
      + unfold sendEvents_failed. cbn. by rewrite Hoff. }
  destruct Hstep as (Hn & Ho & Hc).
  change (run (act :: acts) a) with (run acts (step a act)).
  destruct (IH (step a act)) as [IHn IHo]; [by rewrite Hc|done|done|].
  by rewrite IHn, IHo, Hn.
Qed.

Lemma offline_sends_nothing_witness :
  network (run [Track "e1" "t1" "click" ∅; TimerFires; Track "e2" "t2" "click" ∅;
                Flush false]
               (idle (default_config "key") false)) = [].
Proof.
  apply (offline_sends_nothing _ (idle (default_config "key") false)).
  - reflexivity.
  - reflexivity.
  - repeat constructor; discriminate.
Defined.

End SDKLifeFacts.


(** ** Client event buffer: bounded retries *)

Module RetriesFacts.
Import Json SDK SDKLife Retries.

Lemma occurrences_app x l k :
  occurrences x (l ++ k) = (occurrences x l + occurrences x k)%nat.
Proof. unfold occurrences. by rewrite filter_app, length_app. Qed.

Lemma occurrences_notin x l : x ∉ l -> occurrences x l = 0%nat.
Proof.
  unfold occurrences. induction l as [|y l IH]; [done|].
  intros Hx. apply not_elem_of_cons in Hx as [Hxy Hx].
  rewrite filter_cons_False by congruence. by apply IH.
Qed.

Lemma occurrences_pos x l : (0 < occurrences x l)%nat -> x ∈ l.
Proof.
  intros Hpos. destruct (decide (x ∈ l)) as [|Hn]; [done|].
  rewrite (occurrences_notin x l Hn) in Hpos. lia.
Qed.

Lemma occurrences_NoDup x l : NoDup l -> (occurrences x l <= 1)%nat.
Proof.
  induction 1 as [|y l Hy Hnd IH]; [cbv; lia|].
  destruct (decide (y = x)) as [->|Hne].
  - unfold occurrences. rewrite filter_cons_True by done. simpl.
    fold (occurrences x l). rewrite (occurrences_notin x l Hy). lia.
  - unfold occurrences. rewrite filter_cons_False by done. exact IH.
Qed.

Lemma ids_bump (l : list QueuedEvent) : id <$> (bump <$> l) = id <$> l.
Proof. rewrite <- list_fmap_compose. by apply list_fmap_ext. Qed.

Lemma elem_of_ids (l : list QueuedEvent) x :
  x ∈ id <$> l -> exists e, e ∈ l /\ id e = x.
Proof. intros Hx. apply list_elem_of_fmap in Hx as (e & -> & He). eauto. Qed.

Lemma elem_of_pending_ids (pending : list (list QueuedEvent)) b e :
  b ∈ pending -> e ∈ b -> id e ∈ (batch ← pending; id <$> batch).
Proof.
  intros Hb He. apply list_elem_of_bind. exists b. split; [|done].
  by apply list_elem_of_fmap_2.
Qed.

(** *** The invariant under each change of the queue *)

Lemma bounded_mono R used used' queue pending posted :
  (forall x, x ∈ used -> x ∈ used') ->
  bounded R used queue pending posted -> bounded R used' queue pending posted.
Proof.
  intros Hsub (Hnd & Hq & Hp & Hb & Hu). repeat split; try done.
  - by apply Hq.
  - by apply Hq.
  - by eapply Hp.
  - by eapply Hp.
  - intros x Hx. by apply Hsub, Hu.
Qed.

(** [track]: an event with a fresh id and no retry joins the queue. *)
Lemma bounded_push R used queue pending posted ev :
  id ev ∉ used -> retries ev = 0%nat ->
  bounded R used queue pending posted ->
  bounded R (id ev :: used) (queue ++ [ev]) pending posted.
Proof.
  intros Hfresh Hr (Hnd & Hq & Hp & Hb & Hu).
  assert (Hnew : (id ev ∉ ids_held queue pending) /\ occurrences (id ev) posted = 0%nat).
  { split.
    - intros Hin. apply Hfresh, Hu. by left.
    - destruct (occurrences (id ev) posted) eqn:E; [done|].
      exfalso. apply Hfresh, Hu. right. lia. }
  destruct Hnew as [Hnh Hocc].
  assert (Hperm : ids_held (queue ++ [ev]) pending ≡ₚ id ev :: ids_held queue pending).
  { unfold ids_held. rewrite fmap_app. simpl.
    set (q := id <$> queue). set (p := pending ≫= fmap id). set (x := id ev).
    clearbody q p x. solve_Permutation. }
  repeat split.
  - rewrite Hperm. by apply NoDup_cons.
  - apply elem_of_app in H as [He|He]; [by apply Hq|].
    apply list_elem_of_singleton in He as ->. lia.
  - apply elem_of_app in H as [He|He]; [by apply Hq|].
    apply list_elem_of_singleton in He as ->. lia.
  - by eapply Hp.
  - by eapply Hp.
  - done.
  - intros x [Hx|Hx].
    + rewrite Hperm in Hx. apply elem_of_cons in Hx as [->|Hx]; [by left|].
      right. apply Hu. by left.
    + right. apply Hu. by right.
Qed.

(** [flush] while offline: the queue is emptied and nothing is posted. *)
Lemma bounded_drop R used queue pending posted :
  bounded R used queue pending posted -> bounded R used [] pending posted.
Proof.
  intros (Hnd & Hq & Hp & Hb & Hu).
  assert (Hin : forall x, x ∈ ids_held [] pending -> x ∈ ids_held queue pending).
  { intros x Hx. unfold ids_held in *. simpl in Hx. apply elem_of_app. by right. }
  repeat split.
  - unfold ids_held in *. apply NoDup_app in Hnd as (_ & _ & Hnd). exact Hnd.
  - by apply elem_of_nil in H.
  - by apply elem_of_nil in H.
  - by eapply Hp.
  - by eapply Hp.
  - done.
  - intros x [Hx|Hx]; apply Hu; [left; by apply Hin|by right].
Qed.

(** [flush] while online: the whole queue becomes one pending [fetch]. *)
Lemma bounded_send R used queue pending posted :
  bounded R used queue pending posted ->
  bounded R used [] (pending ++ [queue]) (posted ++ (id <$> queue)).
Proof.
  intros (Hnd & Hq & Hp & Hb & Hu).
  unfold ids_held in Hnd. pose proof Hnd as Hnd'.
  apply NoDup_app in Hnd' as (Hndq & Hdisj & Hndp).
  assert (Hheld : forall x, x ∈ ids_held [] (pending ++ [queue]) <->
                            x ∈ ids_held queue pending).
  { intros x. unfold ids_held. rewrite bind_app. simpl. rewrite app_nil_r.
    rewrite !elem_of_app. tauto. }
  assert (Hinq : forall e, e ∈ queue ->
            (occurrences (id e) (posted ++ (id <$> queue)) <= S (retries e)
             /\ retries e <= R)%nat).
  { intros e He. rewrite occurrences_app.
    pose proof (occurrences_NoDup (id e) _ Hndq). destruct (Hq e He). lia. }
  repeat split.
  - unfold ids_held. rewrite bind_app. simpl. rewrite !app_nil_r.
    apply NoDup_app. repeat split; [done| |done].
    intros x Hx Hxq. exact (Hdisj x Hxq Hx).
  - by apply elem_of_nil in H.
  - by apply elem_of_nil in H.
  - apply elem_of_app in H as [Hin|Hin].
    + rewrite occurrences_app, (occurrences_notin _ (id <$> queue)).
      * destruct (Hp b e Hin H0). lia.
      * intros Hxq. apply (Hdisj _ Hxq). by eapply elem_of_pending_ids.
    + apply list_elem_of_singleton in Hin as ->. by apply Hinq.
  - apply elem_of_app in H as [Hin|Hin].
    + by eapply Hp.
    + apply list_elem_of_singleton in Hin as ->. by apply Hinq.
  - intros. rewrite occurrences_app.
    destruct (decide (x ∈ id <$> queue)) as [Hx|Hx].
    + apply elem_of_ids in Hx as (e & He & <-).
      pose proof (occurrences_NoDup (id e) _ Hndq). destruct (Hq e He). lia.
    + rewrite (occurrences_notin _ _ Hx). specialize (Hb x). lia.
  - intros x [Hx|Hx]; apply Hu.
    + left. by apply Hheld.
    + rewrite occurrences_app in Hx.
      destruct (decide (x ∈ id <$> queue)) as [Hxq|Hxq].
      * left. apply elem_of_app. by left.
      * rewrite (occurrences_notin _ _ Hxq) in Hx. right. lia.
Qed.

Lemma ids_held_delete queue (pending : list (list QueuedEvent)) i :
  ids_held queue (delete i pending) `sublist_of` ids_held queue pending.
Proof.
  unfold ids_held. apply sublist_app; [done|].
  apply bind_sublist, sublist_delete.
Qed.

(** A pending [fetch] resolves: its batch leaves the pending requests. *)
Lemma bounded_delivered R used queue pending posted i :
  bounded R used queue pending posted ->
  bounded R used queue (delete i pending) posted.
Proof.
  intros (Hnd & Hq & Hp & Hb & Hu).
  pose proof (ids_held_delete queue pending i) as Hsub.
  repeat split.
  - by eapply sublist_NoDup.
  - by apply Hq.
  - by apply Hq.
  - apply list_elem_of_delete_inv in H. by eapply Hp.
  - apply list_elem_of_delete_inv in H. by eapply Hp.
  - done.
  - intros x [Hx|Hx]; apply Hu; [left|by right].
    by eapply elem_of_sublist.
Qed.

Lemma filter_sublist {A} (p : A -> bool) (l : list A) : List.filter p l `sublist_of` l.
Proof.
  induction l as [|x l IH]; [constructor|].
  simpl. destruct (p x); by constructor.
Qed.

(** A pending [fetch] fails: the events of its batch below the ceiling go
    back to the front of the queue with their count raised, the others are
    dropped. *)
Lemma bounded_failed R used queue pending posted i b :
  pending !! i = Some b ->
  bounded R used queue pending posted ->
  bounded R used
    ((bump <$> List.filter (fun e => (retries e <? R)%nat) b) ++ queue)
    (delete i pending) posted.
Proof.
  intros Hi (Hnd & Hq & Hp & Hb & Hu).
  assert (Hin : b ∈ pending) by (by eapply list_elem_of_lookup_2).
  set (rb := List.filter (fun e => (retries e <? R)%nat) b).
  assert (Hsub : exists l, ids_held ((bump <$> rb) ++ queue) (delete i pending) `sublist_of` l
                           /\ l ≡ₚ ids_held queue pending).
  { exists ((id <$> b) ++ (id <$> queue) ++ (batch ← delete i pending; id <$> batch)). split.
    - unfold ids_held. rewrite fmap_app, ids_bump, <- app_assoc.
      apply sublist_app; [|done]. apply fmap_sublist, filter_sublist.
    - unfold ids_held. rewrite (delete_Permutation pending i b Hi) at 2.
      rewrite bind_cons.
      set (x := id <$> b). set (q := id <$> queue).
      set (d := delete i pending ≫= _). clearbody x q d. solve_Permutation. }
  destruct Hsub as (l & Hsub & Hperm).
  assert (Hback : forall e, e ∈ bump <$> rb ->
            (occurrences (id e) posted <= retries e <= R)%nat).
  { intros e' He'. apply list_elem_of_fmap in He' as (e & -> & He).
    apply list_elem_of_In, filter_In in He as [He Hlt].
    apply list_elem_of_In in He. apply Nat.ltb_lt in Hlt.
    destruct (Hp b e Hin He). simpl. lia. }
  repeat split.
  - eapply sublist_NoDup; [|exact Hsub]. by rewrite Hperm.
  - apply elem_of_app in H as [He|He]; [by apply Hback|by apply Hq].
  - apply elem_of_app in H as [He|He]; [by apply Hback|by apply Hq].
  - apply list_elem_of_delete_inv in H. by eapply Hp.
  - apply list_elem_of_delete_inv in H. by eapply Hp.
  - done.
  - intros x [Hx|Hx]; apply Hu; [left|by right].
    rewrite <- Hperm. by eapply elem_of_sublist.
Qed.

(** *** The invariant under each operation of the instance *)

Lemma fetched_ids_fetch a events :
  fetched_ids (set_network (network a ++ [Fetch events]) a)
  = fetched_ids a ++ (id <$> events).
Proof. unfold fetched_ids. simpl. rewrite bind_app. simpl. by rewrite app_nil_r. Qed.

Lemma flush_cases synchronous a :
  config (flush synchronous a) = config a /\
  ((eventQueue (flush synchronous a) = eventQueue a /\
    inflight (flush synchronous a) = inflight a /\
    fetched_ids (flush synchronous a) = fetched_ids a) \/
   (eventQueue (flush synchronous a) = [] /\
    inflight (flush synchronous a) = inflight a /\
    fetched_ids (flush synchronous a) = fetched_ids a) \/
   (eventQueue (flush synchronous a) = [] /\
    inflight (flush synchronous a) = inflight a ++ [eventQueue a] /\
    fetched_ids (flush synchronous a) = fetched_ids a ++ (id <$> eventQueue a))).
Proof.
  unfold flush. destruct (eventQueue a) as [|e q] eqn:E; [by auto|].
  unfold sendEvents, sendEventsSync. simpl.
  destruct (negb (isOnline a) && offlineEnabled (config a)), synchronous; simpl;
    try destruct (hasBeacon a); simpl; (split; [reflexivity|]).
  all: try (right; left; repeat split; unfold fetched_ids; simpl;
            rewrite ?bind_app; simpl; by rewrite ?app_nil_r).
  all: right; right; repeat split; unfold fetched_ids; simpl;
       rewrite ?bind_app; simpl; by rewrite ?app_nil_r.
Qed.

Lemma flush_invariant synchronous used a :
  retry_invariant used a -> retry_invariant used (flush synchronous a).
Proof.
  unfold retry_invariant.
  destruct (flush_cases synchronous a) as [-> [(-> & -> & ->)|[(-> & -> & ->)|(-> & -> & ->)]]].
  - done.
  - apply bounded_drop.
  - apply bounded_send.
Qed.

Lemma track_invariant used a eid now name props :
  eid ∉ used -> retry_invariant used a ->
  retry_invariant (eid :: used) (track eid now name props a).
Proof.
  intros Hfresh Hinv. unfold track.
  set (event := {| id := eid; retries := 0%nat |}).
  set (a1 := set_eventQueue (eventQueue a ++ [event]) a).
  assert (H1 : retry_invariant (eid :: used) a1).
  { unfold retry_invariant. subst a1. simpl.
    by apply (bounded_push _ used _ _ _ event). }
  clearbody a1.
  destruct (batchSize (config a1) <=? length (eventQueue a1))%nat.
  - destruct (offlineEnabled (config (flush false a1))); by apply flush_invariant.
  - by destruct (offlineEnabled (config a1)).
Qed.

Lemma settle_invariant used a i ok :
  retry_invariant used a -> retry_invariant used (settle i ok a).
Proof.
  intros Hinv. unfold settle. destruct (inflight a !! i) as [events|] eqn:Ei; [|done].
  destruct ok.
  - unfold sendEvents_delivered. simpl.
    destruct (offlineEnabled (config a)); by apply bounded_delivered.
  - unfold sendEvents_failed. simpl.
    destruct (offlineEnabled (config a)); by apply bounded_failed.
Qed.

Lemma step_invariant used a act :
  (forall x, tracks x act -> x ∉ used) ->
  retry_invariant used a ->
  retry_invariant (tracked_ids [act] ++ used) (step a act).
Proof.
  intros Hfresh Hinv.
  destruct act as [eid now name props|synchronous| | | |i ok]; simpl.
  - apply track_invariant; [by apply Hfresh|done].
  - by apply flush_invariant.
  - unfold periodicFlush. destruct (0 <? length (eventQueue a))%nat; [|done].
    by apply flush_invariant.
  - destruct (offlineEnabled (config a)); [|done]. unfold handleOnline.
    destruct (0 <? length (eventQueue (set_isOnline true a)))%nat; [|done].
    by apply flush_invariant.
  - by destruct (offlineEnabled (config a)).
  - by apply settle_invariant.
Qed.

Lemma tracked_ids_cons act acts :
  tracked_ids (act :: acts) = tracked_ids [act] ++ tracked_ids acts.
Proof. unfold tracked_ids. rewrite !bind_cons. simpl. by rewrite app_nil_r. Qed.

Lemma run_invariant acts : forall used a,
  NoDup (tracked_ids acts) ->
  (forall x, x ∈ tracked_ids acts -> x ∉ used) ->
  retry_invariant used a ->
  retry_invariant (tracked_ids acts ++ used) (run acts a).
Proof.
  induction acts as [|act acts IH]; intros used a Hnd Hfresh Hinv; [done|].
  rewrite tracked_ids_cons in Hnd, Hfresh |- *.
  apply NoDup_app in Hnd as (Hnd1 & Hdisj & Hnd2).
  change (run (act :: acts) a) with (run acts (step a act)).
  eapply bounded_mono; [|apply (IH (tracked_ids [act] ++ used))].
  - intros x. rewrite !elem_of_app. tauto.
  - done.
  - intros x Hx. rewrite elem_of_app. intros [Hx1|Hx2].
    + by apply (Hdisj x).
    + apply (Hfresh x); [|done]. apply elem_of_app. by right.
  - apply step_invariant; [|done].
    intros x Hx. apply Hfresh, elem_of_app. left.
    destruct act; simpl in *; try done. subst. by apply list_elem_of_singleton.
Qed.

Lemma step_config a act : config (step a act) = config a.
Proof.
  destruct act as [eid now name props|synchronous| | | |i ok]; simpl.
  - unfold track. cbv zeta.
    set (a1 := set_eventQueue _ a). change (config a) with (config a1).
    clearbody a1.
    destruct (batchSize (config a1) <=? length (eventQueue a1))%nat.
    + destruct (offlineEnabled (config (flush false a1)));
        apply (proj1 (flush_cases false a1)).
    + by destruct (offlineEnabled (config a1)).
  - apply (proj1 (flush_cases synchronous a)).
  - unfold periodicFlush. destruct (0 <? length (eventQueue a))%nat; [|done].
    apply (proj1 (flush_cases false a)).
  - destruct (offlineEnabled (config a)); [|done]. unfold handleOnline.
    destruct (0 <? length (eventQueue (set_isOnline true a)))%nat; [|done].
    apply (proj1 (flush_cases false (set_isOnline true a))).
  - by destruct (offlineEnabled (config a)).
  - unfold settle. destruct (inflight a !! i) as [events|]; [|done].
    destruct ok; unfold sendEvents_delivered, sendEvents_failed; simpl;
      by destruct (offlineEnabled (config a)).
Qed.

Lemma run_config acts : forall a, config (run acts a) = config a.
Proof.
  induction acts as [|act acts IH]; intros a; [done|].
  change (run (act :: acts) a) with (run acts (step a act)).
  by rewrite IH, step_config.
Qed.

Lemma idle_invariant cfg online : retry_invariant [] (idle cfg online).
Proof.
  repeat split; simpl; try (intros; by apply elem_of_nil in H).
  - constructor.
  - intros x. cbv. lia.
  - intros x [Hx|Hx]; [done|]. cbv in Hx. lia.
Qed.

(** Bounded retries.  On an instance that starts empty, whatever is
    tracked, flushed, signalled and settled afterwards, and however the
    requests end, no event is posted by [fetch] more than
    [retryAttempts + 1] times, provided [generateEventId] never yields the
    same id twice. *)
Theorem fetch_count_bounded :
  forall (cfg : AnalyticsConfig) (online : bool) (acts : list Action) (x : string),
    NoDup (tracked_ids acts) ->
    (occurrences x (fetched_ids (run acts (idle cfg online))) <= retryAttempts cfg + 1)%nat.
Proof.
  intros cfg online acts x Hnd.
  destruct (run_invariant acts [] (idle cfg online) Hnd) as (_ & _ & _ & Hb & _).
  - intros y _. apply not_elem_of_nil.
  - apply idle_invariant.
  - specialize (Hb x). rewrite run_config in Hb. simpl in Hb. lia.
Qed.

Lemma fetch_count_bounded_witness :
  let round := [Flush false; Settles 0 false] in
  let acts := Track "e1" "t1" "click" ∅ :: round ++ round ++ round ++ round ++ round in
  let a := run acts (idle (default_config "key") true) in
  (occurrences "e1" (fetched_ids a) <= 4)%nat /\
  occurrences "e1" (fetched_ids a) = 4%nat /\ held_ids a = [].
Proof.
  intros round acts a. split.
  - apply (fetch_count_bounded (default_config "key") true acts "e1"). compute_done.
  - vm_compute. split; reflexivity.
Defined.

(** An instance that starts empty never holds an event twice: the ids of
    the queue and of the pending requests are distinct, so no event is
    queued twice, pending twice, or queued while a request carrying it is
    pending; and every event it holds has a [retries] count within the
    ceiling. *)
Theorem held_events_distinct :
  forall (cfg : AnalyticsConfig) (online : bool) (acts : list Action),
    NoDup (tracked_ids acts) ->
    let a := run acts (idle cfg online) in
    NoDup (held_ids a) /\
    (forall e, e ∈ eventQueue a -> (retries e <= retryAttempts cfg)%nat) /\
    (forall b e, b ∈ inflight a -> e ∈ b -> (retries e <= retryAttempts cfg)%nat) /\
    (forall x, x ∈ held_ids a -> x ∈ tracked_ids acts).
Proof.
  intros cfg online acts Hnd a.
  destruct (run_invariant acts [] (idle cfg online) Hnd) as (Hh & Hq & Hp & _ & Hu).
  - intros y _. apply not_elem_of_nil.
  - apply idle_invariant.
  - fold a in Hh, Hq, Hp, Hu. subst a. rewrite run_config in Hq, Hp. simpl in Hq, Hp.
    split; [exact Hh|]. split; [|split].
    + intros e He. by apply Hq.
    + intros b e Hb He. by eapply Hp.
    + intros x Hx. rewrite app_nil_r in Hu. apply Hu. by left.
Qed.

Lemma held_events_distinct_witness :
  let acts := [Track "e1" "t1" "click" ∅; Track "e2" "t2" "click" ∅; Flush false;
               Track "e3" "t3" "click" ∅; Settles 0 false] in
  NoDup (held_ids (run acts (idle (default_config "key") true))) /\
  held_ids (run acts (idle (default_config "key") true)) = ["e1"; "e2"; "e3"].
Proof.
  intros acts. split.
  - apply (held_events_distinct (default_config "key") true acts). compute_done.
  - vm_compute. reflexivity.
Defined.

End RetriesFacts.


(** ** Automatic tracking: scroll milestones and time on page *)

Module AutoTrackerFacts.
Import AutoTracker.

Lemma fold_mark depth (points : list Z) : forall tracked calls,
  NoDup points ->
  let fresh :=
    List.filter (fun p => reaches depth p && negb (bool_decide (p ∈ tracked))) points in
  fold_left (mark depth) points (tracked, calls)
  = (tracked ++ fresh,
     calls ++ ((fun p => {| depth_percent := p; max_scroll := depth |}) <$> fresh)).
Proof.
  induction points as [|p points IH]; intros tracked calls Hnd fresh; subst fresh.
  - simpl. by rewrite !app_nil_r.
  - apply NoDup_cons in Hnd as [Hp Hnd].
    cbn [fold_left List.filter]. unfold mark at 2. cbn [fst snd].
    destruct (reaches depth p && negb (bool_decide (p ∈ tracked))) eqn:E.
    + rewrite IH by done. cbv zeta.
      rewrite (filter_ext_in
                 (fun q => reaches depth q && negb (bool_decide (q ∈ tracked ++ [p])))
                 (fun q => reaches depth q && negb (bool_decide (q ∈ tracked)))).
      * by rewrite fmap_cons, <- !app_assoc.
      * intros q Hq. apply list_elem_of_In in Hq. f_equal. f_equal.
        apply bool_decide_ext. rewrite elem_of_app, list_elem_of_singleton.
        split; [|by left]. intros [Hin| ->]; done.
    + by rewrite IH.
Qed.

Lemma reaches_mono s m p :
  exceeds s m = true -> reaches m p = true -> reaches s p = true.
Proof.
  destruct s, m; simpl; try done.
  intros H1 H2. apply Z.ltb_lt in H1. apply Z.leb_le in H2. apply Z.leb_le. lia.
Qed.

Lemma reaches_below s m p :
  exceeds s m = false -> reaches m 0 = true -> reaches s p = true -> reaches m p = true.
Proof.
  destruct s, m; simpl; try done.
  intros H1 _ H2. apply Z.ltb_ge in H1. apply Z.leb_le in H2. apply Z.leb_le. lia.
Qed.

(** The points reached at the earlier maximum, followed by the points the
    new reading adds, are the points the new reading reaches. *)
Lemma milestones_extend s m :
  exceeds s m = true -> reaches m 0 = true ->
  let tracked := List.filter (reaches m) trackingPoints in
  tracked ++ List.filter (fun p => reaches s p && negb (bool_decide (p ∈ tracked)))
               trackingPoints
  = List.filter (reaches s) trackingPoints.
Proof.
  intros Hs Hm tracked. subst tracked. unfold trackingPoints.
  destruct s as [a| | |], m as [b| | |]; simpl in Hs, Hm; try done.
  - apply Z.ltb_lt in Hs. cbn [List.filter reaches].
    destruct (Z.leb_spec 25 b), (Z.leb_spec 50 b), (Z.leb_spec 75 b), (Z.leb_spec 100 b);
      try lia;
      destruct (Z.leb_spec 25 a), (Z.leb_spec 50 a), (Z.leb_spec 75 a), (Z.leb_spec 100 a);
      try lia; reflexivity.
  - cbn [List.filter reaches].
    destruct (Z.leb_spec 25 b), (Z.leb_spec 50 b), (Z.leb_spec 75 b), (Z.leb_spec 100 b);
      try lia; reflexivity.
Qed.

(** What holds between the state, the calls made and the readings seen. *)
Lemma trackScroll_invariant s st calls seen :
  trackedPoints st = depth_percent <$> calls ->
  trackedPoints st = List.filter (reaches (maxScrollDepth st)) trackingPoints ->
  (forall p, 0 < p -> reaches (maxScrollDepth st) p = existsb (fun r => reaches r p) seen) ->
  reaches (maxScrollDepth st) 0 = true ->
  Forall (fun m => reaches (max_scroll m) (depth_percent m) = true) calls ->
  let st' := (trackScroll s st).1 in
  let calls' := calls ++ (trackScroll s st).2 in
  trackedPoints st' = depth_percent <$> calls' /\
  trackedPoints st' = List.filter (reaches (maxScrollDepth st')) trackingPoints /\
  (forall p, 0 < p ->
     reaches (maxScrollDepth st') p = existsb (fun r => reaches r p) (seen ++ [s])) /\
  reaches (maxScrollDepth st') 0 = true /\
  Forall (fun m => reaches (max_scroll m) (depth_percent m) = true) calls'.
Proof.
  intros Hcalls Htracked Hseen Hmax Hall st' calls'. subst st' calls'.
  unfold trackScroll. destruct (exceeds s (maxScrollDepth st)) eqn:E.
  - rewrite fold_mark by (unfold trackingPoints; compute_done). cbv zeta. cbn [fst snd].
    set (fresh := List.filter _ trackingPoints).
    assert (Hfresh : trackedPoints st ++ fresh = List.filter (reaches s) trackingPoints).
    { subst fresh. rewrite Htracked. by apply milestones_extend. }
    repeat split.
    + rewrite fmap_app, <- Hcalls. cbn [trackedPoints app]. f_equal.
      rewrite <- list_fmap_compose. symmetry. apply list_fmap_id.
    + exact Hfresh.
    + intros p Hp. rewrite existsb_app, <- Hseen by done. simpl.
      rewrite orb_false_r.
      destruct (reaches (maxScrollDepth st) p) eqn:Ep; [|done].
      by apply (reaches_mono s (maxScrollDepth st)).
    + by apply (reaches_mono s (maxScrollDepth st)).
    + apply Forall_app. split; [done|]. apply Forall_fmap, Forall_forall.
      intros p Hp. simpl. subst fresh.
      apply list_elem_of_In, filter_In in Hp as [_ Hp].
      by apply andb_true_iff in Hp as [Hp _].
  - cbn [fst snd]. rewrite app_nil_r. repeat split; try done.
    intros p Hp. rewrite existsb_app, <- Hseen by done. simpl. rewrite orb_false_r.
    destruct (reaches s p) eqn:Es; [|by rewrite orb_false_r].
    rewrite orb_true_r. by apply (reaches_below s).
Qed.

Lemma scroll_run_invariant readings : forall st calls seen,
  trackedPoints st = depth_percent <$> calls ->
  trackedPoints st = List.filter (reaches (maxScrollDepth st)) trackingPoints ->
  (forall p, 0 < p -> reaches (maxScrollDepth st) p = existsb (fun r => reaches r p) seen) ->
  reaches (maxScrollDepth st) 0 = true ->
  Forall (fun m => reaches (max_scroll m) (depth_percent m) = true) calls ->
  let final := scroll_run readings (st, calls) in
  depth_percent <$> final.2
  = List.filter (fun p => existsb (fun r => reaches r p) (seen ++ readings)) trackingPoints /\
  Forall (fun m => reaches (max_scroll m) (depth_percent m) = true) final.2.
Proof.
  induction readings as [|s readings IH]; intros st calls seen H1 H2 H3 H4 H5 final.
  - subst final. cbn [scroll_run fold_left snd]. rewrite app_nil_r. split; [|done].
    rewrite <- H1, H2. apply filter_ext_in. intros p Hp. apply H3.
    unfold trackingPoints in Hp. simpl in Hp. lia.
  - subst final. unfold scroll_run. cbn [fold_left fst snd].
    destruct (trackScroll_invariant s st calls seen H1 H2 H3 H4 H5) as (G1 & G2 & G3 & G4 & G5).
    destruct (trackScroll s st) as [st' new]. cbn [fst snd] in *.
    replace (seen ++ s :: readings) with ((seen ++ [s]) ++ readings)
      by (by rewrite <- app_assoc).
    by apply (IH st' (calls ++ new) (seen ++ [s])).
Qed.

(** Scroll milestones.  Over any series of scroll readings, the
    [scroll_depth] calls made are, in this order, one for each of 25, 50,
    75 and 100 that some reading has reached: none is reported twice, none
    is reported before a smaller one that was reached too, and each call
    carries a [max_scroll] at or above its [depth_percent].  A reading of
    [NaN] (a page that cannot scroll) reports nothing. *)
Theorem scroll_milestones_once_in_order :
  forall readings : list Percent,
    let calls := (scroll_run readings (scroll_start, [])).2 in
    depth_percent <$> calls
    = List.filter (fun p => existsb (fun r => reaches r p) readings) trackingPoints /\
    Forall (fun m => reaches (max_scroll m) (depth_percent m) = true) calls.
Proof.
  intros readings calls. subst calls.
  apply (scroll_run_invariant readings scroll_start [] []); try done.
  intros p Hp. simpl. apply Z.leb_gt. lia.
Qed.

Example scroll_depth_run :
  (scroll_run [Finite 10; Finite 60; NaN; Finite 30; Finite 60; PosInfinity]
     (scroll_start, [])).2
  = [ {| depth_percent := 25; max_scroll := Finite 60 |};
      {| depth_percent := 50; max_scroll := Finite 60 |};
      {| depth_percent := 75; max_scroll := PosInfinity |};
      {| depth_percent := 100; max_scroll := PosInfinity |} ].
Proof. vm_compute. reflexivity. Qed.

(** *** Time on page *)

Lemma last_cons {A} (l : list A) : forall x d, List.last (x :: l) d = List.last l x.
Proof.
  induction l as [|y l IH]; intros x d; [done|].
  change (List.last (x :: y :: l) d) with (List.last (y :: l) d).
  by rewrite !IH.
Qed.

Lemma timer_run_bounds start changes : forall t T,
  chronological T (snd <$> changes) ->
  0 <= totalActiveTime t ->
  start <= lastActiveTime t <= T ->
  totalActiveTime t <= (if isActive t then lastActiveTime t else T) - start ->
  let t' := timer_run changes t in
  let T' := List.last (snd <$> changes) T in
  0 <= totalActiveTime t' /\
  start <= lastActiveTime t' <= T' /\
  totalActiveTime t' <= (if isActive t' then lastActiveTime t' else T') - start.
Proof.
  induction changes as [|[hidden now] changes IH]; intros t T Hchron H0 Hlast Htotal t' T';
    subst t' T'; [done|].
  simpl in Hchron. destruct Hchron as [Hnow Hchron].
  change (timer_run ((hidden, now) :: changes) t)
    with (timer_run changes (trackVisibility hidden now t)).
  rewrite fmap_cons, last_cons. cbn [snd].
  apply IH; [done| | |]; unfold trackVisibility;
    destruct hidden, (isActive t) eqn:Ea; simpl; rewrite ?Ea; lia.
Qed.

(** Time on page.  At the first [beforeunload] of a visit, when the clock
    does not run backwards, the seconds reported never exceed the time
    since [trackTimeOnPage] was called (rounded the same way); nothing is
    reported for a visit of less than 5.5 seconds; and the two fields of
    the call are the same number, the active time. *)
Theorem time_on_page_within_visit :
  forall (start now : Z) (changes : list (bool * Z)) (call : TimeOnPage),
    chronological start ((snd <$> changes) ++ [now]) ->
    (on_unload now (timer_run changes (timer_start start))).2 = Some call ->
    5500 <= now - start /\
    6 <= time_seconds call <= round_seconds (now - start) /\
    active_time_seconds call = time_seconds call.
Proof.
  intros start now changes call Hchron Hcall.
  assert (Hsplit : chronological start (snd <$> changes) /\
                   List.last (snd <$> changes) start <= now).
  { clear Hcall. generalize dependent start.
    induction (snd <$> changes) as [|x l IH]; intros start Hchron.
    - simpl in *. tauto.
    - simpl in Hchron. destruct Hchron as [Hx Hchron].
      destruct (IH x Hchron) as [H1 H2]. split; [by split|].
      by rewrite last_cons. }
  destruct Hsplit as [Hc Hlast].
  destruct (timer_run_bounds start changes (timer_start start) start Hc) as (H0 & H1 & H2);
    [simpl; lia..|].
  revert Hcall. unfold on_unload.
  set (t := timer_run changes (timer_start start)) in *.
  set (t' := if isActive t then _ else _).
  assert (Htotal : 0 <= totalActiveTime t' <= now - start).
  { subst t'. destruct (isActive t); simpl; lia. }
  generalize dependent (totalActiveTime t'). intros total Htotal.
  cbn [snd]. unfold round_seconds.
  destruct (5 <? (total + 500) / 1000) eqn:E; [|done].
  intros [= <-]. simpl. apply Z.ltb_lt in E.
  assert (Hmono : (total + 500) / 1000 <= (now - start + 500) / 1000)
    by (apply Z.div_le_mono; lia).
  assert (5500 <= total).
  { destruct (Z.le_gt_cases 5500 total) as [|Hlt]; [done|].
    assert ((total + 500) / 1000 <= 5); [|lia].
    apply Z.lt_succ_r, Z.div_lt_upper_bound; lia. }
  lia.
Qed.

Lemma time_on_page_within_visit_witness :
  (on_unload 20000 (timer_run [(true, 4000); (false, 9000)] (timer_start 1000))).2
  = Some {| time_seconds := 14; active_time_seconds := 14 |} /\
  14 <= round_seconds (20000 - 1000).
Proof.
  split; [reflexivity|].
  apply (time_on_page_within_visit 1000 20000 [(true, 4000); (false, 9000)]
           {| time_seconds := 14; active_time_seconds := 14 |}).
  - simpl. lia.
  - reflexivity.
Defined.

(** A second [beforeunload].  The listener keeps the sum it has made and
    leaves [lastActiveTime] where it was, so when it fires again on a page
    that stayed active (an unload the user cancelled), the stretch up to
    the first firing is counted a second time: the total is the time to
    the second firing plus the time to the first. *)
Theorem time_on_page_counted_twice :
  forall (now1 now2 : Z) (t : PageTimer),
    isActive t = true ->
    let t1 := (on_unload now1 t).1 in
    let t2 := (on_unload now2 t1).1 in
    totalActiveTime t2
    = totalActiveTime t + (now1 - lastActiveTime t) + (now2 - lastActiveTime t).
Proof.
  intros now1 now2 t Ha t1 t2. subst t1 t2. unfold on_unload.
  rewrite Ha. cbn. reflexivity.
Qed.

Lemma time_on_page_counted_twice_witness :
  totalActiveTime (on_unload 12000 (on_unload 10000 (timer_start 0)).1).1 = 22000 /\
  (on_unload 12000 (on_unload 10000 (timer_start 0)).1).2
  = Some {| time_seconds := 22; active_time_seconds := 22 |}.
Proof.
  split.
  - exact (time_on_page_counted_twice 10000 12000 (timer_start 0) eq_refl).
  - reflexivity.
Defined.

End AutoTrackerFacts.

(** ** Fan-out hub: who is in a room *)

Module HubFacts.
Import JS Json Realtime Hub.

Lemma members_socket_join sock r rooms s r' :
  s ∈ members (socket_join sock r rooms) r' <->
  s ∈ members rooms r' \/ (s = sock /\ r' = r).
Proof.
  unfold socket_join, members. destruct (decide (r' = r)) as [->|Hne].
  - rewrite lookup_insert_eq. simpl. rewrite elem_of_union, elem_of_singleton. tauto.
  - rewrite lookup_insert_ne by done. split; [by left|]. intros [H|[_ H]]; done.
Qed.

Lemma on_message_room rooms m :
  on_message rooms m = socket_join m.1 (room_of m.2) rooms.
Proof. destruct m as [sock []]; reflexivity. Qed.

Lemma members_hub_run msgs : forall rooms s r,
  s ∈ members (hub_run msgs rooms) r <->
  s ∈ members rooms r \/ exists m, (s, m) ∈ msgs /\ room_of m = r.
Proof.
  induction msgs as [|[sock m] msgs IH]; intros rooms s r.
  - simpl. split; [by left|]. intros [H|(m & H & _)]; [done|by apply elem_of_nil in H].
  - change (hub_run ((sock, m) :: msgs) rooms)
      with (hub_run msgs (on_message rooms (sock, m))).
    rewrite IH, on_message_room, members_socket_join. simpl. split.
    + intros [[H|[-> ->]]|(m' & Hin & Hr)].
      * by left.
      * right. exists m. split; [apply elem_of_cons; by left|done].
      * right. exists m'. split; [apply elem_of_cons; by right|done].
    + intros [H|(m' & Hin & Hr)]; [by left; left|].
      apply elem_of_cons in Hin as [[= -> ->]|Hin]; [by left; right|].
      right. eauto.
Qed.

Lemma room_of_inj m m' : room_of m = room_of m' -> m = m'.
Proof.
  destruct m, m'; simpl; intros H; try discriminate; by injection H as ->.
Qed.

(** Room isolation.  After any series of requests, on top of any earlier
    membership, the sockets a broadcast reaches are those already in its
    room and those that asked for exactly that project (for [new_event]
    and [metric_update]) or that dashboard (for [dashboard_update]).  No
    other request puts a socket in the room: not a request for another
    project or dashboard, and no [subscribe_events], whose rooms no
    broadcast addresses.  Nothing but the request is needed either: the
    listeners check nothing about the socket. *)
Theorem broadcast_reaches_subscribers :
  forall (msgs : list (string * Message)) (rooms : gmap string (gset string))
         (now : string) (b : Broadcast) (sock : string),
    (sock, channel (emission now b), payload (emission now b))
      ∈ deliveries (hub_run msgs rooms) (emission now b)
    <-> sock ∈ members rooms (room (emission now b)) \/ (sock, subscription b) ∈ msgs.
Proof.
  intros msgs rooms now b sock.
  assert (Hroom : room (emission now b) = room_of (subscription b)) by (by destruct b).
  unfold deliveries. rewrite list_elem_of_fmap. split.
  - intros (s & Heq & Hs). injection Heq as <-.
    apply elem_of_elements, members_hub_run in Hs as [Hs|(m & Hin & Hr)]; [by left|].
    right. rewrite Hroom in Hr. by apply room_of_inj in Hr as ->.
  - intros H. exists sock. split; [done|].
    apply elem_of_elements, members_hub_run.
    destruct H as [H|H]; [by left|]. right. by exists (subscription b).
Qed.

(** [getClientsByProject] counts the sockets that asked for the project,
    each once however often it asked. *)
Example clients_by_project :
  getClientsByProject
    (hub_run [("s1", JoinProject "p1"); ("s2", JoinProject "p2"); ("s1", JoinProject "p1");
              ("s3", SubscribeEvents "{}"); ("s4", JoinDashboard "p1")] ∅) "p1" = 1%nat.
Proof. vm_compute. reflexivity. Qed.

End HubFacts.

(** ** Pagination of [GET /pages] *)

Module PagesFacts.
Import JSNumbers Pages.

(** The defaults of [paginate] are out of reach of [GET /pages]: the route
    always passes two numbers, and a missing or unreadable parameter is
    passed as [NaN].  The limit handed to the store is the parsed [limit]
    parameter itself; it is 20 only when the request says 20.  The offset
    is a number only when both parameters are, and a limit of [NaN] never
    equals the number of rows, so [has_more] is then false. *)
Theorem pages_defaults_out_of_reach :
  forall (page_param limit_param : option string),
    let limit := (pages_pagination page_param limit_param).1 in
    let offset := (pages_pagination page_param limit_param).2 in
    limit = parseInt_param limit_param /\
    (forall o, offset = Some o ->
       exists p l, parseInt_param page_param = Some p /\
                   parseInt_param limit_param = Some l /\ o = (p - 1) * l) /\
    (limit_param = None -> limit = None /\ offset = None /\
                           forall n, has_more n limit = false) /\
    (page_param = None -> offset = None).
Proof.
  intros page_param limit_param limit offset. subst limit offset.
  unfold pages_pagination, paginate. simpl.
  split; [reflexivity|]. split; [|split].
  - intros o Ho. destruct (parseInt_param page_param) as [p|]; [|done].
    destruct (parseInt_param limit_param) as [l|]; [|done].
    injection Ho as <-. by exists p, l.
  - intros ->. simpl. by destruct (parseInt_param page_param).
  - by intros ->.
Qed.

Lemma pages_defaults_out_of_reach_witness :
  paginate None None = (Some 20, Some 0) /\
  pages_pagination None None = (None, None) /\
  pages_pagination (Some "2") (Some "50") = (Some 50, Some 50).
Proof.
  split; [reflexivity|].
  destruct (pages_defaults_out_of_reach None None) as (_ & _ & H & _).
  destruct (H eq_refl) as (H1 & H2 & _).
  split; [|reflexivity].
  by rewrite (surjective_pairing (pages_pagination None None)), H1, H2.
Defined.

End PagesFacts.

(** ** Ingestion gateway: limits, ids and what the client sends *)

Module GatewayFacts.
Import JS Json Ingest IngestFacts JSNumbers RecentEvents RecentEventsFacts SDK Wire.

(** A negative [limit] is not refused.  [GET /recent?limit=-k] asks Redis
    for the range from 0 to [-k - 1], which is the whole list but its last
    [k] entries: more than any limit the caller can have meant, up to 99
    events. *)
Theorem recent_negative_limit :
  forall (db : string -> Z -> option (list (gmap string jval)))
         (st : gmap string (list (gmap string jval))) (p : string)
         (limit_param : option string) (k : nat),
    parseInt_param limit_param = Some (- Z.of_nat k) ->
    (0 < k < length (cached st (recent_key p)))%nat ->
    let events := take (length (cached st (recent_key p)) - k) (cached st (recent_key p)) in
    get_recent db true st p limit_param = Recent events "cache" (length events) /\
    length events = (length (cached st (recent_key p)) - k)%nat.
Proof.
  intros db st p limit_param k Hparse Hk events.
  assert (Hlim : recent_limit limit_param = - Z.of_nat k).
  { unfold recent_limit. rewrite Hparse. unfold or_number.
    destruct (- Z.of_nat k) eqn:E; lia. }
  assert (Hrange : lrange (cached st (recent_key p)) 0 (- Z.of_nat k - 1) = events).
  { unfold lrange. set (l := cached st (recent_key p)) in *.
    repeat (change (0 <? 0) with false; cbv iota).
    replace (- Z.of_nat k - 1 <? 0) with true by (symmetry; apply Z.ltb_lt; lia).
    replace (Z.of_nat (length l) + (- Z.of_nat k - 1) <? 0) with false
      by (symmetry; apply Z.ltb_ge; lia).
    replace (Z.of_nat (length l) <=? 0) with false by (symmetry; apply Z.leb_gt; lia).
    replace (Z.of_nat (length l) <=? Z.of_nat (length l) + (- Z.of_nat k - 1)) with false
      by (symmetry; apply Z.leb_gt; lia).
    cbn [orb]. change (Z.to_nat 0) with 0%nat. rewrite drop_0.
    subst events. f_equal. lia. }
  assert (Hlen : length events = (length (cached st (recent_key p)) - k)%nat).
  { subst events. rewrite length_take. lia. }
  split; [|exact Hlen].
  unfold get_recent. rewrite Hlim, Hrange.
  replace (0 <? length events)%nat with true by (symmetry; apply Nat.ltb_lt; lia).
  done.
Qed.

Lemma recent_negative_limit_witness :
  let st : gmap string (list (gmap string jval)) :=
    {[ recent_key "p1" := [sample_event "c"; sample_event "b"; sample_event "a"] ]} in
  get_recent (fun _ _ => None) true st "p1" (Some "-1")
  = Recent [sample_event "c"; sample_event "b"] "cache" 2.
Proof.
  intros st.
  destruct (recent_negative_limit (fun _ _ => None) st "p1" (Some "-1") 1) as [H _].
  - reflexivity.
  - vm_compute. lia.
  - rewrite H. vm_compute. reflexivity.
Defined.

Lemma first_error_none checks :
  first_error checks = None -> Forall (fun c => c = None) checks.
Proof.
  induction checks as [|[e|] checks IH]; simpl; intros H; [constructor|done|].
  constructor; [done|by apply IH].
Qed.

Lemma first_error_some checks e :
  Some e ∈ checks -> exists e', first_error checks = Some e'.
Proof.
  induction checks as [|[e0|] checks IH]; intros Hin.
  - by apply elem_of_nil in Hin.
  - by exists e0.
  - apply elem_of_cons in Hin as [|Hin]; [done|]. by apply IH.
Qed.

(** A value the schema lets through has no key outside the schema. *)
Lemma validated_keys env i raw value key :
  eventSchema_validate env i raw = inr value ->
  key ∉ schema_keys -> value !! key = None.
Proof.
  unfold eventSchema_validate, eventSchema_complaint.
  destruct (first_error _) eqn:E; [done|]. intros [= <-] Hkey.
  apply first_error_none in E.
  assert (Hu : check_unknown env raw = None).
  { rewrite !Forall_cons in E. tauto. }
  assert (Hraw : raw !! key = None).
  { destruct (raw !! key) as [v|] eqn:Ek; [|done]. exfalso.
    unfold check_unknown in Hu.
    assert (Hin : In key (List.filter (fun k => bool_decide (k ∉ schema_keys))
                            (elements (dom raw)))).
    { apply filter_In. split.
      - apply list_elem_of_In, elem_of_elements, elem_of_dom. by exists v.
      - by apply bool_decide_eq_true_2. }
    destruct (List.filter (fun k => bool_decide (k ∈ _)) (key_order env raw)); [|done].
    by destruct (List.filter _ (elements (dom raw))). }
  assert (Hd : forall k d m, k ∈ schema_keys -> m !! key = None ->
                 with_default k d m !! key = None).
  { intros k d m Hk Hm. unfold with_default. destruct (m !! k); [done|].
    rewrite lookup_insert_ne; [done|]. by intros ->. }
  apply Hd; [compute_done|]. apply Hd; [compute_done|]. apply Hd; [compute_done|].
  unfold as_date. destruct (raw !! "timestamp") as [[]|]; try done.
  rewrite lookup_insert_ne; [done|]. intros <-. apply Hkey. compute_done.
Qed.

(** The [event_id] of the answer of [POST /] is never an id: the schema
    admits no [id] key, so [event.id || 'generated'] always takes its
    fallback, and the event stored carries no [id] either. *)
Theorem event_id_always_generated :
  forall (env : Env) (req : Request (gmap string jval)),
    status (post_event env req).2 = 201 ->
    json (post_event env req).2 !! "event_id" = Some (JStr "generated") /\
    Forall (fun ev => ev !! "id" = None) (inserted (post_event env req).1).
Proof.
  intros env req Hok.
  destruct (post_event_created env req Hok) as (value & Hv & Ht).
  assert (Hid : enrich env req value !! "id" = None).
  { unfold enrich. rewrite !lookup_insert_ne by done.
    apply (validated_keys env 0 (body req)); [done|compute_done]. }
  split.
  - revert Hok. unfold post_event. rewrite Hv. cbv zeta.
    unfold await, perform, ret, bind, try_catch.
    destruct (insert_resolves env _); [|done].
    destruct (redis_resolves env (LPush _ _)); [|done].
    destruct (redis_resolves env (LTrim _ _ _)); [|done].
    destruct (redis_resolves env (Expire _ _)); [|done].
    intros _. cbn [json snd]. rewrite Hid. cbn [default].
    rewrite lookup_insert_ne by done. apply lookup_insert_eq.
  - rewrite Ht. cbv zeta. unfold inserted. simpl. by repeat constructor.
Qed.

Lemma event_id_always_generated_witness :
  json (post_event (sample_env true) (sample_request (sample_event "signup"))).2
    !! "event_id" = Some (JStr "generated").
Proof.
  apply (event_id_always_generated (sample_env true)
           (sample_request (sample_event "signup"))).
  vm_compute. reflexivity.
Defined.

(** *** What the gateway makes of the client's batches *)

Lemma wire_session e : wire_event e !! "session_id" = Some (JStr (session_id e)).
Proof.
  unfold wire_event. rewrite !lookup_insert_ne by done. apply lookup_insert_eq.
Qed.

Lemma session_id_refused env e :
  (forall s, is_uuid env s = true -> startsWith s "session_" = false) ->
  client_session e ->
  exists err, eventSchema_validate env 0 (wire_event e) = inl err.
Proof.
  intros Huuid He. unfold eventSchema_validate, eventSchema_complaint.
  assert (Hs : exists err, check_uuid env false "session_id" (wire_event e) = Some err).
  { unfold check_uuid. rewrite wire_session.
    case_bool_decide; [by eexists|].
    destruct (is_uuid env (session_id e)) eqn:E; [|by eexists].
    apply Huuid in E. unfold client_session in He. congruence. }
  destruct Hs as (err & Hs).
  destruct (first_error_some
              [check_uuid env true "user_id" (wire_event e); check_event_name (wire_event e);
               check_properties (wire_event e); check_timestamp env (wire_event e);
               check_uuid env false "session_id" (wire_event e);
               check_platform (wire_event e); check_unknown env (wire_event e)] err)
    as (err' & ->); [|by eexists].
  rewrite Hs. do 4 apply list_elem_of_further. apply list_elem_of_here.
Qed.

Lemma client_batch_refused env projectId addr agent events :
  (forall s, is_uuid env s = true -> startsWith s "session_" = false) ->
  Forall client_session events ->
  status (post_batch env (batch_request projectId addr agent events)).2 = 400 /\
  (post_batch env (batch_request projectId addr agent events)).1 = [].
Proof.
  intros Huuid Hev. unfold post_batch, batch_request. cbn [body].
  assert (Hbad : exists err,
            batchEventsSchema_validate env (wire_event <$> events) = inl err).
  { unfold batchEventsSchema_validate. destruct Hev as [|e events He Hev].
    - simpl. by eexists.
    - rewrite fmap_cons. cbn [validate_items].
      destruct (session_id_refused env e Huuid He) as (err & ->). by eexists. }
  destruct Hbad as (err & ->). done.
Qed.

#[local] Arguments startsWith : simpl never.

Lemma flush_client_session synchronous a :
  all_client_session a -> all_client_session (flush synchronous a).
Proof.
  intros (Hs & Hq & Hi & Hn). unfold flush.
  destruct (eventQueue a) as [|e q] eqn:E; [by rewrite <- E in Hq|].
  unfold sendEvents, sendEventsSync. simpl.
  destruct (negb (isOnline a) && offlineEnabled (config a)), synchronous; simpl;
    try destruct (hasBeacon a); simpl; unfold all_client_session; simpl;
    rewrite ?Forall_app, ?Forall_singleton; simpl; split_and!;
    first [done | constructor].
Qed.

Lemma track_client_session eid now name props a :
  all_client_session a -> all_client_session (track eid now name props a).
Proof.
  intros (Hs & Hq & Hi & Hn). unfold track.
  set (event := {| id := eid; retries := 0%nat |}).
  set (a1 := set_eventQueue (eventQueue a ++ [event]) a).
  assert (H1 : all_client_session a1).
  { unfold all_client_session. subst a1. simpl.
    rewrite Forall_app, Forall_singleton. done. }
  clearbody a1.
  destruct (batchSize (config a1) <=? length (eventQueue a1))%nat.
  - destruct (offlineEnabled (config (flush false a1))); by apply flush_client_session.
  - by destruct (offlineEnabled (config a1)).
Qed.

Lemma settle_client_session i ok a :
  all_client_session a -> all_client_session (settle i ok a).
Proof.
  intros (Hs & Hq & Hi & Hn). unfold settle.
  destruct (inflight a !! i) as [events|] eqn:Ei; [|done].
  assert (Hev : Forall client_session events).
  { by apply (Forall_lookup_1 _ _ _ _ Hi Ei). }
  assert (Hdel : Forall (Forall client_session) (delete i (inflight a))).
  { by apply Forall_delete. }
  destruct ok.
  - unfold sendEvents_delivered. simpl. by destruct (offlineEnabled (config a)).
  - unfold sendEvents_failed. simpl.
    assert (Hback : Forall client_session
              ((bump <$> List.filter (fun e => (retries e <? retryAttempts (config a))%nat)
                           events) ++ eventQueue a)).
    { apply Forall_app. split; [|done]. apply Forall_fmap, Forall_forall.
      intros e He. apply list_elem_of_In, filter_In in He as [He _].
      rewrite Forall_forall in Hev. apply Hev. by apply list_elem_of_In. }
    by destruct (offlineEnabled (config a)).
Qed.

Lemma run_client_session acts : forall a,
  all_client_session a -> all_client_session (run acts a).
Proof.
  induction acts as [|act acts IH]; intros a Ha; [done|].
  change (run (act :: acts) a) with (run acts (step a act)). apply IH.
  destruct act as [eid now name props|synchronous| | | |i ok]; simpl.
  - by apply track_client_session.
  - by apply flush_client_session.
  - unfold periodicFlush. destruct (0 <? length (eventQueue a))%nat; [|done].
    by apply flush_client_session.
  - destruct (offlineEnabled (config a)); [|done]. unfold handleOnline.
    destruct (0 <? length (eventQueue (set_isOnline true a)))%nat; [|done].
    by apply flush_client_session.
  - by destruct (offlineEnabled (config a)).
  - by apply settle_client_session.
Qed.

Lemma guid_env_refuses_session s :
  is_uuid guid_env s = true -> startsWith s "session_" = false.
Proof.
  simpl. intros H. apply andb_true_iff in H as [_ H].
  destruct s as [|c s]; [done|]. simpl in H. apply andb_true_iff in H as [Hc _].
  change (startsWith (String c s) "session_")
    with (if Ascii.eqb c "s" then startsWith s "ession_" else false).
  destruct (Ascii.eqb_spec c "s") as [->|]; [|done].
  vm_compute in Hc. done.
Qed.

(** From the buffer to the gateway.  Every event the client tracks carries
    the session id of the instance, a text that starts with [session_];
    the gateway's schema wants [session_id] to be a GUID.  So whatever an
    instance tracks, flushes and retries, no batch it puts on the wire is
    accepted: a beacon, which carries no key, is answered 401 by
    [authenticateApiKey]; any other request is stopped by a middleware with
    401, 429 or 500, or reaches [POST /batch] and is answered 400; and
    nothing of it is stored, cached or broadcast. *)
Theorem client_batches_refused :
  forall (env : Env) (keys : KeyStore) (over_limit : bool) (addr : string)
         (agent : option string) (a : Analytics) (acts : list Action) (t : Transmission),
    (forall s, is_uuid env s = true -> startsWith s "session_" = false) ->
    all_client_session a ->
    t ∈ network (run acts a) ->
    let answer := events_batch_route env keys over_limit addr agent (config a) t in
    answer_status answer ∈ [400; 401; 429; 500] /\
    answer_effects answer = [] /\
    (forall events, t = Beacon events -> answer = Stopped 401 "API key required") /\
    (forall result, answer = Handled result -> status result.2 = 400).
Proof.
  intros env keys over_limit addr agent a acts t Huuid Ha Ht answer.
  destruct (run_client_session acts a Ha) as (_ & _ & _ & Hn).
  rewrite Forall_forall in Hn. specialize (Hn t Ht).
  assert (Hbatch : forall projectId,
            status (post_batch env (batch_request projectId addr agent (carried t))).2 = 400 /\
            (post_batch env (batch_request projectId addr agent (carried t))).1 = []).
  { intros projectId. by apply client_batch_refused. }
  assert (Hin : forall st : Z, st ∈ [401; 429; 500] -> st ∈ [400; 401; 429; 500]).
  { intros st Hst. by apply list_elem_of_further. }
  assert (Hstop : forall st e,
            st ∈ [401; 429; 500] ->
            (forall events, t = Beacon events -> st = 401 /\ e = "API key required") ->
            answer_status (Stopped st e) ∈ [400; 401; 429; 500] /\
            answer_effects (Stopped st e) = [] /\
            (forall events, t = Beacon events ->
                            Stopped st e = Stopped 401 "API key required") /\
            (forall result, Stopped st e = Handled result -> status result.2 = 400)).
  { intros st e Hst Hb. split; [by apply Hin|]. split; [done|]. split; [|done].
    intros events Ht'. by destruct (Hb events Ht') as [-> ->]. }
  subst answer. unfold events_batch_route, authenticateApiKey.
  destruct (api_key_header (config a) t) as [key|] eqn:Ek.
  - assert (Hnb : forall events, t = Beacon events -> False).
    { intros events ->. done. }
    assert (Hno : forall (st : Z) (e : string) events,
              t = Beacon events -> st = 401 /\ e = "API key required").
    { intros st e events Ht'. destruct (Hnb events Ht'). }
    case_bool_decide; [apply Hstop; [compute_done|apply Hno]|].
    destruct (find_project keys key) as [[projectId|]|];
      [|apply Hstop; [compute_done|apply Hno]..].
    destruct (touch_resolves keys key); [|apply Hstop; [compute_done|apply Hno]].
    destruct over_limit; [apply Hstop; [compute_done|apply Hno]|].
    destruct (Hbatch projectId) as [Hst Heff].
    cbn [answer_status answer_effects]. rewrite Hst, Heff.
    split; [apply list_elem_of_here|]. split; [done|]. split.
    + intros events Ht'. destruct (Hnb events Ht').
    + by intros result [= <-].
  - apply Hstop; [compute_done|]. done.
Qed.

Lemma client_batches_refused_witness :
  let acts := [Track "e1" "2024-06-01T12:00:00.000Z" "click" ∅; Flush true] in
  let a := run acts (idle (default_config "key") true) in
  let route := events_batch_route guid_env sample_keys false "10.0.0.1" (Some "sdk")
                 (default_config "key") in
  Forall (fun t => answer_effects (route t) = []) (network a) /\
  answer_status ∘ route <$> network a = [400; 401].
Proof.
  intros acts a route. split.
  - apply Forall_forall. intros t Ht.
    apply (client_batches_refused guid_env sample_keys false "10.0.0.1" (Some "sdk")
             (idle (default_config "key") true) acts t).
    + exact guid_env_refuses_session.
    + repeat split; try constructor.
    + exact Ht.
  - vm_compute. reflexivity.
Defined.

(** What the gateway has against the first batch of an anonymous visitor:
    the user id the client makes up is no GUID either, and [user_id] is
    looked at first. *)
Example anonymous_batch_complaint :
  let a := run [Track "e1" "2024-06-01T12:00:00.000Z" "click" ∅; Flush false]
               (idle (default_config "key") true) in
  (fun t => events_batch_route guid_env sample_keys false "10.0.0.1" (Some "sdk")
              (default_config "key") t) <$> network a
  = [Handled ([], {| status := 400;
                     json := {[ "error" :=
                                  JStr (message {| label := "events[0].user_id";
                                                   complaint := "must be a valid GUID" |}) ]} |})].
Proof. vm_compute. reflexivity. Qed.

End GatewayFacts.


(** ** Funnel analysis: the request and the rows *)

Module FunnelRouteFacts.
Import JS Funnel FunnelFacts FunnelRoute.

Lemma split_on_clean sep s : has_char sep s = false -> split_on sep s = [s].
Proof.
  induction s as [|c s IH]; [done|]. simpl. intros Hc.
  apply orb_false_iff in Hc as [Hc Hs]. rewrite Hc, (IH Hs). done.
Qed.

Lemma split_on_app sep a b :
  has_char sep a = false -> split_on sep (a +:+ String sep b) = a :: split_on sep b.
Proof.
  induction a as [|c a IH]; simpl; intros Hc.
  - by rewrite Ascii.eqb_refl.
  - apply orb_false_iff in Hc as [Hc Ha]. rewrite Hc, (IH Ha). done.
Qed.

(** What the dashboard joins, the route splits back. *)
Lemma split_join events :
  events <> [] -> Forall (fun e => has_char "," e = false) events ->
  split_on "," (join "," events) = events.
Proof.
  intros Hne Hall. induction Hall as [|e events He Hall IH]; [done|].
  destruct events as [|e' events].
  - simpl. by apply split_on_clean.
  - change (join "," (e :: e' :: events)) with (e +:+ "," +:+ join "," (e' :: events)).
    change ("," +:+ join "," (e' :: events)) with (String "," (join "," (e' :: events))).
    rewrite split_on_app by done. f_equal. by apply IH.
Qed.

Lemma plain_no_comma s : Wire.all_chars plain_char s = true -> has_char "," s = false.
Proof.
  induction s as [|c s IH]; [done|]. simpl. intros H.
  apply andb_true_iff in H as [Hc Hs]. rewrite (IH Hs), orb_false_r.
  destruct (Ascii.eqb_spec c ",") as [->|]; [|done]. vm_compute in Hc. done.
Qed.

Lemma plain_list_app a b :
  plain_list a = true -> plain_list b = true -> plain_list (a +:+ b) = true.
Proof.
  unfold plain_list. induction a as [|c a IH]; [done|]. simpl. intros Ha Hb.
  apply andb_true_iff in Ha as [Hc Ha]. by rewrite Hc, IH.
Qed.

Lemma plain_name_list s : Wire.all_chars plain_char s = true -> plain_list s = true.
Proof.
  unfold plain_list. induction s as [|c s IH]; [done|]. simpl. intros H.
  apply andb_true_iff in H as [Hc Hs]. by rewrite Hc, IH.
Qed.

Lemma plain_join events :
  Forall (fun e => Wire.all_chars plain_char e = true) events ->
  plain_list (join "," events) = true.
Proof.
  induction 1 as [|e events He Hall IH]; [done|].
  destruct events as [|e' events]; [by apply plain_name_list|].
  change (join "," (e :: e' :: events)) with (e +:+ "," +:+ join "," (e' :: events)).
  apply plain_list_app; [by apply plain_name_list|].
  apply (plain_list_app ","); [done|exact IH].
Qed.

Section Route.
Context {num : Type} `{JSNumber num}.

(** The funnel a dashboard asks for is the funnel analysed.  [transport]
    is what becomes of the text placed after [events=] on its way through
    the URL and the parser of the query string to [req.query.events]; all
    that is assumed of it is that a text of plain characters and commas
    arrives as it was sent.  Then the event names the client joins with
    commas are the steps of the answer, in order, provided there are at
    least two and each is made of plain characters. *)
Theorem funnel_request_round_trip :
  forall (transport : string -> option string) (events : list string)
         (store : JsonResult),
    (forall s, plain_list s = true -> transport s = Some s) ->
    (2 <= length events)%nat ->
    Forall (fun e => Wire.all_chars plain_char e = true) events ->
    funnel_route (transport (eventsParam events)) (Some store)
    = FunnelData (imap (funnel_step (rawData_of store)) events) events.
Proof.
  intros transport events store Htransport Hlen Hall.
  rewrite Htransport by (by apply plain_join).
  unfold funnel_route, get_funnel, eventsParam.
  rewrite split_join; [|intros ->; simpl in Hlen; lia|].
  - replace (length events <? 2)%nat with false by (symmetry; apply Nat.ltb_ge; lia).
    done.
  - eapply Forall_impl; [exact Hall|]. intros e He. by apply plain_no_comma.
Qed.

(** The row is never read.  When [result.json()] returns a promise,
    [await result.json()[0] || {}] is the empty object whatever the store
    answered, and the funnel reports 0 users and a conversion rate of 0 at
    every step. *)
Theorem funnel_reads_no_row :
  forall (s : string) (rows : list (gmap string Z)),
    (2 <= length (split_on "," s))%nat ->
    rawData_of (Promise rows) = ∅ /\
    funnel_route (Some s) (Some (Promise rows))
    = FunnelData
        (imap (fun index event =>
                 {| step := index + 1; event_name := event;
                    users := of_Z 0; conversion_rate := of_Z 0 |})
              (split_on "," s))
        (split_on "," s).
Proof.
  intros s rows Hlen. split; [reflexivity|].
  unfold funnel_route, get_funnel. simpl.
  replace (length (split_on "," s) <? 2)%nat with false
    by (symmetry; apply Nat.ltb_ge; lia).
  f_equal. apply imap_ext. intros index event _.
  unfold funnel_step, rawData_of. simpl. rewrite !lookup_empty. simpl.
  f_equal. destruct (0 <? index)%nat.
  - apply round2_0.
  - rewrite positive_of_Z. simpl. apply round2_0.
Qed.

End Route.

Lemma funnel_request_round_trip_witness :
  funnel_route (num := Qc) (Some (eventsParam ["signup"; "purchase"]))
    (Some (Rows [{[ users_key 1 := 200; users_key 2 := 50 ]}]))
  = FunnelData
      [ {| step := 1; event_name := "signup"; users := Qc_of_Z 200;
           conversion_rate := round2 (fmul (fdiv (Qc_of_Z 200) (Qc_of_Z 200)) (Qc_of_Z 100)) |};
        {| step := 2; event_name := "purchase"; users := Qc_of_Z 50;
           conversion_rate := round2 (fmul (fdiv (Qc_of_Z 50) (Qc_of_Z 200)) (Qc_of_Z 100)) |} ]
      ["signup"; "purchase"].
Proof.
  rewrite (funnel_request_round_trip (num := Qc) Some ["signup"; "purchase"]).
  - reflexivity.
  - done.
  - simpl. lia.
  - by repeat constructor.
Defined.

Lemma funnel_reads_no_row_witness :
  funnel_route (num := Qc) (Some "signup,purchase")
    (Some (Promise [{[ users_key 1 := 200; users_key 2 := 50 ]}]))
  = FunnelData
      [ {| step := 1; event_name := "signup"; users := Qc_of_Z 0;
           conversion_rate := Qc_of_Z 0 |};
        {| step := 2; event_name := "purchase"; users := Qc_of_Z 0;
           conversion_rate := Qc_of_Z 0 |} ]
      ["signup"; "purchase"].
Proof.
  destruct (funnel_reads_no_row (num := Qc) "signup,purchase"
              [{[ users_key 1 := 200; users_key 2 := 50 ]}]) as [_ ->].
  - simpl. lia.
  - reflexivity.
Defined.

(** A name with a comma becomes two steps. *)
Example funnel_comma_splits :
  split_on "," (eventsParam ["sign,up"; "purchase"]) = ["sign"; "up"; "purchase"].
Proof. reflexivity. Qed.

End FunnelRouteFacts.

(** ** Bearer tokens and sanitised questions *)

Module AuthFacts.
Import JS AIQuery FunnelRoute FunnelRouteFacts Auth.

Lemma token_of_pieces scheme tok :
  has_char " " scheme = false -> has_char " " tok = false ->
  token_of (Some (scheme +:+ " " +:+ tok))
  = if bool_decide (tok = "") then None else Some tok.
Proof.
  intros Hs Ht. unfold token_of.
  change (" " +:+ tok) with (String " " tok).
  rewrite split_on_app, split_on_clean by done.
  destruct (scheme +:+ String " " tok) eqn:E; [|done].
  by destruct scheme.
Qed.

(** The scheme of the [Authorization] header is not looked at: whatever
    stands before the first space, the text after it is the token that is
    verified, so a header such as [Basic <token>] is treated exactly as
    [Bearer <token>]. *)
Theorem token_scheme_unchecked :
  forall (v : Verifier) (scheme tok : string),
    has_char " " scheme = false -> has_char " " tok = false ->
    authenticateToken v (Some (scheme +:+ " " +:+ tok))
    = authenticateToken v (Some ("Bearer " +:+ tok)).
Proof.
  intros v scheme tok Hs Ht. unfold authenticateToken.
  rewrite (token_of_pieces scheme tok Hs Ht).
  change ("Bearer " +:+ tok) with ("Bearer" +:+ " " +:+ tok).
  by rewrite (token_of_pieces "Bearer" tok eq_refl Ht).
Qed.

Lemma token_scheme_unchecked_witness :
  authenticateToken sample_verifier (Some ("Basic" +:+ " " +:+ "t1"))
  = Next {| user_id := "u1"; email := "alice@example.com"; role := None |}.
Proof.
  rewrite (token_scheme_unchecked sample_verifier "Basic" "t1" eq_refl eq_refl).
  reflexivity.
Defined.

Lemma remove_chars_clean bad s c :
  has_char c (remove_chars bad s) = true -> bad c = false.
Proof.
  induction s as [|a s IH]; simpl; [done|].
  destruct (bad a) eqn:Ea; [exact IH|]. simpl.
  destruct (Ascii.eqb_spec a c) as [->|]; [done|]. exact IH.
Qed.

Lemma remove_chars_idem bad s :
  remove_chars bad (remove_chars bad s) = remove_chars bad s.
Proof.
  induction s as [|a s IH]; simpl; [done|].
  destruct (bad a) eqn:Ea; [exact IH|]. simpl. by rewrite Ea, IH.
Qed.

Lemma remove_chars_length bad s :
  (String.length (remove_chars bad s) <= String.length s)%nat.
Proof.
  induction s as [|a s IH]; simpl; [done|]. destruct (bad a); simpl; lia.
Qed.

Lemma remove_chars_id bad s :
  (forall c, has_char c s = true -> bad c = false) -> remove_chars bad s = s.
Proof.
  induction s as [|a s IH]; simpl; intros Hs; [done|].
  rewrite (Hs a) by (by rewrite Ascii.eqb_refl). f_equal. apply IH.
  intros c Hc. apply Hs. rewrite Hc. apply orb_true_r.
Qed.

(** [sanitizeInput]: the result has none of the five characters, is no
    longer than the input, is left alone by a second pass, and is the input
    itself when the input had none of them. *)
Theorem sanitizeInput_removes :
  forall input : string,
    let out := sanitizeInput input in
    (forall c, c ∈ ["<"; ">"; "'"; dquote; "&"]%char -> has_char c out = false) /\
    (String.length out <= String.length input)%nat /\
    sanitizeInput out = out /\
    ((forall c, c ∈ ["<"; ">"; "'"; dquote; "&"]%char -> has_char c input = false) ->
     out = input).
Proof.
  intros input out. subst out. unfold sanitizeInput. repeat split.
  - intros c Hc. destruct (has_char c (remove_chars _ input)) eqn:E; [|done].
    apply remove_chars_clean in E. by apply bool_decide_eq_false_1 in E.
  - apply remove_chars_length.
  - apply remove_chars_idem.
  - intros Hclean. apply remove_chars_id. intros c Hc.
    apply bool_decide_eq_false_2. intros Hin. specialize (Hclean c Hin). congruence.
Qed.

End AuthFacts.
